(** * liblognorm: the parse dag (pdag.c)

    A shallow embedding of [src/pdag.c]: the parser lookup table, the pdag
    builder ([ln_newParser], [ln_newPDAG], [ln_pdagAddParser]), the
    literal path compaction ([optLitPathCompact],
    [ln_pdagComponentOptimize], [ln_pdagOptimize]) and the normalizer
    ([tryParser], [fixJSON], [ln_normalizeRec], [ln_normalize],
    [addUnparsedField]).

    Conventions of the embedding.
    - A pdag is a tree in this version of the library (every node is owned by
      the one edge that points to it), so a node is a value of an inductive
      type and an in-place update of a node is the construction of the updated
      value.  A pointer to a node inside a component is a path of edge
      indices from the root of the component.
    - [size_t] is a 64 bit unsigned integer, kept as a [Z] with the wrap-around
      written at each arithmetic operation.
    - Out-parameters are returned; a json object that the C code updates in
      place is threaded through the calls.
    - A failed allocation ([calloc], [strdup], [realloc], json-c constructors)
      is not modelled.
    - Functions answer [None] where the C code has no defined behaviour (a
      NULL or out-of-bounds read) and, for the recursive normalizer, where the
      recursion budget is used up. *)

From Stdlib Require Import ZArith String Ascii List Lia Bool.
From stdpp Require Import base option gmap strings list.
Set Warnings "-register-all".
#[local] Open Scope string_scope.
#[local] Open Scope Z_scope.

(** ** json-c values

    json-c represents the JSON value null by the NULL pointer, so [JNull] is
    also the model of a [struct json_object *] that is NULL.  An object is a
    finite map from keys to values. *)

Inductive json : Type :=
  | JNull
  | JBool (b : bool)
  | JInt (z : Z)
  | JString (s : string)
  | JArray (l : list json)
  | JObject (o : gmap string json).

Definition json_is_null (j : json) : bool :=
  match j with JNull => true | _ => false end.

(** [json_object_get_type(j) == json_type_object] *)
Definition json_is_object (j : json) : bool :=
  match j with JObject _ => true | _ => false end.

(** [json_object_new_object()] *)
Definition json_object_new_object : json := JObject ∅.

(** [json_object_object_add(obj, key, val)]: the entry of [key] is created or
    replaced.  The C code only calls it on objects. *)
Definition json_object_object_add (obj : json) (key : string) (val : json) : json :=
  match obj with
  | JObject o => JObject (<[key := val]> o)
  | _ => obj
  end.

(** [json_object_object_get] as a lookup. *)
Definition json_object_object_get (obj : json) (key : string) : option json :=
  match obj with
  | JObject o => o !! key
  | _ => None
  end.

(** ** C strings and buffers *)

Definition size_t := Z.
Definition SIZE_MODULUS : Z := 2 ^ 64.
Definition size_t_wrap (z : Z) : size_t := z mod SIZE_MODULUS.

Definition NUL : ascii := "000"%char.

Fixpoint string_take (n : nat) (s : string) : string :=
  match n, s with
  | S n', String c s' => String c (string_take n' s')
  | _, _ => EmptyString
  end.

Fixpoint string_drop (n : nat) (s : string) : string :=
  match n, s with
  | S n', String _ s' => string_drop n' s'
  | _, _ => s
  end.

(** The bytes of a buffer up to its first NUL: what a C string function
    sees of it. *)
Fixpoint until_nul (s : string) : string :=
  match s with
  | EmptyString => EmptyString
  | String c s' => if Ascii.eqb c NUL then EmptyString else String c (until_nul s')
  end.

Fixpoint has_nul (s : string) : bool :=
  match s with
  | EmptyString => false
  | String c s' => Ascii.eqb c NUL || has_nul s'
  end.

(** [strndup(str, n)] *)
Definition strndup (str : string) (n : size_t) : string :=
  until_nul (string_take (Z.to_nat n) str).

(** [strcmp(a, b) == 0] on two C strings. *)
Definition streq (a b : string) : bool := String.eqb a b.

(** ** Parser ids and status codes *)

(** [prsid_t]: the position of a parser in [parser_lookup_table]. *)
Definition prsid_t := nat.

(** The literal parser is the first entry of [parser_lookup_table]. *)
Definition PRS_LITERAL : prsid_t := 0%nat.

(** Modelled from the spec: pdag.h, which defines the sentinel ids, is not
    among the sources; the spec reserves [CUSTOM_TYPE] for edges that recurse
    into a user-defined type and [INVALID] for an unknown parser name.  They
    are the two largest values of the 8 bit id type. *)
Definition PRS_CUSTOM_TYPE : prsid_t := 254%nat.
Definition PRS_INVALID : prsid_t := 255%nat.

(** Modelled from the spec: liblognorm.h, which defines the status codes, is
    not among the sources; the spec fixes that WrongParser is a nonzero
    status.  The value is the one of the public header. *)
Definition LN_WRONGPARSER : Z := -1000.

(** Modelled from the spec: the reserved field names attached on failure
    (the macros ORIGINAL_MSG_KEY and UNPARSED_DATA_KEY of an absent header). *)
Definition ORIGINAL_MSG_KEY : string := "originalmsg".
Definition UNPARSED_DATA_KEY : string := "unparsed-data".

(** ** The plug-in interface

    [parse(ctx, str, strLen, &offs, parser_data, &parsed, value)].  The field
    parsers live in parser.c, which is not among the sources: they are
    parameters of the development.  A parser sees the buffer, its length, the
    offset, its configured data, the current content of [*parsed] and whether
    [value] is a non-NULL pointer; it answers the status and the new contents
    of [*offs], [*parsed] and [*value]. *)

Record parse_out : Type := mk_parse_out {
  po_r : Z;
  po_offs : size_t;
  po_parsed : size_t;
  po_value : json }.

(** [parser_data] is an opaque pointer; the literal parser keeps a C string
    behind it.  [None] is the NULL pointer. *)
Definition parser_data_t := option string.

Definition parse_fn : Type :=
  string -> size_t -> size_t -> parser_data_t -> size_t -> bool -> parse_out.

(** [construct(ctx, extraData, json, &parser_data)]: the data it stores. *)
Definition construct_fn : Type := option string -> json -> parser_data_t.

Record ln_parser_info : Type := mk_parser_info {
  pi_name : string;
  construct : option construct_fn;
  parser : parse_fn;
  destruct_hook : bool }.

(** The code of this repository that pdag.c calls and that is not among the
    sources: the hooks of parser.c, by the identifier the table macros paste,
    and the annotator of annot.c. *)
Record ln_plugins : Type := mk_plugins {
  ln_construct : string -> construct_fn;
  ln_parse : string -> parse_fn;
  ln_annotate : json -> json -> Z * json }.

(** ** Parser edges and pdag nodes *)

(** [ln_parser_t].  The type of the [node] field is a parameter: an edge
    installed in a node has a child ([ln_parser_t ln_pdag]); the edge that
    [ln_newParser] returns has [node == NULL] ([ln_parser_t unit]).
    [custType] points into the table of user-defined types of the context:
    it is the index of the entry. *)
Record ln_parser_t (N : Type) : Type := mk_parser {
  node : N;
  prio : Z;
  name : string;
  prsid : prsid_t;
  custType : option nat;
  parser_data : parser_data_t }.

Arguments mk_parser {N}.
Arguments node {N}.
Arguments prio {N}.
Arguments name {N}.
Arguments prsid {N}.
Arguments custType {N}.
Arguments parser_data {N}.

(** [struct ln_pdag]: [nparsers] is the length of [parsers]; [tags] is
    [JNull] when the pointer is NULL. *)
Inductive ln_pdag : Type := mk_pdag {
  parsers : list (ln_parser_t ln_pdag);
  isTerminal : bool;
  tags : json }.

Definition nparsers (dag : ln_pdag) : nat := length (parsers dag).

Definition set_node {N M : Type} (prs : ln_parser_t N) (n : M) : ln_parser_t M :=
  mk_parser n (prio prs) (name prs) (prsid prs) (custType prs) (parser_data prs).

Definition set_parser_data {N : Type} (prs : ln_parser_t N) (d : parser_data_t) : ln_parser_t N :=
  mk_parser (node prs) (prio prs) (name prs) (prsid prs) (custType prs) d.

Definition set_parsers (dag : ln_pdag) (ps : list (ln_parser_t ln_pdag)) : ln_pdag :=
  mk_pdag ps (isTerminal dag) (tags dag).

(** Number of nodes of the tree below (and with) a node. *)
Fixpoint pdag_size (dag : ln_pdag) : nat :=
  S (list_sum (map (fun prs => pdag_size (node prs)) (parsers dag))).

(** [struct ln_type_pdag] and the context. *)
Record ln_type_pdag : Type := mk_type_pdag {
  tp_name : string;
  tp_pdag : ln_pdag }.

Record ln_ctx : Type := mk_ctx {
  pdag : ln_pdag;
  type_pdags : list ln_type_pdag;
  nNodes : Z;
  debug : bool }.

Definition nTypes (ctx : ln_ctx) : nat := length (type_pdags ctx).

(** The nodes that are alive in a context: those of its components. *)
Definition live_nodes (ctx : ln_ctx) : nat :=
  (pdag_size (pdag ctx) + list_sum (map (fun t => pdag_size (tp_pdag t)) (type_pdags ctx)))%nat.

(** ** The parser lookup table and the pdag builder *)

Section Pdag.

Context (P : ln_plugins).

Definition PARSER_ENTRY_NO_DATA (identifier prs : string) : ln_parser_info :=
  mk_parser_info identifier None (ln_parse P prs) false.

Definition PARSER_ENTRY (identifier prs : string) : ln_parser_info :=
  mk_parser_info identifier (Some (ln_construct P prs)) (ln_parse P prs) true.

Definition parser_lookup_table : list ln_parser_info :=
  [ PARSER_ENTRY "literal" "Literal";
    PARSER_ENTRY_NO_DATA "date-rfc3164" "RFC3164Date";
    PARSER_ENTRY_NO_DATA "date-rfc5424" "RFC5424Date";
    PARSER_ENTRY_NO_DATA "number" "Number";
    PARSER_ENTRY_NO_DATA "float" "Float";
    PARSER_ENTRY "hexnumber" "HexNumber";
    PARSER_ENTRY_NO_DATA "kernel-timestamp" "KernelTimestamp";
    PARSER_ENTRY_NO_DATA "whitespace" "Whitespace";
    PARSER_ENTRY_NO_DATA "ipv4" "IPv4";
    PARSER_ENTRY_NO_DATA "ipv6" "IPv6";
    PARSER_ENTRY_NO_DATA "word" "Word";
    PARSER_ENTRY_NO_DATA "alpha" "Alpha";
    PARSER_ENTRY_NO_DATA "rest" "Rest";
    PARSER_ENTRY_NO_DATA "op-quoted-string" "OpQuotedString";
    PARSER_ENTRY_NO_DATA "quoted-string" "QuotedString";
    PARSER_ENTRY_NO_DATA "date-iso" "ISODate";
    PARSER_ENTRY_NO_DATA "time-24hr" "Time24hr";
    PARSER_ENTRY_NO_DATA "time-12hr" "Time12hr";
    PARSER_ENTRY_NO_DATA "duration" "Duration";
    PARSER_ENTRY_NO_DATA "cisco-interface-spec" "CiscoInterfaceSpec";
    PARSER_ENTRY_NO_DATA "name-value-list" "NameValue";
    PARSER_ENTRY_NO_DATA "json" "JSON";
    PARSER_ENTRY_NO_DATA "cee-syslog" "CEESyslog";
    PARSER_ENTRY_NO_DATA "mac48" "MAC48";
    PARSER_ENTRY_NO_DATA "cef" "CEF";
    PARSER_ENTRY_NO_DATA "checkpoint-lea" "CheckpointLEA";
    PARSER_ENTRY_NO_DATA "v2-iptables" "v2IPTables";
    PARSER_ENTRY "string-to" "StringTo";
    PARSER_ENTRY "char-to" "CharTo";
    PARSER_ENTRY "char-sep" "CharSeparated" ].

Definition NPARSERS : nat := length parser_lookup_table.

Definition parserName (id : prsid_t) : option string :=
  if Nat.eqb id PRS_CUSTOM_TYPE then Some "USER-DEFINED"
  else pi_name <$> parser_lookup_table !! id.

Fixpoint ln_parserName2ID_from (i : nat) (tab : list ln_parser_info) (nm : string) : prsid_t :=
  match tab with
  | [] => PRS_INVALID
  | e :: tab' => if streq (pi_name e) nm then i else ln_parserName2ID_from (S i) tab' nm
  end.

Definition ln_parserName2ID (nm : string) : prsid_t :=
  ln_parserName2ID_from 0 parser_lookup_table nm.

(** [ln_newParser]: the edge has no child yet. *)
Definition ln_newParser (nm : string) (id : prsid_t) (ct : option nat)
    (extraData : option string) (js : json) : option (ln_parser_t unit) :=
  if Nat.eqb id PRS_CUSTOM_TYPE then
    Some (mk_parser tt 0 nm id ct None)
  else
    info ← parser_lookup_table !! id;
    Some (mk_parser tt 0 nm id None
            (match construct info with
             | Some c => c extraData js
             | None => None
             end)).

(** [ln_newLiteralParser] *)
Definition ln_newLiteralParser (lit : ascii) : option (ln_parser_t unit) :=
  ln_newParser "-" PRS_LITERAL None (Some (until_nul (String lit EmptyString))) JNull.

End Pdag.

(** [ln_newPDAG]: a zeroed node; the node counter of the context grows. *)
Definition ln_newPDAG (ctx : ln_ctx) : ln_pdag * ln_ctx :=
  (mk_pdag [] false JNull,
   mk_ctx (pdag ctx) (type_pdags ctx) (nNodes ctx + 1) (debug ctx)).

(** [((char* )parser_data)[0]]: the first byte of the C string, NUL for the
    empty string; no value for the NULL pointer. *)
Definition data_char0 (d : parser_data_t) : option ascii :=
  match d with
  | None => None
  | Some EmptyString => Some NUL
  | Some (String c _) => Some c
  end.

(** The search loop of [ln_pdagAddParser], from index [i] on: the index of
    the first edge with which [parser] is merged, if there is one. *)
Fixpoint addParser_search (ps : list (ln_parser_t ln_pdag)) (parser : ln_parser_t unit)
    (i : nat) : option (option nat) :=
  match ps with
  | [] => Some None
  | p :: ps' =>
      if Nat.eqb (prsid p) (prsid parser) && streq (name p) (name parser) then
        if Nat.eqb (prsid parser) PRS_LITERAL then
          a ← data_char0 (parser_data p);
          b ← data_char0 (parser_data parser);
          if Ascii.eqb a b then Some (Some i) else addParser_search ps' parser (S i)
        else Some (Some i)
      else addParser_search ps' parser (S i)
  end.

(** What a call of [ln_pdagAddParser] leaves behind: the status, the context
    (its counter), the node [*pdag] pointed to on entry, the index of the
    edge of that node whose child [*pdag] points to on return, and whether
    [pdagDeletePrs] has released the name and the data of the new edge. *)
Record addParser_out : Type := mk_addParser_out {
  ap_r : Z;
  ap_ctx : ln_ctx;
  ap_dag : ln_pdag;
  ap_next : nat;
  ap_released : bool }.

Definition ln_pdagAddParser (ctx : ln_ctx) (dag : ln_pdag) (parser : ln_parser_t unit)
    : option addParser_out :=
  found ← addParser_search (parsers dag) parser 0;
  match found with
  | Some i =>
      (* merge: *pdag = dag->parsers[i].node; pdagDeletePrs(parser) *)
      Some (mk_addParser_out 0 ctx dag i true)
  | None =>
      (* a new parser type: a new node, appended to the table *)
      let '(child, ctx') := ln_newPDAG ctx in
      Some (mk_addParser_out 0 ctx'
              (set_parsers dag (parsers dag ++ [set_node parser child]))
              (nparsers dag) false)
  end.

(** *** Pointers into a component *)

Fixpoint pdag_lookup (dag : ln_pdag) (path : list nat) : option ln_pdag :=
  match path with
  | [] => Some dag
  | i :: path' => prs ← parsers dag !! i; pdag_lookup (node prs) path'
  end.

Fixpoint pdag_modify (f : ln_pdag -> ln_pdag) (path : list nat) (dag : ln_pdag) : ln_pdag :=
  match path with
  | [] => f dag
  | i :: path' =>
      set_parsers dag
        (alter (fun prs => set_node prs (pdag_modify f path' (node prs))) i (parsers dag))
  end.

(** A component of the context: the main pdag ([None]) or a user-defined
    type; a cursor is a node of a component. *)
Record ln_cursor : Type := mk_cursor {
  cur_type : option nat;
  cur_path : list nat }.

Definition ctx_component (ctx : ln_ctx) (c : option nat) : option ln_pdag :=
  match c with
  | None => Some (pdag ctx)
  | Some i => tp_pdag <$> type_pdags ctx !! i
  end.

Definition ctx_set_component (ctx : ln_ctx) (c : option nat) (dag : ln_pdag) : ln_ctx :=
  match c with
  | None => mk_ctx dag (type_pdags ctx) (nNodes ctx) (debug ctx)
  | Some i =>
      mk_ctx (pdag ctx)
        (alter (fun t => mk_type_pdag (tp_name t) dag) i (type_pdags ctx))
        (nNodes ctx) (debug ctx)
  end.

(** [ln_pdagAddParser(&cur, parser)] on a node of the context. *)
Definition ln_pdagAddParser_at (ctx : ln_ctx) (cur : ln_cursor) (parser : ln_parser_t unit)
    : option (Z * ln_ctx * ln_cursor) :=
  root ← ctx_component ctx (cur_type cur);
  dag ← pdag_lookup root (cur_path cur);
  out ← ln_pdagAddParser ctx dag parser;
  Some (ap_r out,
        ctx_set_component (ap_ctx out) (cur_type cur)
          (pdag_modify (fun _ => ap_dag out) (cur_path cur) root),
        mk_cursor (cur_type cur) (cur_path cur ++ [ap_next out])).

(** [cur->flags.isTerminal = 1] *)
Definition set_isTerminal_at (ctx : ln_ctx) (cur : ln_cursor) : option ln_ctx :=
  root ← ctx_component ctx (cur_type cur);
  Some (ctx_set_component ctx (cur_type cur)
          (pdag_modify (fun dag => mk_pdag (parsers dag) true (tags dag)) (cur_path cur) root)).

(** The calls a rulebase loader issues, one sample after the other. *)
Inductive builder_call : Type :=
  | AddLiteral (lit : ascii)
  | AddParser (nm : string) (id : prsid_t) (ct : option nat) (extraData : option string)
  | SetTerminal
  | Rewind (c : option nat).

Definition builder_step (P : ln_plugins) (st : ln_ctx * ln_cursor) (call : builder_call)
    : option (ln_ctx * ln_cursor) :=
  let '(ctx, cur) := st in
  match call with
  | AddLiteral lit =>
      parser ← ln_newLiteralParser P lit;
      '(_, ctx', cur') ← ln_pdagAddParser_at ctx cur parser;
      Some (ctx', cur')
  | AddParser nm id ct extraData =>
      parser ← ln_newParser P nm id ct extraData JNull;
      '(_, ctx', cur') ← ln_pdagAddParser_at ctx cur parser;
      Some (ctx', cur')
  | SetTerminal => ctx' ← set_isTerminal_at ctx cur; Some (ctx', cur)
  | Rewind c => Some (ctx, mk_cursor c [])
  end.

Fixpoint builder_run (P : ln_plugins) (st : ln_ctx * ln_cursor) (calls : list builder_call)
    : option (ln_ctx * ln_cursor) :=
  match calls with
  | [] => Some st
  | call :: calls' => st' ← builder_step P st call; builder_run P st' calls'
  end.

(** A context with the roots of the main pdag and of [n] user-defined types,
    each obtained from [ln_newPDAG]. *)
Fixpoint ctx_add_types (ctx : ln_ctx) (names : list string) : ln_ctx :=
  match names with
  | [] => ctx
  | nm :: names' =>
      let '(root, ctx') := ln_newPDAG ctx in
      ctx_add_types
        (mk_ctx (pdag ctx') (type_pdags ctx' ++ [mk_type_pdag nm root]) (nNodes ctx') (debug ctx'))
        names'
  end.

Definition ctx_init (names : list string) : ln_ctx :=
  let '(root, ctx) := ln_newPDAG (mk_ctx (mk_pdag [] false JNull) [] 0 false) in
  ctx_add_types (mk_ctx root (type_pdags ctx) (nNodes ctx) (debug ctx)) names.

(** ** Destruction

    In the tree a deleted node is a node that is no longer there; what the
    destructors add to that is which nodes they release.  An edge being
    destroyed may have lost its child (a NULL [node]), so its child is
    optional here.  Neither function writes the node counter of the
    context. *)

(** [pdagDeletePrs]: the number of nodes released with an edge: those below
    its child, none if the child pointer is NULL. *)
Definition pdagDeletePrs (prs : ln_parser_t (option ln_pdag)) : nat :=
  match node prs with
  | Some child => pdag_size child
  | None => 0%nat
  end.

(** [ln_pdagDelete] on a node with the given edges: the number of nodes
    released, the node itself included. *)
Definition ln_pdagDelete (edges : list (ln_parser_t (option ln_pdag))) : nat :=
  S (list_sum (map pdagDeletePrs edges)).

(** ** The optimizer: literal path compaction *)

Definition lit_payload (d : parser_data_t) : string := default EmptyString d.

(** Modelled from the spec: [ln_combineData_Literal] is part of parser.c,
    which is not among the sources; it concatenates the payload of the child
    literal to the payload of the edge.  It answers the status and the new
    data of the edge. *)
Definition ln_combineData_Literal (org add : parser_data_t) : Z * parser_data_t :=
  (0, Some (lit_payload org +:+ lit_payload add)).

(** The condition of the loop of [optLitPathCompact]: two literals in a
    row. *)
Definition compactable (prs : ln_parser_t ln_pdag) : bool :=
  Nat.eqb (prsid prs) PRS_LITERAL
  && match parsers (node prs) with
     | [child_prs] => Nat.eqb (prsid child_prs) PRS_LITERAL
     | _ => false
     end.

(** One round of the loop: the data of the child edge is added to the edge,
    the edge is pointed at the grandchild, and the node in between is
    deleted after its edge has been detached from the grandchild
    ([child_prs->node = NULL]). *)
Definition compact_step (prs : ln_parser_t ln_pdag) : Z * ln_parser_t ln_pdag :=
  match parsers (node prs) with
  | child_prs :: _ =>
      let '(r, d) := ln_combineData_Literal (parser_data prs) (parser_data child_prs) in
      if r =? 0 then (0, set_node (set_parser_data prs d) (node child_prs))
      else (r, prs)
  | [] => (0, prs)
  end.

(** What the call of [ln_pdagDelete] in a round releases. *)
Definition compact_step_released (prs : ln_parser_t ln_pdag) : nat :=
  match parsers (node prs) with
  | child_prs :: _ => ln_pdagDelete [set_node child_prs None]
  | [] => 0%nat
  end.

(** The loop of [optLitPathCompact] with a bound on the rounds; each round
    removes one node from below the edge. *)
Fixpoint optLitPathCompact_loop (rounds : nat) (prs : ln_parser_t ln_pdag)
    : Z * ln_parser_t ln_pdag :=
  match rounds with
  | O => (0, prs)
  | S rounds' =>
      if compactable prs then
        let '(r, prs') := compact_step prs in
        if r =? 0 then optLitPathCompact_loop rounds' prs' else (r, prs')
      else (0, prs)
  end.

Definition optLitPathCompact (prs : ln_parser_t ln_pdag) : Z * ln_parser_t ln_pdag :=
  optLitPathCompact_loop (pdag_size (node prs)) prs.

(** One round of the loop of [ln_pdagComponentOptimize]: the edge is
    compacted, then the node it leads to is optimized by [rec]; the status of
    [optLitPathCompact] is ignored, as in the C code. *)
Definition optimize_edge (rec : ln_pdag -> ln_pdag) (prs : ln_parser_t ln_pdag)
    : ln_parser_t ln_pdag :=
  let prs' := snd (optLitPathCompact prs) in
  set_node prs' (rec (node prs')).

(** [ln_pdagComponentOptimize] with a bound on the depth of the recursion. *)
Fixpoint ln_pdagComponentOptimize_depth (depth : nat) (dag : ln_pdag) : ln_pdag :=
  match depth with
  | O => dag
  | S depth' =>
      set_parsers dag
        (map (optimize_edge (ln_pdagComponentOptimize_depth depth')) (parsers dag))
  end.

Definition ln_pdagComponentOptimize (dag : ln_pdag) : Z * ln_pdag :=
  (0, ln_pdagComponentOptimize_depth (pdag_size dag) dag).

(** [ln_pdagOptimize]: every user-defined type, then the main component.
    The node counter of the context is not written. *)
Definition ln_pdagOptimize (ctx : ln_ctx) : Z * ln_ctx :=
  (0, mk_ctx (snd (ln_pdagComponentOptimize (pdag ctx)))
        (map (fun t => mk_type_pdag (tp_name t) (snd (ln_pdagComponentOptimize (tp_pdag t))))
             (type_pdags ctx))
        (nNodes ctx) (debug ctx)).

(** ** The normalizer *)

(** [addUnparsedField]: the buffer is copied as a C string; [s + offs] is
    inside the copy only up to its terminating NUL. *)
Definition addUnparsedField (str : string) (strLen : size_t) (offs : size_t) (js : json)
    : option (Z * json) :=
  let s := strndup str strLen in
  let js1 := json_object_object_add js ORIGINAL_MSG_KEY (JString s) in
  if (0 <=? offs) && (offs <=? Z.of_nat (String.length s)) then
    Some (0, json_object_object_add js1 UNPARSED_DATA_KEY
               (JString (string_drop (Z.to_nat offs) s)))
  else None.

(** [fixJSON]: the status and the result object after the value of the edge
    has been folded into it. *)
Definition fixJSON (value : json) (js : json) (prs : ln_parser_t ln_pdag) : Z * json :=
  if streq (name prs) "-" then
    (* the value, if there is one, is released *)
    (0, js)
  else if streq (name prs) "." then
    match value with
    | JObject o =>
        (0, map_fold (fun key val acc => json_object_object_add acc key val) js o)
    | _ => (0, json_object_object_add js (name prs) value)
    end
  else (0, json_object_object_add js (name prs) value).

(** What [ln_normalizeRec] leaves behind: the status and the contents of
    [*pParsedTo], of the result object and of [*endNode] (a NULL pointer is
    [None]). *)
Record norm_out : Type := mk_norm_out {
  no_r : Z;
  no_parsedTo : size_t;
  no_json : json;
  no_endNode : option ln_pdag }.

(** The arguments of [ln_normalizeRec]: the node, the buffer and its length,
    the offset, the partial-match flag and the contents of [*pParsedTo], of
    the result object and of [*endNode] on entry. *)
Definition normalizeRec_t : Type :=
  ln_pdag -> string -> size_t -> size_t -> bool -> size_t -> json -> option ln_pdag
  -> option norm_out.

(** What [tryParser] leaves behind: the status and the contents of [*offs],
    [*pParsed] and [*value]. *)
Record try_out : Type := mk_try_out {
  to_r : Z;
  to_offs : size_t;
  to_parsed : size_t;
  to_value : json }.

(** The local variables of [ln_normalizeRec] and the cells behind its
    out-parameters, as the edge loop carries them from round to round. *)
Record loop_state : Type := mk_loop_state {
  ls_r : Z;
  ls_parsedTo : size_t;
  ls_parsed : size_t;
  ls_pParsedTo : size_t;
  ls_json : json;
  ls_endNode : option ln_pdag }.

Section Normalizer.

Context (P : ln_plugins) (ctx : ln_ctx).

(** [tryParser], with the recursive normalizer as a parameter. *)
Definition tryParser_with (rec : normalizeRec_t)
    (str : string) (strLen : size_t) (offs : size_t) (parsed : size_t) (value : json)
    (prs : ln_parser_t ln_pdag) : option try_out :=
  if Nat.eqb (prsid prs) PRS_CUSTOM_TYPE then
    let value := if json_is_null value then json_object_new_object else value in
    i ← custType prs;
    ct ← type_pdags ctx !! i;
    out ← rec (tp_pdag ct) str strLen offs true parsed value None;
    Some (mk_try_out (no_r out) offs (size_t_wrap (no_parsedTo out - offs)) (no_json out))
  else
    info ← parser_lookup_table P !! prsid prs;
    let want := negb (streq (name prs) "-") in
    let po := parser info str strLen offs (parser_data prs) parsed want in
    Some (mk_try_out (po_r po) (po_offs po) (po_parsed po)
            (if want then po_value po else value)).

(** The end of a round: did we have a longer parser --> then update
    [*pParsedTo]. *)
Definition watermark_update (st : loop_state) : loop_state :=
  if ls_parsedTo st >? ls_pParsedTo st
  then mk_loop_state (ls_r st) (ls_parsedTo st) (ls_parsed st) (ls_parsedTo st)
         (ls_json st) (ls_endNode st)
  else st.

(** One round of the edge loop of [ln_normalizeRec]. *)
Definition edge_round (rec : normalizeRec_t)
    (str : string) (strLen : size_t) (offs : size_t) (bPartialMatch : bool)
    (prs : ln_parser_t ln_pdag) (st : loop_state) : option loop_state :=
  t ← tryParser_with rec str strLen offs (ls_parsed st) JNull prs;
  st1 ← (if to_r t =? 0 then
           let parsedTo := size_t_wrap (to_offs t + to_parsed t) in
           (* potential hit, need to verify *)
           out ← rec (node prs) str strLen parsedTo bPartialMatch parsedTo
                   (ls_json st) (ls_endNode st);
           if no_r out =? 0 then
             let '(r, js) := fixJSON (to_value t) (no_json out) prs in
             Some (mk_loop_state r (no_parsedTo out) (to_parsed t) (ls_pParsedTo st)
                     js (no_endNode out))
           else
             (* nonmatch, backtracking required; the value is released *)
             Some (mk_loop_state (no_r out) (no_parsedTo out) (to_parsed t) (ls_pParsedTo st)
                     (no_json out) (no_endNode out))
         else
           Some (mk_loop_state (ls_r st) (ls_parsedTo st) (to_parsed t) (ls_pParsedTo st)
                   (ls_json st) (ls_endNode st)));
  Some (watermark_update st1).

(** The edge loop: [for(iprs = 0 ; iprs < dag->nparsers && r != 0 ; ++iprs)]
    over the edges that are still to be tried. *)
Fixpoint edge_loop (rec : normalizeRec_t)
    (str : string) (strLen : size_t) (offs : size_t) (bPartialMatch : bool)
    (prss : list (ln_parser_t ln_pdag)) (st : loop_state) : option loop_state :=
  match prss with
  | [] => Some st
  | prs :: prss' =>
      if ls_r st =? 0 then Some st
      else
        st' ← edge_round rec str strLen offs bPartialMatch prs st;
        edge_loop rec str strLen offs bPartialMatch prss' st'
  end.

(** The body of [ln_normalizeRec]. *)
Definition normalizeRec_body (rec : normalizeRec_t) : normalizeRec_t :=
  fun dag str strLen offs bPartialMatch pParsedTo js endNode =>
    st ← edge_loop rec str strLen offs bPartialMatch (parsers dag)
           (mk_loop_state LN_WRONGPARSER pParsedTo 0 pParsedTo js endNode);
    if isTerminal dag && ((offs =? strLen) || bPartialMatch) then
      Some (mk_norm_out 0 (ls_pParsedTo st) (ls_json st) (Some dag))
    else
      Some (mk_norm_out (ls_r st) (ls_pParsedTo st) (ls_json st) (ls_endNode st)).

(** [ln_normalizeRec], with a budget for the depth of the recursion (through
    child nodes and through user-defined types). *)
Fixpoint ln_normalizeRec (fuel : nat) : normalizeRec_t :=
  match fuel with
  | O => fun _ _ _ _ _ _ _ _ => None
  | S fuel' => normalizeRec_body (ln_normalizeRec fuel')
  end.

(** [tryParser] *)
Definition tryParser (fuel : nat) := tryParser_with (ln_normalizeRec fuel).

(** The success branch of [ln_normalize]: the tags of the end node are added
    to the event and the annotator is run. *)
Definition finalize_event (endNode : ln_pdag) (js : json) : Z * json :=
  if json_is_null (tags endNode) then (0, js)
  else
    let js1 := json_object_object_add js "event.tags" (tags endNode) in
    let '(r, js2) := ln_annotate P js1 (tags endNode) in
    if r =? 0 then (0, js2) else (r, js2).

(** [ln_normalize]: the status and the content of [*json_p]. *)
Definition ln_normalize (fuel : nat) (str : string) (strLen : size_t) (json_p : json)
    : option (Z * json) :=
  let js := if json_is_null json_p then json_object_new_object else json_p in
  out ← ln_normalizeRec fuel (pdag ctx) str strLen 0 false 0 js None;
  if no_r out =? 0 then
    endNode ← no_endNode out;
    if isTerminal endNode then Some (finalize_event endNode (no_json out))
    else
      '(_, js') ← addUnparsedField str strLen (no_parsedTo out) (no_json out);
      Some (no_r out, js')
  else
    '(_, js') ← addUnparsedField str strLen (no_parsedTo out) (no_json out);
    Some (no_r out, js').

End Normalizer.

(** ** A rulebase of literals and user-defined types

    The concrete plug-ins used to run the code on examples. *)

Fixpoint string_prefix (p s : string) : bool :=
  match p, s with
  | EmptyString, _ => true
  | String a p', String b s' => Ascii.eqb a b && string_prefix p' s'
  | String _ _, EmptyString => false
  end.

(** Modelled from the spec: [ln_parseLiteral] is part of parser.c, which is
    not among the sources.  The literal parser matches a fixed byte string at
    the offset; it leaves the offset alone, reports the length of the literal
    and writes a value only on success and only through a non-NULL pointer. *)
Definition ln_parseLiteral : parse_fn :=
  fun str strLen offs data parsed want =>
    let lit := lit_payload data in
    if (0 <=? offs) && (offs <=? strLen)
       && string_prefix lit (string_drop (Z.to_nat offs) (string_take (Z.to_nat strLen) str))
    then mk_parse_out 0 offs (Z.of_nat (String.length lit))
           (if want then JString lit else JNull)
    else mk_parse_out LN_WRONGPARSER offs 0 JNull.

(** Modelled from the spec: [ln_constructLiteral] is part of parser.c; the
    literal edge keeps the literal text it is constructed with as its data. *)
Definition ln_constructLiteral : construct_fn :=
  fun extraData _ => Some (lit_payload extraData).

(** A parser that never matches, for the table entries the examples do not
    use. *)
Definition ln_parseNothing : parse_fn :=
  fun _ _ offs _ parsed _ => mk_parse_out LN_WRONGPARSER offs parsed JNull.

(** Modelled from the spec: [ln_annotate] is part of annot.c; the annotator
    decorates the event with the static metadata configured for its tags.
    Here no annotation is configured: the event is left as it is. *)
Definition ln_annotate_none : json -> json -> Z * json := fun js _ => (0, js).

Definition lit_plugins : ln_plugins :=
  mk_plugins
    (fun id => if streq id "Literal" then ln_constructLiteral else fun _ _ => None)
    (fun id => if streq id "Literal" then ln_parseLiteral else ln_parseNothing)
    ln_annotate_none.

Definition main_root : ln_cursor := mk_cursor None [].

(** The calls that install the samples "a" and "ab" in the main pdag. *)
Definition calls_a_ab : list builder_call :=
  [ Rewind None; AddLiteral "a"; SetTerminal;
    Rewind None; AddLiteral "a"; AddLiteral "b"; SetTerminal ].

(** The calls that install, in a context with the user-defined types T1 and
    T2, the samples "x" of T1, "a" of T2 and the samples "p%u:@T1%" and
    "p%v:@T2%" of the main pdag. *)
Definition calls_two_types : list builder_call :=
  [ Rewind (Some 0%nat); AddLiteral "x"; SetTerminal;
    Rewind (Some 1%nat); AddLiteral "a"; SetTerminal;
    Rewind None; AddLiteral "p"; AddParser "u" PRS_CUSTOM_TYPE (Some 0%nat) None; SetTerminal;
    Rewind None; AddLiteral "p"; AddParser "v" PRS_CUSTOM_TYPE (Some 1%nat) None; SetTerminal ].

(** The calls that install, in a context with the user-defined type T, the
    samples "a", "abX", "abY" and "ac" of T and the sample "%t:@T%bd" of the
    main pdag. *)
Definition calls_partial_type : list builder_call :=
  [ Rewind (Some 0%nat); AddLiteral "a"; SetTerminal;
    Rewind (Some 0%nat); AddLiteral "a"; AddLiteral "b"; AddLiteral "X"; SetTerminal;
    Rewind (Some 0%nat); AddLiteral "a"; AddLiteral "b"; AddLiteral "Y"; SetTerminal;
    Rewind (Some 0%nat); AddLiteral "a"; AddLiteral "c"; SetTerminal;
    Rewind None; AddParser "t" PRS_CUSTOM_TYPE (Some 0%nat) None;
      AddLiteral "b"; AddLiteral "d"; SetTerminal ].

(** The context a list of calls builds from scratch, optimized or not;
    a context without any sample where a call has no defined behaviour. *)
Definition built_ctx (types : list string) (calls : list builder_call) : ln_ctx :=
  match builder_run lit_plugins (ctx_init types, main_root) calls with
  | Some (ctx, _) => ctx
  | None => ctx_init types
  end.

(** ** Vocabulary of the properties *)

(** Two edges that [ln_pdagAddParser] takes for the same: the same parser
    id and name and, for literals, the same first character. *)
Definition edge_equiv {N M : Type} (p : ln_parser_t N) (q : ln_parser_t M) : Prop :=
  prsid p = prsid q /\ name p = name q
  /\ (prsid q = PRS_LITERAL -> data_char0 (parser_data p) = data_char0 (parser_data q)).

(** No two edges of the node are the same in that sense. *)
Definition edges_unique (dag : ln_pdag) : Prop :=
  forall (i j : nat) (p q : ln_parser_t ln_pdag),
    parsers dag !! i = Some p -> parsers dag !! j = Some q -> edge_equiv p q -> i = j.

(** The data pointer of a literal edge is not NULL. *)
Definition literal_has_data {N : Type} (p : ln_parser_t N) : Prop :=
  prsid p = PRS_LITERAL -> parser_data p <> None.

Definition literals_have_data (dag : ln_pdag) : Prop :=
  forall (i : nat) (p : ln_parser_t ln_pdag), parsers dag !! i = Some p -> literal_has_data p.

(** The property [Q] holds of the node and of every node below it. *)
Fixpoint every_node (Q : ln_pdag -> Prop) (dag : ln_pdag) : Prop :=
  Q dag /\ fold_right (fun prs acc => every_node Q (node prs) /\ acc) True (parsers dag).

(** The edges of the node are distinct and its literals carry data. *)
Definition node_ok (dag : ln_pdag) : Prop := edges_unique dag /\ literals_have_data dag.

(** Every node of every component of the context is in that state. *)
Definition ctx_edges_unique (ctx : ln_ctx) : Prop :=
  every_node node_ok (pdag ctx)
  /\ Forall (fun t => every_node node_ok (tp_pdag t)) (type_pdags ctx).

(** The construct hook of the literal parser stores data. *)
Definition literal_constructs (P : ln_plugins) : Prop :=
  forall (extraData : option string) (js : json), ln_construct P "Literal" extraData js <> None.

(** A sequence of [ln_pdagAddParser] calls on one node: the node after each
    call, in the order of the calls. *)
Fixpoint addParser_trace (ctx : ln_ctx) (dag : ln_pdag) (calls : list (ln_parser_t unit))
    : option (list ln_pdag) :=
  match calls with
  | [] => Some []
  | parser :: calls' =>
      out ← ln_pdagAddParser ctx dag parser;
      rest ← addParser_trace (ap_ctx out) (ap_dag out) calls';
      Some (ap_dag out :: rest)
  end.

(** Some edge below the node starts a run of two literals, which the
    optimizer compacts. *)
Fixpoint has_literal_run (dag : ln_pdag) : bool :=
  existsb (fun prs => compactable prs || has_literal_run (node prs)) (parsers dag).

Definition ctx_has_literal_run (ctx : ln_ctx) : bool :=
  has_literal_run (pdag ctx)
  || existsb (fun t => has_literal_run (tp_pdag t)) (type_pdags ctx).

(** The node counter of the context equals the number of its live nodes. *)
Definition nNodes_exact (ctx : ln_ctx) : Prop := nNodes ctx = Z.of_nat (live_nodes ctx).

(** The edge round leaves the loop with a match: the parser of the edge
    succeeded and so did the subtree below the edge. *)
Definition edge_matches (P : ln_plugins) (ctx : ln_ctx) (rec : normalizeRec_t)
    (str : string) (strLen offs : size_t) (bPartialMatch : bool)
    (prs : ln_parser_t ln_pdag) (st : loop_state) : Prop :=
  exists (t : try_out) (out : norm_out),
    tryParser_with P ctx rec str strLen offs (ls_parsed st) JNull prs = Some t
    /\ to_r t = 0
    /\ rec (node prs) str strLen (size_t_wrap (to_offs t + to_parsed t)) bPartialMatch
         (size_t_wrap (to_offs t + to_parsed t)) (ls_json st) (ls_endNode st) = Some out
    /\ no_r out = 0.

(** The edges [tried] have been tried in their order, from the loop state
    [st0] on, and none of them matched: the loop is still running, in state
    [st]. *)
Definition edges_tried (P : ln_plugins) (ctx : ln_ctx) (rec : normalizeRec_t)
    (str : string) (strLen offs : size_t) (bPartialMatch : bool)
    (tried : list (ln_parser_t ln_pdag)) (st0 st : loop_state) : Prop :=
  edge_loop P ctx rec str strLen offs bPartialMatch tried st0 = Some st /\ ls_r st <> 0.

(** The test after the edge loop: the node is terminal and the input is used
    up or a partial match is asked for. *)
Definition terminal_here (dag : ln_pdag) (strLen offs : size_t) (bPartialMatch : bool) : bool :=
  isTerminal dag && ((offs =? strLen) || bPartialMatch).

(** [*endNode] points to a terminal node. *)
Definition ends_at_terminal (endNode : option ln_pdag) : Prop :=
  exists n : ln_pdag, endNode = Some n /\ isTerminal n = true.

(** The annotator reports success. *)
Definition annotator_succeeds (P : ln_plugins) : Prop :=
  forall js tgs : json, fst (ln_annotate P js tgs) = 0.

(** The ids of the edges below the node are ids of the parser table, and the
    user-defined types they refer to are among the first [n] of the
    context. *)
Fixpoint edges_ok (P : ln_plugins) (n : nat) (dag : ln_pdag) : bool :=
  forallb (fun prs =>
             (if Nat.eqb (prsid prs) PRS_CUSTOM_TYPE
              then match custType prs with Some j => Nat.ltb j n | None => false end
              else Nat.ltb (prsid prs) (NPARSERS P))
             && edges_ok P n (node prs))
          (parsers dag).

(** A user-defined type only uses the types defined before it. *)
Definition types_stratified (P : ln_plugins) (ctx : ln_ctx) : Prop :=
  forall (i : nat) (T : ln_type_pdag),
    type_pdags ctx !! i = Some T -> edges_ok P i (tp_pdag T) = true.

(** The nodes of the user-defined types before the [n]-th. *)
Definition types_below (ctx : ln_ctx) (n : nat) : nat :=
  list_sum (map (fun t => pdag_size (tp_pdag t)) (take n (type_pdags ctx))).

(** [rec'] answers whatever [rec] answers. *)
Definition rec_extends (rec rec' : normalizeRec_t) : Prop :=
  forall dag s len o b p j e out,
    rec dag s len o b p j e = Some out -> rec' dag s len o b p j e = Some out.

(** The contract of the field parsers on the offsets: called inside the
    buffer, a parser that succeeds stays inside the buffer. *)
Definition parsers_in_bounds (P : ln_plugins) : Prop :=
  forall (id : prsid_t) (info : ln_parser_info) (str : string) (strLen offs : size_t)
         (d : parser_data_t) (parsed : size_t) (want : bool),
    parser_lookup_table P !! id = Some info ->
    0 <= offs <= strLen ->
    po_r (parser info str strLen offs d parsed want) = 0 ->
    0 <= po_offs (parser info str strLen offs d parsed want)
    /\ 0 <= po_parsed (parser info str strLen offs d parsed want)
    /\ po_offs (parser info str strLen offs d parsed want)
       + po_parsed (parser info str strLen offs d parsed want) <= strLen.

(** The local watermark and [*pParsedTo] are inside the input, and a full
    match has brought [*pParsedTo] to the end of the input. *)
Definition watermark_inside (strLen : size_t) (bPartialMatch : bool) (st : loop_state) : Prop :=
  0 <= ls_pParsedTo st <= strLen
  /\ 0 <= ls_parsedTo st <= strLen
  /\ (bPartialMatch = false -> ls_r st = 0 -> strLen <= ls_pParsedTo st).

(** The input of the normalizer is a buffer of [strLen] bytes. *)
Definition is_buffer (str : string) (strLen : size_t) : Prop :=
  strLen = Z.of_nat (String.length str).

(** ** The contexts and inputs of the examples *)

(** The context without any sample. *)
Definition empty_ctx : ln_ctx := ctx_init [].

(** The three bytes 'a', NUL, 'b'. *)
Definition str_a_nul_b : string := String "a" (String NUL (String "b" EmptyString)).

(** The calls that install the sample "%f:literal:a%b": a literal with a
    field name, followed by a literal. *)
Definition calls_named_literal : list builder_call :=
  [ Rewind None; AddParser "f" PRS_LITERAL None (Some "a"); AddLiteral "b"; SetTerminal ].

(** The calls of [calls_two_types] without the sample "p%u:@T1%". *)
Definition calls_second_type_only : list builder_call :=
  [ Rewind (Some 0%nat); AddLiteral "x"; SetTerminal;
    Rewind (Some 1%nat); AddLiteral "a"; SetTerminal;
    Rewind None; AddLiteral "p"; AddParser "v" PRS_CUSTOM_TYPE (Some 1%nat) None; SetTerminal ].

(** The calls that install the samples "a" and "%f:literal:b%": the root
    has two edges, the second with a field name. *)
Definition calls_a_or_b : list builder_call :=
  [ Rewind None; AddLiteral "a"; SetTerminal;
    Rewind None; AddParser "f" PRS_LITERAL None (Some "b"); SetTerminal ].

(** The contexts of the examples. *)
Definition ctx_a_ab : ln_ctx := built_ctx [] calls_a_ab.
Definition ctx_a_or_b : ln_ctx := built_ctx [] calls_a_or_b.
Definition ctx_named_literal : ln_ctx := built_ctx [] calls_named_literal.
Definition ctx_two_types : ln_ctx := built_ctx ["T1"; "T2"] calls_two_types.
Definition ctx_second_type_only : ln_ctx := built_ctx ["T1"; "T2"] calls_second_type_only.
Definition ctx_partial_type : ln_ctx := built_ctx ["T"] calls_partial_type.

(** A literal edge with the field name "-" and a leaf below it. *)
Definition literal_edge (lit : string) (child : ln_pdag) : ln_parser_t ln_pdag :=
  mk_parser child 0 "-" PRS_LITERAL None (Some lit).

Definition terminal_leaf : ln_pdag := mk_pdag [] true JNull.

(** The edge [ln_newLiteralParser] returns for a character, with the
    plug-ins of the examples. *)
Definition new_literal (lit : string) : ln_parser_t unit :=
  mk_parser tt 0 "-" PRS_LITERAL None (Some lit).

(** The pdag of the type T of [ctx_partial_type]: the node behind the
    literal a, and the root. *)
Definition partial_type_behind_a : ln_pdag :=
  mk_pdag
    [ literal_edge "b"
        (mk_pdag [literal_edge "X" terminal_leaf; literal_edge "Y" terminal_leaf] false JNull);
      literal_edge "c" terminal_leaf ]
    true JNull.

Definition partial_type_root : ln_pdag :=
  mk_pdag [literal_edge "a" partial_type_behind_a] false JNull.

(** The edge of the main pdag of [ctx_partial_type], once optimized. *)
Definition partial_type_edge : ln_parser_t ln_pdag :=
  mk_parser (mk_pdag [literal_edge "bd" terminal_leaf] false JNull)
    0 "t" PRS_CUSTOM_TYPE (Some 0%nat) None.

Definition ctx_partial_type_optimized : ln_ctx :=
  mk_ctx (mk_pdag [partial_type_edge] false JNull) [mk_type_pdag "T" partial_type_root]
    10 false.

(** * The rest of pdag.c: definitions *)

From Stdlib Require Import DecimalString.
(** ** Statistics

    [struct pdag_stats] and the statistics gatherer.  The counters are
    [int]s: an addition that leaves the range of [int] has no defined
    behaviour.  [nparsers_cnt] is an array of 100 counters, [prs_cnt] points
    to an array of [NPARSERS] counters. *)

Definition INT_MAX : Z := 2 ^ 31 - 1.
Definition INT_MIN : Z := - 2 ^ 31.

(** [a + b] on [int]. *)
Definition int_add (a b : Z) : option Z :=
  if (INT_MIN <=? a + b) && (a + b <=? INT_MAX) then Some (a + b) else None.

(** [a[i]++] on an array of [int]: the index is inside the array. *)
Definition int_array_incr (a : list Z) (i : nat) : option (list Z) :=
  x ← a !! i;
  y ← int_add x 1;
  Some (<[i := y]> a).

Record pdag_stats : Type := mk_pdag_stats {
  st_nodes : Z;
  st_term_nodes : Z;
  st_parsers : Z;
  st_max_nparsers : Z;
  st_nparsers_cnt : list Z;
  st_nparsers_100plus : Z;
  st_prs_cnt : list Z }.

Section Stats.

Context (rec : ln_pdag -> pdag_stats -> option (Z * pdag_stats)).

(** The loop of [ln_pdagStatsRec] over the edges of a node: [max_path] and
    the statistics after the edges [prss]. *)
Fixpoint stats_edges (prss : list (ln_parser_t ln_pdag)) (max_path : Z) (stats : pdag_stats)
    : option (Z * pdag_stats) :=
  match prss with
  | [] => Some (max_path, stats)
  | prs :: prss' =>
      prs_cnt ← int_array_incr (st_prs_cnt stats) (prsid prs);
      '(path_len, stats') ←
        rec (node prs)
          (mk_pdag_stats (st_nodes stats) (st_term_nodes stats) (st_parsers stats)
             (st_max_nparsers stats) (st_nparsers_cnt stats) (st_nparsers_100plus stats)
             prs_cnt);
      stats_edges prss' (if path_len >? max_path then path_len else max_path) stats'
  end.

End Stats.

(** [ln_pdagStatsRec]: the length of the longest path and the statistics. *)
Fixpoint ln_pdagStatsRec (dag : ln_pdag) (stats : pdag_stats) : option (Z * pdag_stats) :=
  let n := Z.of_nat (nparsers dag) in
  nodes ← int_add (st_nodes stats) 1;
  term_nodes ← (if isTerminal dag then int_add (st_term_nodes stats) 1
                else Some (st_term_nodes stats));
  let max_nparsers := if n >? st_max_nparsers stats then n else st_max_nparsers stats in
  '(nparsers_cnt, nparsers_100plus) ←
    (if n >=? 100 then
       c ← int_add (st_nparsers_100plus stats) 1; Some (st_nparsers_cnt stats, c)
     else
       a ← int_array_incr (st_nparsers_cnt stats) (nparsers dag);
       Some (a, st_nparsers_100plus stats));
  parsers_total ← int_add (st_parsers stats) n;
  '(max_path, stats') ←
    stats_edges ln_pdagStatsRec (parsers dag) 0
      (mk_pdag_stats nodes term_nodes parsers_total max_nparsers nparsers_cnt nparsers_100plus
         (st_prs_cnt stats));
  r ← int_add max_path 1;
  Some (r, stats').

(** *** The report

    The output sent to the file pointer is the text of the [fprintf] calls,
    in their order. *)

Definition NL : string := String "010"%char EmptyString.
Definition TAB : string := String "009"%char EmptyString.

Fixpoint spaces (n : nat) : string :=
  match n with
  | O => EmptyString
  | S n' => String " "%char (spaces n')
  end.

(** A conversion with a minimum field width: padded with spaces on the
    left. *)
Definition pad_left (width : nat) (s : string) : string :=
  spaces (width - String.length s) +:+ s.

(** [%d], [%4d] and [%20s] *)
Definition fmt_d (z : Z) : string := NilZero.string_of_int (Z.to_int z).
Definition fmt_4d (z : Z) : string := pad_left 4 (fmt_d z).
Definition fmt_20s (s : string) : string := pad_left 20 s.

(** The zeroed statistics [ln_pdagStats] allocates. *)
Definition stats_calloc (P : ln_plugins) : pdag_stats :=
  mk_pdag_stats 0 0 0 0 (replicate 100 0) 0 (replicate (NPARSERS P) 0).

(** The loop over the parser ids [i .. NPARSERS-1]: a line for every id
    that has been counted. *)
Fixpoint stats_type_counts (P : ln_plugins) (prs_cnt : list Z) (ids : list nat)
    : option string :=
  match ids with
  | [] => Some EmptyString
  | i :: ids' =>
      c ← prs_cnt !! i;
      line ← (if c =? 0 then Some EmptyString
              else nm ← parserName P i;
                   Some (TAB +:+ fmt_20s nm +:+ ": " +:+ fmt_d c +:+ NL));
      rest ← stats_type_counts P prs_cnt ids';
      Some (line +:+ rest)
  end.

(** The loop over the 100 counters of edges per node; [pp] is summed up and
    not used. *)
Fixpoint stats_per_node (nparsers_cnt : list Z) (ids : list nat) (pp : Z) : option string :=
  match ids with
  | [] => Some EmptyString
  | i :: ids' =>
      c ← nparsers_cnt !! i;
      pp' ← int_add pp c;
      rest ← stats_per_node nparsers_cnt ids' pp';
      Some ((if c =? 0 then EmptyString
             else TAB +:+ fmt_d (Z.of_nat i) +:+ ":" +:+ TAB +:+ fmt_4d c +:+ NL) +:+ rest)
  end.

(** [ln_pdagStats]: the text written to [fp]. *)
Definition ln_pdagStats (P : ln_plugins) (dag : ln_pdag) : option string :=
  '(longest_path, stats) ← ln_pdagStatsRec dag (stats_calloc P);
  types ← stats_type_counts P (st_prs_cnt stats) (seq 0 (NPARSERS P));
  per_node ← stats_per_node (st_nparsers_cnt stats) (seq 0 100) 0;
  Some ("nodes.............: " +:+ fmt_4d (st_nodes stats) +:+ NL
        +:+ "terminal nodes....: " +:+ fmt_4d (st_term_nodes stats) +:+ NL
        +:+ "parsers entries...: " +:+ fmt_4d (st_parsers stats) +:+ NL
        +:+ "longest path......: " +:+ fmt_4d longest_path +:+ NL
        +:+ "Parser Type Counts:" +:+ NL
        +:+ types
        +:+ "Parsers per Node:" +:+ NL
        +:+ TAB +:+ "max:" +:+ TAB +:+ fmt_4d (st_max_nparsers stats) +:+ NL
        +:+ per_node).

(** The two loops of [ln_fullPdagStats] over the user-defined types. *)
Fixpoint stats_type_names (types : list ln_type_pdag) : string :=
  match types with
  | [] => EmptyString
  | t :: types' => "type: " +:+ tp_name t +:+ NL +:+ stats_type_names types'
  end.

Fixpoint stats_type_pdags (P : ln_plugins) (types : list ln_type_pdag) : option string :=
  match types with
  | [] => Some EmptyString
  | t :: types' =>
      s ← ln_pdagStats P (tp_pdag t);
      rest ← stats_type_pdags P types';
      Some (NL +:+ "type PDAG: " +:+ tp_name t +:+ NL +:+ "----------" +:+ NL +:+ s +:+ rest)
  end.

(** [ln_fullPdagStats]: the text written to [fp]. *)
Definition ln_fullPdagStats (P : ln_plugins) (ctx : ln_ctx) : option string :=
  types ← stats_type_pdags P (type_pdags ctx);
  main ← ln_pdagStats P (pdag ctx);
  Some ("User-Defined Types" +:+ NL +:+ "==================" +:+ NL
        +:+ "number types: " +:+ fmt_d (Z.of_nat (nTypes ctx)) +:+ NL
        +:+ stats_type_names (type_pdags ctx)
        +:+ types
        +:+ NL +:+ "Main PDAG" +:+ NL +:+ "=========" +:+ NL
        +:+ main).

(** *** What a walk counts *)

(** The longest path below a node, in nodes. *)
Fixpoint pdag_height (dag : ln_pdag) : nat :=
  S (list_max (map (fun prs => pdag_height (node prs)) (parsers dag))).

(** The nodes below (and with) a node that satisfy [f], and the edges
    below a node that satisfy [f]. *)
Fixpoint count_nodes (f : ln_pdag -> bool) (dag : ln_pdag) : nat :=
  ((if f dag then 1 else 0)
   + list_sum (map (fun prs => count_nodes f (node prs)) (parsers dag)))%nat.

Fixpoint count_edges (f : ln_parser_t ln_pdag -> bool) (dag : ln_pdag) : nat :=
  list_sum (map (fun prs => ((if f prs then 1 else 0) + count_edges f (node prs))%nat)
                (parsers dag)).

(** The largest number of edges of a node below (or of) a node. *)
Fixpoint max_nparsers (dag : ln_pdag) : nat :=
  Nat.max (nparsers dag) (list_max (map (fun prs => max_nparsers (node prs)) (parsers dag))).

(** Every parser id below the node is smaller than [n]. *)
Fixpoint ids_below (n : nat) (dag : ln_pdag) : bool :=
  forallb (fun prs => Nat.ltb (prsid prs) n && ids_below n (node prs)) (parsers dag).

(** Some edge below the node refers to a user-defined type. *)
Fixpoint has_custom_type_edge (dag : ln_pdag) : bool :=
  existsb (fun prs => Nat.eqb (prsid prs) PRS_CUSTOM_TYPE || has_custom_type_edge (node prs))
          (parsers dag).

(** The counters of the statistics, and what the visit of a node, the round
    of an edge and the walk of a tree add to each. *)
Inductive stat_counter : Type :=
  | CNodes
  | CTermNodes
  | CParsers
  | C100plus
  | CNparsers (k : nat)
  | CPrs (id : nat).

Definition stats_get (s : pdag_stats) (c : stat_counter) : option Z :=
  match c with
  | CNodes => Some (st_nodes s)
  | CTermNodes => Some (st_term_nodes s)
  | CParsers => Some (st_parsers s)
  | C100plus => Some (st_nparsers_100plus s)
  | CNparsers k => st_nparsers_cnt s !! k
  | CPrs id => st_prs_cnt s !! id
  end.

Definition node_count (dag : ln_pdag) (c : stat_counter) : nat :=
  match c with
  | CNodes => 1
  | CTermNodes => if isTerminal dag then 1 else 0
  | CParsers => nparsers dag
  | C100plus => if Nat.leb 100 (nparsers dag) then 1 else 0
  | CNparsers k => if Nat.eqb (nparsers dag) k && Nat.ltb k 100 then 1 else 0
  | CPrs _ => 0
  end.

Definition edge_count (prs : ln_parser_t ln_pdag) (c : stat_counter) : nat :=
  match c with
  | CPrs id => if Nat.eqb (prsid prs) id then 1 else 0
  | _ => 0
  end.

Fixpoint tree_count (dag : ln_pdag) (c : stat_counter) : nat :=
  (node_count dag c
   + list_sum (map (fun prs => (edge_count prs c + tree_count (node prs) c)%nat) (parsers dag)))%nat.

Definition forest_count (prss : list (ln_parser_t ln_pdag)) (c : stat_counter) : nat :=
  list_sum (map (fun prs => (edge_count prs c + tree_count (node prs) c)%nat) prss).

(** Every counter of [s] has room for [room] more. *)
Definition stats_room (s : pdag_stats) (room : stat_counter -> nat) : Prop :=
  forall (c : stat_counter) (x : Z),
    stats_get s c = Some x -> 0 <= x /\ x + Z.of_nat (room c) <= INT_MAX.

(** [s'] is [s] with [added] added to every counter. *)
Definition stats_added (s s' : pdag_stats) (added : stat_counter -> nat) : Prop :=
  (forall (c : stat_counter) (x : Z),
      stats_get s c = Some x -> stats_get s' c = Some (x + Z.of_nat (added c)))
  /\ length (st_nparsers_cnt s') = length (st_nparsers_cnt s)
  /\ length (st_prs_cnt s') = length (st_prs_cnt s).

(** What the callee of the edge loop has to deliver for a child. *)
Definition stats_rec_ok (rec : ln_pdag -> pdag_stats -> option (Z * pdag_stats))
    (dag : ln_pdag) : Prop :=
  forall s : pdag_stats,
    (100 <= length (st_nparsers_cnt s))%nat ->
    ids_below (length (st_prs_cnt s)) dag = true ->
    stats_room s (tree_count dag) ->
    exists s' : pdag_stats,
      rec dag s = Some (Z.of_nat (pdag_height dag), s')
      /\ stats_added s s' (tree_count dag)
      /\ st_max_nparsers s' = Z.max (st_max_nparsers s) (Z.of_nat (max_nparsers dag)).

(** ** Destruction, call by call

    What the destructors release, in the order of the calls: names, parser
    data (through the destruct hook of the parser table), tags and nodes.
    [pdagDeletePrs] calls the hook of the table entry of the edge whenever
    the data pointer is not NULL; the call has no defined behaviour when the
    id is not an index of the table or the entry has no destruct hook. *)

Inductive release : Type :=
  | FreeName (nm : string)
  | CallDestruct (id : prsid_t) (d : string)
  | PutTags (tgs : json)
  | FreeNode.

Section Delete.

Context (P : ln_plugins) (rec : ln_pdag -> option (list release)).

(** [pdagDeletePrs] *)
Definition pdagDeletePrs_calls (prs : ln_parser_t (option ln_pdag)) : option (list release) :=
  below ← match node prs with
          | Some child => rec child
          | None => Some []
          end;
  data ← match parser_data prs with
         | Some d =>
             info ← parser_lookup_table P !! prsid prs;
             if destruct_hook info then Some [CallDestruct (prsid prs) d] else None
         | None => Some []
         end;
  Some (below ++ FreeName (name prs) :: data)%list.

(** The loop of [ln_pdagDelete] over the edges of a node of the tree. *)
Fixpoint delete_edges (prss : list (ln_parser_t ln_pdag)) : option (list release) :=
  match prss with
  | [] => Some []
  | prs :: prss' =>
      a ← pdagDeletePrs_calls (set_node prs (Some (node prs)));
      b ← delete_edges prss';
      Some (a ++ b)%list
  end.

End Delete.

(** [ln_pdagDelete] on a node of the tree. *)
Fixpoint ln_pdagDelete_calls (P : ln_plugins) (dag : ln_pdag) : option (list release) :=
  edges ← delete_edges P (ln_pdagDelete_calls P) (parsers dag);
  Some ((if json_is_null (tags dag) then [] else [PutTags (tags dag)]) ++ edges ++ [FreeNode])%list.

(** The destructor of a context releases the components. *)
Definition is_FreeNode (c : release) : bool :=
  match c with FreeNode => true | _ => false end.

Definition is_FreeName (c : release) : bool :=
  match c with FreeName _ => true | _ => false end.

Definition is_CallDestruct (c : release) : bool :=
  match c with CallDestruct _ _ => true | _ => false end.

(** The names, the parser data (with the parser id whose destruct hook is
    called) and the tags that a sequence of calls releases, in the order of
    the calls. *)
Definition released_names (tr : list release) : list string :=
  omap (fun c => match c with FreeName nm => Some nm | _ => None end) tr.

Definition released_data (tr : list release) : list (prsid_t * string) :=
  omap (fun c => match c with CallDestruct id d => Some (id, d) | _ => None end) tr.

Definition released_tags (tr : list release) : list json :=
  omap (fun c => match c with PutTags tgs => Some tgs | _ => None end) tr.

(** The edges below a node, each without its child: the edges below an edge
    come before the edge, the edges of a node in their order. *)
Fixpoint pdag_edges (dag : ln_pdag) : list (ln_parser_t unit) :=
  flat_map (fun prs => pdag_edges (node prs) ++ [set_node prs tt])%list (parsers dag).

(** The data of an edge that has data, with the parser id of the edge. *)
Definition edge_data (prs : ln_parser_t unit) : option (prsid_t * string) :=
  d ← parser_data prs; Some (prsid prs, d).

(** The tags of the nodes below (and of) a node that have tags: the tags of
    a node come before the tags below it. *)
Fixpoint pdag_tags (dag : ln_pdag) : list json :=
  ((if json_is_null (tags dag) then [] else [tags dag])
   ++ flat_map (fun prs => pdag_tags (node prs)) (parsers dag))%list.

(** The edge has no data, or its parser has a destruct hook. *)
Definition data_destructible (P : ln_plugins) (prs : ln_parser_t unit) : Prop :=
  parser_data prs <> None ->
  exists info : ln_parser_info,
    parser_lookup_table P !! prsid prs = Some info /\ destruct_hook info = true.

(** Every edge below the node satisfies [Q]; [Q] sees the edge without its
    child. *)
Definition edges_all (Q : ln_parser_t unit -> Prop) (dag : ln_pdag) : Prop :=
  every_node (fun d => forall prs, In prs (parsers d) -> Q (set_node prs tt)) dag.

Definition ctx_edges_all (Q : ln_parser_t unit -> Prop) (ctx : ln_ctx) : Prop :=
  edges_all Q (pdag ctx) /\ Forall (fun t => edges_all Q (tp_pdag t)) (type_pdags ctx).

(** The edge a builder call hands to [ln_pdagAddParser]. *)
Definition call_edge (P : ln_plugins) (call : builder_call) : option (ln_parser_t unit) :=
  match call with
  | AddLiteral lit => ln_newLiteralParser P lit
  | AddParser nm id ct extraData => ln_newParser P nm id ct extraData JNull
  | SetTerminal => None
  | Rewind _ => None
  end.

(** The components of a context. *)
Definition ctx_components (ctx : ln_ctx) : list ln_pdag :=
  pdag ctx :: map tp_pdag (type_pdags ctx).

(** ** What a path through a pdag spells

    A path from a node to a leaf, as the sequence of its field parsers and
    of the literal text between them: literal edges in a row contribute one
    piece of text. *)

Inductive segment : Type :=
  | SegLit (text : string)
  | SegField (nm : string) (id : prsid_t) (ct : option nat) (d : parser_data_t).

Definition seg_cons {N : Type} (prs : ln_parser_t N) (path : list segment) : list segment :=
  if Nat.eqb (prsid prs) PRS_LITERAL then
    match path with
    | SegLit text :: rest => SegLit (lit_payload (parser_data prs) +:+ text) :: rest
    | _ => SegLit (lit_payload (parser_data prs)) :: path
    end
  else SegField (name prs) (prsid prs) (custType prs) (parser_data prs) :: path.

Fixpoint pdag_paths (dag : ln_pdag) : list (list segment) :=
  match parsers dag with
  | [] => [[]]
  | prss => flat_map (fun prs => map (seg_cons prs) (pdag_paths (node prs))) prss
  end.

(** ** Samples of literal text

    A rulebase loader installs the literal text of a sample character by
    character ([ln_newLiteralParser], [ln_pdagAddParser]) from the root of
    the main pdag and marks the node it ends at as terminal. *)

Fixpoint sample_literals (sample : string) : list builder_call :=
  match sample with
  | EmptyString => []
  | String c sample' => AddLiteral c :: sample_literals sample'
  end.

Definition sample_calls (sample : string) : list builder_call :=
  Rewind None :: (sample_literals sample ++ [SetTerminal])%list.

(** The contract of the hooks of the literal parser (parser.c): the construct
    hook keeps the text it is given as the data of the edge; the parser
    succeeds where the text of the edge stands at the offset, leaves the
    offset alone and reports the length of the text. *)
Definition literal_construct_ok (P : ln_plugins) : Prop :=
  forall (text : string) (js : json), ln_construct P "Literal" (Some text) js = Some text.

Definition literal_parser_ok (P : ln_plugins) : Prop :=
  forall (str : string) (strLen offs : size_t) (text : string) (parsed : size_t) (want : bool),
    is_buffer str strLen -> 0 <= offs <= strLen ->
    string_prefix text (string_drop (Z.to_nat offs) str) = true ->
    po_r (ln_parse P "Literal" str strLen offs (Some text) parsed want) = 0
    /\ po_offs (ln_parse P "Literal" str strLen offs (Some text) parsed want) = offs
    /\ po_parsed (ln_parse P "Literal" str strLen offs (Some text) parsed want)
       = Z.of_nat (String.length text).

(** The calls of a loader that installs literal text character by character
    and uses [ln_newParser] for the other built-in parsers only. *)
Definition loader_call (call : builder_call) : Prop :=
  match call with
  | AddParser _ id _ _ => id <> PRS_LITERAL /\ id <> PRS_CUSTOM_TYPE
  | _ => True
  end.

(** The edges such a loader creates: the id is an id of the parser table,
    and a literal carries at most one character. *)
Definition loader_edge (P : ln_plugins) (prs : ln_parser_t unit) : Prop :=
  (prsid prs < NPARSERS P)%nat
  /\ (prsid prs = PRS_LITERAL ->
      exists text : string, parser_data prs = Some text /\ (String.length text <= 1)%nat).

(** The node accepts the text: a path of one-character literal edges spells
    it and ends at a terminal node. *)
Fixpoint lit_accepts (text : string) (dag : ln_pdag) : Prop :=
  match text with
  | EmptyString => isTerminal dag = true
  | String c text' =>
      exists prs : ln_parser_t ln_pdag,
        In prs (parsers dag) /\ prsid prs = PRS_LITERAL
        /\ parser_data prs = Some (String c EmptyString) /\ lit_accepts text' (node prs)
  end.

(** The path of edge indices leads from the node along one-character
    literal edges that spell the text. *)
Fixpoint lit_path (path : list nat) (text : string) (dag : ln_pdag) : Prop :=
  match path, text with
  | [], EmptyString => True
  | i :: path', String c text' =>
      exists prs : ln_parser_t ln_pdag,
        parsers dag !! i = Some prs /\ prsid prs = PRS_LITERAL
        /\ parser_data prs = Some (String c EmptyString) /\ lit_path path' text' (node prs)
  | _, _ => False
  end.

(** ** More contexts of the examples *)

(** The samples "ab", "a" and "ac", installed in this order. *)
Definition calls_ab_a_ac : list builder_call :=
  (sample_calls "ab" ++ sample_calls "a" ++ sample_calls "ac")%list.

Definition ctx_ab_a_ac : ln_ctx := built_ctx [] calls_ab_a_ac.

(** A user-defined type T whose only sample starts with a field of the type
    T itself, and a main pdag whose only sample starts with a field of that
    type. *)
Definition calls_left_recursive : list builder_call :=
  [ Rewind (Some 0%nat); AddParser "t" PRS_CUSTOM_TYPE (Some 0%nat) None; SetTerminal;
    Rewind None; AddParser "f" PRS_CUSTOM_TYPE (Some 0%nat) None; SetTerminal ].

Definition ctx_left_recursive : ln_ctx := built_ctx ["T"] calls_left_recursive.

(** The edge of the type T of [ctx_left_recursive], and the edge of its main
    pdag. *)
Definition left_recursive_edge (nm : string) : ln_parser_t ln_pdag :=
  mk_parser (mk_pdag [] true JNull) 0 nm PRS_CUSTOM_TYPE (Some 0%nat) None.

(** The result of the walk of [ctx_named_literal] on the input "ab": the
    field f holds the text of the literal a. *)
Definition named_literal_out : norm_out :=
  mk_norm_out 0 2 (JObject {[ "f" := JString "a" ]}) (Some terminal_leaf).

(** ** The DOT export

    The text [ln_genDotPDAGGraph] appends to the string object.  The string
    functions of libestr append their argument to the string.  A node is
    named by the text [%p] gives for its address: the text is a parameter,
    and a node is identified by the path of edge indices that leads to it
    from the root of the export.  The debug output is not part of the
    text. *)

Definition DQUOTE : ascii := "034"%char.
Definition BACKSLASH : ascii := "092"%char.
Definition dq : string := String DQUOTE EmptyString.

(** [isLeaf] *)
Definition isLeaf (dag : ln_pdag) : Z := if Nat.eqb (nparsers dag) 0 then 1 else 0.

(** The loop over the bytes of the literal: backslashes and double quotes
    are left out. *)
Fixpoint dot_literal (data : string) : string :=
  match data with
  | EmptyString => EmptyString
  | String c data' =>
      if Ascii.eqb c NUL then EmptyString
      else if negb (Ascii.eqb c BACKSLASH) && negb (Ascii.eqb c DQUOTE)
           then String c (dot_literal data')
           else dot_literal data'
  end.

Section Dot.

Context (P : ln_plugins) (ptr : list nat -> string).

(** [dotAddPtr]: [snprintf] writes at most 63 bytes and a NUL into the
    buffer of 64 bytes and returns the length of the whole text; that many
    bytes of the buffer are added to the string. *)
Definition dotAddPtr (str : string) (p : list nat) : option string :=
  let text := "l" +:+ ptr p in
  let i := String.length text in
  if Nat.ltb i 64 then Some (str +:+ text)
  else if Nat.eqb i 64 then Some (str +:+ string_take 63 text +:+ String NUL EmptyString)
  else None.

Section DotEdges.

Context (rec : ln_pdag -> list nat -> string -> option string).

(** The loop of [ln_genDotPDAGGraphRec] over the edges of the node at
    [path], from the edge with index [i] on. *)
Fixpoint dot_edges (path : list nat) (prss : list (ln_parser_t ln_pdag)) (i : nat)
    (str : string) : option string :=
  match prss with
  | [] => Some str
  | prs :: prss' =>
      s1 ← dotAddPtr str path;
      s2 ← dotAddPtr (s1 +:+ " -> ") (path ++ [i])%list;
      nm ← parserName P (prsid prs);
      let s3 := s2 +:+ " [label=" +:+ dq +:+ nm +:+ ":" in
      s4 ← (if Nat.eqb (prsid prs) PRS_LITERAL
            then data ← parser_data prs; Some (s3 +:+ dot_literal data)
            else Some s3);
      s5 ← rec (node prs) (path ++ [i])%list
             (s4 +:+ dq +:+ " style=" +:+ dq +:+ "dotted" +:+ dq +:+ "]" +:+ NL);
      dot_edges path prss' (S i) s5
  end.

End DotEdges.

(** [ln_genDotPDAGGraphRec] on the node at [path]. *)
Fixpoint ln_genDotPDAGGraphRec (dag : ln_pdag) (path : list nat) (str : string)
    : option string :=
  s1 ← dotAddPtr str path;
  let s2 := s1 +:+ " [ label=" +:+ dq +:+ "n" +:+ dq in
  let s3 := if isLeaf dag =? 0 then s2 else s2 +:+ " style=" +:+ dq +:+ "bold" +:+ dq in
  dot_edges ln_genDotPDAGGraphRec path (parsers dag) 0 (s3 +:+ "]" +:+ NL).

(** [ln_genDotPDAGGraph] *)
Definition ln_genDotPDAGGraph (dag : ln_pdag) (str : string) : option string :=
  s ← ln_genDotPDAGGraphRec dag [] (str +:+ "digraph pdag {" +:+ NL);
  Some (s +:+ "}" +:+ NL).

End Dot.

(** The occurrences of a character in a text. *)
Fixpoint count_char (c : ascii) (s : string) : nat :=
  match s with
  | EmptyString => 0
  | String a s' => ((if Ascii.eqb a c then 1 else 0) + count_char c s')%nat
  end.

(** The text [%p] gives for an address is short enough for the buffer of
    [dotAddPtr] and contains neither a double quote nor a backslash. *)
Definition ptr_text_ok (ptr : list nat -> string) : Prop :=
  forall p : list nat,
    (String.length (ptr p) < 63)%nat
    /\ count_char DQUOTE (ptr p) = 0%nat /\ count_char BACKSLASH (ptr p) = 0%nat.

(** The parser ids below the node are ids of the parser table or
    [PRS_CUSTOM_TYPE], and the literal edges carry data. *)
Fixpoint dot_ready (P : ln_plugins) (dag : ln_pdag) : bool :=
  forallb (fun prs =>
             (Nat.eqb (prsid prs) PRS_CUSTOM_TYPE || Nat.ltb (prsid prs) (NPARSERS P))
             && (negb (Nat.eqb (prsid prs) PRS_LITERAL)
                 || match parser_data prs with Some _ => true | None => false end)
             && dot_ready P (node prs))
          (parsers dag).

(** What the export needs of an edge: a parser id of the parser table or
    [PRS_CUSTOM_TYPE], and data where the edge is a literal. *)
Definition dot_edge_ok (P : ln_plugins) (prs : ln_parser_t unit) : Prop :=
  (prsid prs = PRS_CUSTOM_TYPE \/ (prsid prs < NPARSERS P)%nat) /\ literal_has_data prs.

(** A text for every address, for examples. *)
Definition ptr_example (p : list nat) : string := "0x55d0c0de".

(** A sample whose literal text has a double quote and a backslash. *)
Definition calls_quoted : list builder_call :=
  sample_calls ("a" +:+ dq +:+ String BACKSLASH "b").

Definition ctx_quoted : ln_ctx := built_ctx [] calls_quoted.

(** * Properties *)

(** ** Sizes *)

Lemma pdag_size_unfold (dag : ln_pdag) :
  pdag_size dag = S (list_sum (map (fun prs => pdag_size (node prs)) (parsers dag))).
Proof. destruct dag; reflexivity. Qed.

Lemma pdag_size_pos (dag : ln_pdag) : (1 <= pdag_size dag)%nat.
Proof. rewrite pdag_size_unfold. lia. Qed.

Lemma list_sum_map_le {A : Type} (f g : A -> nat) (l : list A) :
  (forall x, In x l -> (f x <= g x)%nat) ->
  (list_sum (map f l) <= list_sum (map g l))%nat.
Proof.
  induction l as [|a l IH]; simpl; intros H; [lia|].
  specialize (H a (or_introl eq_refl)) as Ha.
  assert (list_sum (map f l) <= list_sum (map g l))%nat by (apply IH; auto).
  lia.
Qed.

Lemma list_sum_map_lt {A : Type} (f g : A -> nat) (l : list A) (a : A) :
  (forall x, In x l -> (f x <= g x)%nat) ->
  In a l -> (f a < g a)%nat ->
  (list_sum (map f l) < list_sum (map g l))%nat.
Proof.
  induction l as [|b l IH]; simpl; intros H Hin Hlt; [contradiction|].
  assert (Hb : (f b <= g b)%nat) by (apply H; auto).
  assert (Hl : (list_sum (map f l) <= list_sum (map g l))%nat)
    by (apply list_sum_map_le; auto).
  destruct Hin as [->|Hin].
  - lia.
  - assert (list_sum (map f l) < list_sum (map g l))%nat by (apply IH; auto).
    lia.
Qed.

Lemma list_sum_map_In {A : Type} (f : A -> nat) (l : list A) (a : A) :
  In a l -> (f a <= list_sum (map f l))%nat.
Proof.
  induction l as [|b l IH]; simpl; intros Hin; [contradiction|].
  destruct Hin as [->|Hin]; [lia|]. specialize (IH Hin). lia.
Qed.

Lemma pdag_size_child (dag : ln_pdag) (prs : ln_parser_t ln_pdag) :
  In prs (parsers dag) -> (pdag_size (node prs) < pdag_size dag)%nat.
Proof.
  intros Hin. rewrite (pdag_size_unfold dag).
  pose proof (list_sum_map_In (fun p => pdag_size (node p)) _ _ Hin). simpl in *. lia.
Qed.

(** Induction on the size of the tree: the children of a node are smaller. *)
Lemma pdag_size_ind (Q : ln_pdag -> Prop) :
  (forall dag, (forall prs, In prs (parsers dag) -> Q (node prs)) ->
               (forall d', (pdag_size d' < pdag_size dag)%nat -> Q d') -> Q dag) ->
  forall dag, Q dag.
Proof.
  intros step dag.
  remember (pdag_size dag) as n eqn:Hn.
  revert dag Hn. induction n as [n IH] using lt_wf_ind. intros dag ->.
  apply step.
  - intros prs Hin. apply (IH (pdag_size (node prs))); [|reflexivity].
    apply pdag_size_child; assumption.
  - intros d' Hlt. apply (IH (pdag_size d')); [assumption|reflexivity].
Qed.

(** ** The literal path compaction *)

Lemma compactable_inv (prs : ln_parser_t ln_pdag) :
  compactable prs = true ->
  prsid prs = PRS_LITERAL
  /\ exists child_prs, parsers (node prs) = [child_prs] /\ prsid child_prs = PRS_LITERAL.
Proof.
  unfold compactable. intros H. apply andb_true_iff in H as [H1 H2].
  apply Nat.eqb_eq in H1. split; [assumption|].
  destruct (parsers (node prs)) as [|c [|c' l]]; try discriminate.
  exists c. split; [reflexivity|]. apply Nat.eqb_eq. assumption.
Qed.

Lemma compact_step_compactable (prs : ln_parser_t ln_pdag) (child_prs : ln_parser_t ln_pdag) :
  parsers (node prs) = [child_prs] ->
  compact_step prs =
    (0, set_node (set_parser_data prs
                    (Some (lit_payload (parser_data prs) +:+ lit_payload (parser_data child_prs))))
          (node child_prs)).
Proof. intros H. unfold compact_step. rewrite H. reflexivity. Qed.

Lemma compact_step_size (prs : ln_parser_t ln_pdag) :
  compactable prs = true ->
  fst (compact_step prs) = 0
  /\ S (pdag_size (node (snd (compact_step prs)))) = pdag_size (node prs).
Proof.
  intros H. apply compactable_inv in H as [_ [c [Hc _]]].
  rewrite (compact_step_compactable _ _ Hc). simpl. split; [reflexivity|].
  rewrite (pdag_size_unfold (node prs)), Hc. simpl. lia.
Qed.

(** The node a round removes from the tree is the node it releases. *)
Lemma compact_step_releases (prs : ln_parser_t ln_pdag) :
  compactable prs = true ->
  compact_step_released prs = 1%nat
  /\ (pdag_size (node (snd (compact_step prs))) + compact_step_released prs
      = pdag_size (node prs))%nat.
Proof.
  intros H. destruct (compact_step_size prs H) as [_ Hsz].
  apply compactable_inv in H as [_ [c [Hc _]]].
  assert (Hrel : ln_pdagDelete [set_node c (@None ln_pdag)] = 1%nat) by reflexivity.
  unfold compact_step_released. rewrite Hc, Hrel. split; [reflexivity|]. lia.
Qed.

Lemma compact_step_label (prs : ln_parser_t ln_pdag) :
  let prs' := snd (compact_step prs) in
  prsid prs' = prsid prs /\ name prs' = name prs /\ prio prs' = prio prs
  /\ custType prs' = custType prs.
Proof.
  unfold compact_step. destruct (parsers (node prs)) as [|c l]; simpl; [auto|].
  auto.
Qed.

Lemma optLitPathCompact_loop_stable (rounds : nat) (prs : ln_parser_t ln_pdag) :
  compactable prs = false -> optLitPathCompact_loop rounds prs = (0, prs).
Proof. intros H. destruct rounds; simpl; [reflexivity|]. rewrite H. reflexivity. Qed.

Lemma optLitPathCompact_loop_spec (rounds : nat) :
  forall prs : ln_parser_t ln_pdag,
    let res := optLitPathCompact_loop rounds prs in
    fst res = 0
    /\ prsid (snd res) = prsid prs /\ name (snd res) = name prs
    /\ prio (snd res) = prio prs /\ custType (snd res) = custType prs
    /\ (pdag_size (node (snd res)) <= pdag_size (node prs))%nat
    /\ ((pdag_size (node prs) <= rounds)%nat -> compactable (snd res) = false)
    /\ (compactable prs = true -> (0 < rounds)%nat ->
        (pdag_size (node (snd res)) < pdag_size (node prs))%nat).
Proof.
  induction rounds as [|rounds IH]; intros prs; simpl.
  - pose proof (pdag_size_pos (node prs)).
    repeat split; auto; try lia.
  - destruct (compactable prs) eqn:Hc; simpl.
    + destruct (compact_step_size prs Hc) as [Hr Hsz].
      pose proof (compact_step_label prs) as Hl. simpl in Hl.
      destruct (compact_step prs) as [r prs'] eqn:Hstep. simpl in *. subst r. simpl.
      specialize (IH prs'). simpl in IH.
      destruct IH as (I1 & I2 & I3 & I4 & I5 & I6 & I7 & I8).
      destruct Hl as (L1 & L2 & L3 & L4).
      repeat split; try congruence; try lia.
      intros Hle. apply I7. lia.
    + repeat split; auto; try lia; discriminate.
Qed.

Lemma optLitPathCompact_status (prs : ln_parser_t ln_pdag) : fst (optLitPathCompact prs) = 0.
Proof. apply (optLitPathCompact_loop_spec _ prs). Qed.

Lemma optLitPathCompact_prsid (prs : ln_parser_t ln_pdag) :
  prsid (snd (optLitPathCompact prs)) = prsid prs.
Proof. apply (optLitPathCompact_loop_spec _ prs). Qed.

Lemma optLitPathCompact_name (prs : ln_parser_t ln_pdag) :
  name (snd (optLitPathCompact prs)) = name prs.
Proof. apply (optLitPathCompact_loop_spec _ prs). Qed.

Lemma optLitPathCompact_size (prs : ln_parser_t ln_pdag) :
  (pdag_size (node (snd (optLitPathCompact prs))) <= pdag_size (node prs))%nat.
Proof. apply (optLitPathCompact_loop_spec _ prs). Qed.

(** The loop ends: on return the edge does not start a run of two literals. *)
Lemma optLitPathCompact_done (prs : ln_parser_t ln_pdag) :
  compactable (snd (optLitPathCompact prs)) = false.
Proof. apply (optLitPathCompact_loop_spec _ prs). unfold optLitPathCompact. lia. Qed.

Lemma optLitPathCompact_shrinks (prs : ln_parser_t ln_pdag) :
  compactable prs = true ->
  (pdag_size (node (snd (optLitPathCompact prs))) < pdag_size (node prs))%nat.
Proof.
  intros H. apply (optLitPathCompact_loop_spec _ prs); [assumption|].
  pose proof (pdag_size_pos (node prs)). lia.
Qed.

Lemma optLitPathCompact_stable (prs : ln_parser_t ln_pdag) :
  compactable prs = false -> optLitPathCompact prs = (0, prs).
Proof. apply optLitPathCompact_loop_stable. Qed.

(** The equation of the loop: the C code, round by round. *)
Lemma optLitPathCompact_unfold (prs : ln_parser_t ln_pdag) :
  optLitPathCompact prs =
    if compactable prs then optLitPathCompact (snd (compact_step prs)) else (0, prs).
Proof.
  destruct (compactable prs) eqn:Hc; [|apply optLitPathCompact_stable; assumption].
  unfold optLitPathCompact at 1.
  destruct (compact_step_size prs Hc) as [Hr Hsz].
  rewrite <- Hsz. simpl. rewrite Hc.
  destruct (compact_step prs) as [r prs']. simpl in *. subst r. reflexivity.
Qed.

(** ** The optimizer of a component *)


Lemma ln_pdagComponentOptimize_depth_S (depth : nat) (dag : ln_pdag) :
  ln_pdagComponentOptimize_depth (S depth) dag =
    set_parsers dag (map (optimize_edge (ln_pdagComponentOptimize_depth depth)) (parsers dag)).
Proof. reflexivity. Qed.

(** The bound on the depth does not matter once it covers the tree. *)
Lemma ln_pdagComponentOptimize_depth_enough (n : nat) :
  forall (m : nat) (dag : ln_pdag),
    (pdag_size dag <= n)%nat -> (pdag_size dag <= m)%nat ->
    ln_pdagComponentOptimize_depth n dag = ln_pdagComponentOptimize_depth m dag.
Proof.
  induction n as [|n IH]; intros m dag Hn Hm.
  - pose proof (pdag_size_pos dag). lia.
  - destruct m as [|m]; [pose proof (pdag_size_pos dag); lia|].
    rewrite !ln_pdagComponentOptimize_depth_S. f_equal.
    apply map_ext_in. intros prs Hin. unfold optimize_edge. f_equal.
    pose proof (pdag_size_child _ _ Hin). pose proof (optLitPathCompact_size prs).
    apply IH; lia.
Qed.

(** The equation of [ln_pdagComponentOptimize]: each edge is compacted, then
    the node it leads to is optimized. *)
Lemma ln_pdagComponentOptimize_unfold (dag : ln_pdag) :
  snd (ln_pdagComponentOptimize dag) =
    set_parsers dag
      (map (optimize_edge (fun d => snd (ln_pdagComponentOptimize d))) (parsers dag)).
Proof.
  unfold ln_pdagComponentOptimize at 1. simpl.
  pose proof (pdag_size_pos dag).
  destruct (pdag_size dag) as [|n] eqn:Hsz; [lia|].
  rewrite ln_pdagComponentOptimize_depth_S. f_equal.
  apply map_ext_in. intros prs Hin. unfold optimize_edge. f_equal. simpl.
  pose proof (pdag_size_child _ _ Hin). pose proof (optLitPathCompact_size prs).
  apply ln_pdagComponentOptimize_depth_enough; lia.
Qed.

#[local] Opaque ln_pdagComponentOptimize optLitPathCompact.

Lemma optimize_edge_prsid (rec : ln_pdag -> ln_pdag) (prs : ln_parser_t ln_pdag) :
  prsid (optimize_edge rec prs) = prsid prs.
Proof. unfold optimize_edge. simpl. apply optLitPathCompact_prsid. Qed.

Lemma compactable_optimize_edge (prs : ln_parser_t ln_pdag) :
  compactable (optimize_edge (fun d => snd (ln_pdagComponentOptimize d)) prs) = false.
Proof.
  pose proof (optLitPathCompact_done prs) as Hd.
  unfold optimize_edge. set (prs' := snd (optLitPathCompact prs)) in *.
  unfold compactable in *. cbn [set_node node prsid].
  rewrite ln_pdagComponentOptimize_unfold. cbn [set_parsers parsers].
  destruct (Nat.eqb (prsid prs') PRS_LITERAL); cbn [andb] in *; [|reflexivity].
  destruct (parsers (node prs')) as [|c [|c' l]]; cbn [map]; try reflexivity.
  rewrite optimize_edge_prsid. assumption.
Qed.

Lemma ln_pdagComponentOptimize_idem (dag : ln_pdag) :
  snd (ln_pdagComponentOptimize (snd (ln_pdagComponentOptimize dag)))
  = snd (ln_pdagComponentOptimize dag).
Proof.
  induction dag as [dag _ IH] using pdag_size_ind.
  rewrite (ln_pdagComponentOptimize_unfold dag).
  rewrite ln_pdagComponentOptimize_unfold. unfold set_parsers. cbn [parsers isTerminal tags].
  f_equal. rewrite map_map. apply map_ext_in. intros prs Hin.
  pose proof (compactable_optimize_edge prs) as Hc.
  unfold optimize_edge at 1. rewrite (optLitPathCompact_stable _ Hc). cbn [snd].
  unfold optimize_edge. cbn [set_node node prio name prsid custType parser_data]. f_equal.
  apply IH.
  pose proof (pdag_size_child _ _ Hin). pose proof (optLitPathCompact_size prs). lia.
Qed.

Lemma ln_pdagComponentOptimize_size (dag : ln_pdag) :
  (pdag_size (snd (ln_pdagComponentOptimize dag)) <= pdag_size dag)%nat.
Proof.
  induction dag as [dag IHc IH] using pdag_size_ind.
  rewrite ln_pdagComponentOptimize_unfold.
  rewrite (pdag_size_unfold dag), pdag_size_unfold. simpl.
  rewrite map_map. apply le_n_S. apply list_sum_map_le. intros prs Hin.
  unfold optimize_edge. simpl.
  pose proof (pdag_size_child _ _ Hin). pose proof (optLitPathCompact_size prs).
  etransitivity; [apply IH; lia|]. assumption.
Qed.

(** A run of two literals somewhere below the node costs the tree a node. *)
Lemma ln_pdagComponentOptimize_shrinks (dag : ln_pdag) :
  has_literal_run dag = true ->
  (pdag_size (snd (ln_pdagComponentOptimize dag)) < pdag_size dag)%nat.
Proof.
  induction dag as [dag IHc IH] using pdag_size_ind. intros Hrun.
  rewrite ln_pdagComponentOptimize_unfold.
  rewrite (pdag_size_unfold dag), pdag_size_unfold. simpl.
  rewrite map_map.
  assert (Hex : exists prs, In prs (parsers dag)
            /\ (compactable prs || has_literal_run (node prs)) = true).
  { destruct dag as [ps t g]. simpl in *. apply existsb_exists in Hrun. exact Hrun. }
  destruct Hex as [prs [Hin Hp]].
  apply -> Nat.succ_lt_mono.
  apply (list_sum_map_lt _ _ _ prs); [|assumption|].
  - intros x Hx. unfold optimize_edge. simpl.
    pose proof (optLitPathCompact_size x).
    pose proof (ln_pdagComponentOptimize_size (node (snd (optLitPathCompact x)))). lia.
  - unfold optimize_edge. simpl.
    destruct (compactable prs) eqn:Hc.
    + pose proof (optLitPathCompact_shrinks prs Hc).
      pose proof (ln_pdagComponentOptimize_size (node (snd (optLitPathCompact prs)))). lia.
    + simpl in Hp. rewrite (optLitPathCompact_stable _ Hc). simpl.
      apply IHc; assumption.
Qed.

(** ** The optimizer of a context *)

Lemma ln_pdagOptimize_nNodes (ctx : ln_ctx) :
  nNodes (snd (ln_pdagOptimize ctx)) = nNodes ctx.
Proof. unfold ln_pdagOptimize. reflexivity. Qed.

Lemma ln_pdagOptimize_live_le (ctx : ln_ctx) :
  (live_nodes (snd (ln_pdagOptimize ctx)) <= live_nodes ctx)%nat.
Proof.
  unfold live_nodes, ln_pdagOptimize. cbn [snd pdag type_pdags].
  rewrite map_map. cbn [tp_pdag].
  pose proof (ln_pdagComponentOptimize_size (pdag ctx)).
  assert (list_sum (map (fun t => pdag_size (snd (ln_pdagComponentOptimize (tp_pdag t))))
                        (type_pdags ctx))
          <= list_sum (map (fun t => pdag_size (tp_pdag t)) (type_pdags ctx)))%nat.
  { apply list_sum_map_le. intros t _. apply ln_pdagComponentOptimize_size. }
  lia.
Qed.

Lemma ln_pdagOptimize_live_lt (ctx : ln_ctx) :
  ctx_has_literal_run ctx = true ->
  (live_nodes (snd (ln_pdagOptimize ctx)) < live_nodes ctx)%nat.
Proof.
  unfold ctx_has_literal_run, live_nodes, ln_pdagOptimize. cbn [snd pdag type_pdags].
  rewrite map_map. cbn [tp_pdag]. intros Hrun.
  pose proof (ln_pdagComponentOptimize_size (pdag ctx)).
  assert (list_sum (map (fun t => pdag_size (snd (ln_pdagComponentOptimize (tp_pdag t))))
                        (type_pdags ctx))
          <= list_sum (map (fun t => pdag_size (tp_pdag t)) (type_pdags ctx)))%nat.
  { apply list_sum_map_le. intros t _. apply ln_pdagComponentOptimize_size. }
  apply orb_true_iff in Hrun as [Hrun|Hrun].
  - pose proof (ln_pdagComponentOptimize_shrinks _ Hrun). lia.
  - apply existsb_exists in Hrun as [t [Hin Ht]].
    assert (list_sum (map (fun t => pdag_size (snd (ln_pdagComponentOptimize (tp_pdag t))))
                        (type_pdags ctx))
          < list_sum (map (fun t => pdag_size (tp_pdag t)) (type_pdags ctx)))%nat.
    { apply (list_sum_map_lt _ _ _ t); [|assumption|].
      - intros x _. apply ln_pdagComponentOptimize_size.
      - apply ln_pdagComponentOptimize_shrinks. assumption. }
    lia.
Qed.

(** C8. The optimizer is idempotent: a second pass over the context that
    the first pass produced changes nothing, neither in the main pdag nor in
    the pdag of any user-defined type. *)
Theorem ln_pdagOptimize_idempotent (ctx : ln_ctx) :
  ln_pdagOptimize (snd (ln_pdagOptimize ctx)) = ln_pdagOptimize ctx.
Proof.
  unfold ln_pdagOptimize. cbn [snd pdag type_pdags nNodes debug].
  f_equal. f_equal.
  - apply ln_pdagComponentOptimize_idem.
  - rewrite map_map. apply map_ext. intros t. cbn [tp_name tp_pdag].
    f_equal. apply ln_pdagComponentOptimize_idem.
Qed.

(** ** The builder *)

Lemma edge_equiv_set_node {N M K : Type} (p : ln_parser_t N) (q : ln_parser_t M) (n : K) :
  edge_equiv p (set_node q n) <-> edge_equiv p q.
Proof. unfold edge_equiv. simpl. tauto. Qed.

Lemma edge_equiv_sym {N M : Type} (p : ln_parser_t N) (q : ln_parser_t M) :
  edge_equiv p q -> edge_equiv q p.
Proof.
  unfold edge_equiv. intros (H1 & H2 & H3). repeat split; try congruence.
  intros Hl. symmetry. apply H3. congruence.
Qed.

(** What the search loop of [ln_pdagAddParser] answers. *)
Lemma addParser_search_spec (parser : ln_parser_t unit) (ps : list (ln_parser_t ln_pdag)) :
  forall i : nat,
    (forall k p, ps !! k = Some p -> literal_has_data p) ->
    literal_has_data parser ->
    (exists k p, addParser_search ps parser i = Some (Some (i + k)%nat)
                 /\ ps !! k = Some p /\ edge_equiv p parser
                 /\ forall k' q, (k' < k)%nat -> ps !! k' = Some q -> ~ edge_equiv q parser)
    \/ (addParser_search ps parser i = Some None
        /\ forall k q, ps !! k = Some q -> ~ edge_equiv q parser).
Proof.
  induction ps as [|p ps IH]; intros i Hdata Hpd; simpl.
  - right. split; [reflexivity|]. intros k q Hk. discriminate.
  - assert (Hrest : forall k q, ps !! k = Some q -> literal_has_data q)
      by (intros k q Hk; apply (Hdata (S k)); exact Hk).
    assert (Hskip : ~ edge_equiv p parser ->
      (exists k p0, addParser_search ps parser (S i) = Some (Some (i + k)%nat)
                 /\ (p :: ps) !! k = Some p0 /\ edge_equiv p0 parser
                 /\ forall k' q, (k' < k)%nat -> (p :: ps) !! k' = Some q -> ~ edge_equiv q parser)
      \/ (addParser_search ps parser (S i) = Some None
        /\ forall k q, (p :: ps) !! k = Some q -> ~ edge_equiv q parser)).
    { intros Hne. destruct (IH (S i) Hrest Hpd) as [(k & p0 & Hs & Hk & He & Hmin)|[Hs Hall]].
      - left. exists (S k), p0. split; [|split; [|split]]; auto.
        + rewrite Hs. do 2 f_equal. lia.
        + intros [|k'] q Hlt Hq; simpl in Hq.
          * injection Hq as <-. exact Hne.
          * apply (Hmin k'); [lia|exact Hq].
      - right. split; [exact Hs|]. intros [|k] q Hq; simpl in Hq.
        + injection Hq as <-. exact Hne.
        + apply (Hall k). exact Hq. }
    destruct (Nat.eqb (prsid p) (prsid parser)) eqn:Hid; simpl.
    2:{ apply Hskip. intros (H1 & _). apply Nat.eqb_neq in Hid. contradiction. }
    apply Nat.eqb_eq in Hid.
    unfold streq. destruct (String.eqb (name p) (name parser)) eqn:Hnm; simpl.
    2:{ apply Hskip. intros (_ & H2 & _). apply String.eqb_neq in Hnm. contradiction. }
    apply String.eqb_eq in Hnm.
    destruct (Nat.eqb (prsid parser) PRS_LITERAL) eqn:Hlit.
    + apply Nat.eqb_eq in Hlit.
      assert (Hp : parser_data p <> None) by (apply (Hdata 0%nat p); [reflexivity|congruence]).
      assert (Hq : parser_data parser <> None) by (apply Hpd; assumption).
      destruct (data_char0 (parser_data p)) as [a|] eqn:Ha;
        [|destruct (parser_data p) as [[|]|]; simpl in Ha; congruence].
      destruct (data_char0 (parser_data parser)) as [b|] eqn:Hb;
        [|destruct (parser_data parser) as [[|]|]; simpl in Hb; congruence].
      simpl. destruct (Ascii.eqb a b) eqn:Hab.
      * apply Ascii.eqb_eq in Hab. subst b. left. exists 0%nat, p.
        split; [|split; [|split]]; auto.
        -- do 2 f_equal. lia.
        -- split; [assumption|]. split; [assumption|]. intros _. congruence.
        -- intros k' q Hlt. lia.
      * apply Hskip. intros (_ & _ & H3). specialize (H3 Hlit).
        rewrite Ha, Hb in H3. injection H3 as ->. rewrite Ascii.eqb_refl in Hab. discriminate.
    + apply Nat.eqb_neq in Hlit. left. exists 0%nat, p.
      split; [|split; [|split]]; auto.
      * do 2 f_equal. lia.
      * split; [assumption|]. split; [assumption|]. intros Hl. contradiction.
      * intros k' q Hk'. lia.
Qed.

(** One call of [ln_pdagAddParser] keeps the edges of the node distinct. *)
Lemma ln_pdagAddParser_step (ctx : ln_ctx) (dag : ln_pdag) (parser : ln_parser_t unit) :
  edges_unique dag -> literals_have_data dag -> literal_has_data parser ->
  exists out, ln_pdagAddParser ctx dag parser = Some out
    /\ ap_r out = 0
    /\ edges_unique (ap_dag out) /\ literals_have_data (ap_dag out)
    /\ ((exists i p, parsers dag !! i = Some p /\ edge_equiv p parser) ->
        exists j q, out = mk_addParser_out 0 ctx dag j true
                    /\ parsers dag !! j = Some q /\ edge_equiv q parser)
    /\ ((forall i p, parsers dag !! i = Some p -> ~ edge_equiv p parser) ->
        out = mk_addParser_out 0 (snd (ln_newPDAG ctx))
                (set_parsers dag (parsers dag ++ [set_node parser (fst (ln_newPDAG ctx))]))
                (nparsers dag) false).
Proof.
  intros Huniq Hdata Hpd. unfold ln_pdagAddParser.
  destruct (addParser_search_spec parser (parsers dag) 0 Hdata Hpd)
    as [(k & p & Hs & Hk & He & Hmin)|[Hs Hall]]; rewrite Hs; simpl.
  - eexists. split; [reflexivity|]. simpl.
    split; [|split; [|split; [|split]]]; auto.
    + intros _. exists k, p. auto.
    + intros Hnone. exfalso. apply (Hnone k p); assumption.
  - eexists. split; [reflexivity|]. simpl.
    split; [|split; [|split; [|split]]]; auto.
    + intros i j p q Hi Hj Heq. simpl in Hi, Hj.
      destruct (lookup_app_Some (parsers dag) [set_node parser (mk_pdag [] false JNull)] i p)
        as [Hi' _]. specialize (Hi' Hi).
      destruct (lookup_app_Some (parsers dag) [set_node parser (mk_pdag [] false JNull)] j q)
        as [Hj' _]. specialize (Hj' Hj).
      destruct Hi' as [Hi'|[Hli Hi']]; destruct Hj' as [Hj'|[Hlj Hj']].
      * apply (Huniq i j p q); assumption.
      * exfalso. apply list_lookup_singleton_Some in Hj' as [_ <-].
        apply (Hall i p Hi'). apply edge_equiv_set_node in Heq. exact Heq.
      * exfalso. apply list_lookup_singleton_Some in Hi' as [_ <-].
        apply (Hall j q Hj'). apply edge_equiv_sym in Heq.
        apply edge_equiv_set_node in Heq. exact Heq.
      * apply list_lookup_singleton_Some in Hi' as [Hi' _].
        apply list_lookup_singleton_Some in Hj' as [Hj' _]. lia.
    + intros i p Hi. simpl in Hi.
      apply lookup_app_Some in Hi as [Hi|[_ Hi]].
      * apply (Hdata i p Hi).
      * apply list_lookup_singleton_Some in Hi as [_ <-]. exact Hpd.
    + intros (i & p & Hi & Heq). exfalso. apply (Hall i p); assumption.
Qed.

Lemma addParser_trace_unique (calls : list (ln_parser_t unit)) :
  forall (ctx : ln_ctx) (dag : ln_pdag),
    edges_unique dag -> literals_have_data dag -> Forall literal_has_data calls ->
    exists trace, addParser_trace ctx dag calls = Some trace
                  /\ length trace = length calls /\ Forall edges_unique trace.
Proof.
  induction calls as [|parser calls IH]; intros ctx dag Hu Hd Hcalls; simpl.
  - exists []. auto.
  - apply Forall_cons in Hcalls as [Hp Hcalls].
    destruct (ln_pdagAddParser_step ctx dag parser Hu Hd Hp)
      as (out & Hout & _ & Hu' & Hd' & _).
    rewrite Hout. simpl.
    destruct (IH (ap_ctx out) (ap_dag out) Hu' Hd' Hcalls) as (trace & Ht & Hlen & Hall).
    rewrite Ht. simpl. eexists. split; [reflexivity|]. split; [simpl; lia|].
    constructor; assumption.
Qed.

(** C5. [ln_pdagAddParser] keeps the edges of a node distinct: over every
    sequence of calls on a node whose edges are distinct (a new node has
    none), the node has, after each call, no two edges with the same parser
    id and name and, for literals, the same literal character; and when the
    node already has an edge equivalent to the new one, the new edge is
    released, nothing is appended, no node is allocated and the root pointer
    moves to the child of that existing edge. *)
Theorem ln_pdagAddParser_edges_unique
    (ctx : ln_ctx) (dag : ln_pdag) (calls : list (ln_parser_t unit)) :
  edges_unique dag -> literals_have_data dag -> Forall literal_has_data calls ->
  (exists trace, addParser_trace ctx dag calls = Some trace
                 /\ length trace = length calls /\ Forall edges_unique trace)
  /\ (forall (parser : ln_parser_t unit) (i : nat) (p : ln_parser_t ln_pdag),
        literal_has_data parser ->
        parsers dag !! i = Some p -> edge_equiv p parser ->
        exists j q, ln_pdagAddParser ctx dag parser = Some (mk_addParser_out 0 ctx dag j true)
                    /\ parsers dag !! j = Some q /\ edge_equiv q parser).
Proof.
  intros Hu Hd Hcalls. split.
  - apply addParser_trace_unique; assumption.
  - intros parser i p Hp Hi He.
    destruct (ln_pdagAddParser_step ctx dag parser Hu Hd Hp) as (out & Hout & _ & _ & _ & Hm & _).
    destruct Hm as (j & q & -> & Hj & Hq); [exists i, p; auto|].
    exists j, q. auto.
Qed.

(** ** The node counter of the context *)

Lemma list_sum_map_alter {A : Type} (h : A -> nat) (g : A -> A) (l : list A) :
  forall (i : nat) (x : A),
    l !! i = Some x ->
    (list_sum (map h (alter g i l)) + h x = list_sum (map h l) + h (g x))%nat.
Proof.
  induction l as [|a l IH]; intros i x Hi; [discriminate|].
  destruct i as [|i]; simpl in *.
  - injection Hi as ->. lia.
  - specialize (IH i x Hi). unfold alter in IH. lia.
Qed.

Lemma alter_lookup_None {A : Type} (g : A -> A) (l : list A) (i : nat) :
  l !! i = None -> alter g i l = l.
Proof.
  revert i. induction l as [|a l IH]; intros i Hi; [reflexivity|].
  destruct i as [|i]; simpl in *; [discriminate|]. f_equal. apply IH. exact Hi.
Qed.

Lemma pdag_size_set_parsers (dag : ln_pdag) (ps : list (ln_parser_t ln_pdag)) :
  pdag_size (set_parsers dag ps) = S (list_sum (map (fun prs => pdag_size (node prs)) ps)).
Proof. reflexivity. Qed.

Lemma pdag_modify_size (f : ln_pdag -> ln_pdag) (path : list nat) :
  forall root dag : ln_pdag,
    pdag_lookup root path = Some dag ->
    (pdag_size (pdag_modify f path root) + pdag_size dag
     = pdag_size root + pdag_size (f dag))%nat.
Proof.
  induction path as [|i path IH]; intros root dag Hl; cbn [pdag_lookup pdag_modify] in *.
  - injection Hl as ->. lia.
  - destruct (parsers root !! i) as [prs|] eqn:Hi; simpl in Hl; [|discriminate].
    specialize (IH _ _ Hl).
    rewrite (pdag_size_unfold root), pdag_size_set_parsers.
    pose proof (list_sum_map_alter (fun p => pdag_size (node p))
                  (fun p => set_node p (pdag_modify f path (node p))) _ _ _ Hi) as Hs.
    cbv beta in Hs. cbn [set_node node] in Hs. lia.
Qed.

Lemma pdag_modify_size_same (f : ln_pdag -> ln_pdag) (path : list nat) :
  (forall d, pdag_size (f d) = pdag_size d) ->
  forall root : ln_pdag, pdag_size (pdag_modify f path root) = pdag_size root.
Proof.
  intros Hf. induction path as [|i path IH]; intros root; cbn [pdag_modify]; [apply Hf|].
  rewrite (pdag_size_unfold root), pdag_size_set_parsers.
  destruct (parsers root !! i) as [prs|] eqn:Hi.
  - pose proof (list_sum_map_alter (fun p => pdag_size (node p))
                  (fun p => set_node p (pdag_modify f path (node p))) _ _ _ Hi) as Hs.
    cbv beta in Hs. cbn [set_node node] in Hs. rewrite IH in Hs. lia.
  - rewrite alter_lookup_None by exact Hi. reflexivity.
Qed.

Lemma ctx_set_component_live (ctx : ln_ctx) (c : option nat) (root dag : ln_pdag) :
  ctx_component ctx c = Some root ->
  (live_nodes (ctx_set_component ctx c dag) + pdag_size root
   = live_nodes ctx + pdag_size dag)%nat.
Proof.
  unfold ctx_component, ctx_set_component, live_nodes.
  destruct c as [i|]; simpl.
  - destruct (type_pdags ctx !! i) as [t|] eqn:Hi; simpl; [|discriminate].
    intros [= <-].
    pose proof (list_sum_map_alter (fun t => pdag_size (tp_pdag t))
                  (fun t => mk_type_pdag (tp_name t) dag) _ _ _ Hi) as Hs.
    cbv beta in Hs. cbn [tp_pdag] in Hs. lia.
  - intros [= <-]. lia.
Qed.

Lemma ctx_set_component_nNodes (ctx : ln_ctx) (c : option nat) (dag : ln_pdag) :
  nNodes (ctx_set_component ctx c dag) = nNodes ctx.
Proof. destruct c; reflexivity. Qed.

(** [ln_pdagAddParser] allocates a node exactly when the node counter
    grows. *)
Lemma ln_pdagAddParser_nNodes (ctx : ln_ctx) (dag : ln_pdag) (parser : ln_parser_t unit)
    (out : addParser_out) :
  ln_pdagAddParser ctx dag parser = Some out ->
  pdag (ap_ctx out) = pdag ctx /\ type_pdags (ap_ctx out) = type_pdags ctx
  /\ nNodes (ap_ctx out) - nNodes ctx
     = Z.of_nat (pdag_size (ap_dag out)) - Z.of_nat (pdag_size dag).
Proof.
  unfold ln_pdagAddParser.
  destruct (addParser_search (parsers dag) parser 0) as [[i|]|]; simpl; try discriminate.
  - intros [= <-]. simpl. repeat split; lia.
  - intros [= <-]. cbn [ap_ctx ap_dag ln_newPDAG pdag type_pdags nNodes]. repeat split.
    rewrite (pdag_size_unfold dag), pdag_size_set_parsers.
    rewrite map_app, list_sum_app. simpl. lia.
Qed.

Lemma ln_pdagAddParser_at_exact (ctx ctx' : ln_ctx) (cur cur' : ln_cursor)
    (parser : ln_parser_t unit) (r : Z) :
  ln_pdagAddParser_at ctx cur parser = Some (r, ctx', cur') ->
  nNodes_exact ctx -> nNodes_exact ctx'.
Proof.
  unfold ln_pdagAddParser_at, nNodes_exact.
  destruct (ctx_component ctx (cur_type cur)) as [root|] eqn:Hroot; simpl; [|discriminate].
  destruct (pdag_lookup root (cur_path cur)) as [dag|] eqn:Hdag; simpl; [|discriminate].
  destruct (ln_pdagAddParser ctx dag parser) as [out|] eqn:Hout; simpl; [|discriminate].
  intros [= <- <- <-] Hex.
  destruct (ln_pdagAddParser_nNodes _ _ _ _ Hout) as (Hp & Ht & Hn).
  rewrite ctx_set_component_nNodes.
  assert (Hroot' : ctx_component (ap_ctx out) (cur_type cur) = Some root).
  { unfold ctx_component in *. rewrite Hp, Ht. exact Hroot. }
  pose proof (ctx_set_component_live (ap_ctx out) (cur_type cur) root
                (pdag_modify (fun _ => ap_dag out) (cur_path cur) root) Hroot') as Hl.
  pose proof (pdag_modify_size (fun _ => ap_dag out) _ _ _ Hdag) as Hm.
  assert (live_nodes (ap_ctx out) = live_nodes ctx)
    by (unfold live_nodes; rewrite Hp, Ht; reflexivity).
  lia.
Qed.

Lemma set_isTerminal_at_exact (ctx ctx' : ln_ctx) (cur : ln_cursor) :
  set_isTerminal_at ctx cur = Some ctx' -> nNodes_exact ctx -> nNodes_exact ctx'.
Proof.
  unfold set_isTerminal_at, nNodes_exact.
  destruct (ctx_component ctx (cur_type cur)) as [root|] eqn:Hroot; simpl; [|discriminate].
  intros [= <-] Hex. rewrite ctx_set_component_nNodes.
  pose proof (ctx_set_component_live ctx (cur_type cur) root
    (pdag_modify (fun dag => mk_pdag (parsers dag) true (tags dag)) (cur_path cur) root) Hroot)
    as Hl.
  rewrite pdag_modify_size_same in Hl; [lia|].
  intros d. rewrite (pdag_size_unfold d), pdag_size_unfold. reflexivity.
Qed.

Lemma builder_step_exact (P : ln_plugins) (st st' : ln_ctx * ln_cursor) (call : builder_call) :
  builder_step P st call = Some st' -> nNodes_exact (fst st) -> nNodes_exact (fst st').
Proof.
  destruct st as [ctx cur]. destruct call as [lit|nm id ct extraData| |c]; cbn [builder_step].
  - destruct (ln_newLiteralParser P lit) as [parser|]; simpl; [|discriminate].
    destruct (ln_pdagAddParser_at ctx cur parser) as [[[r ctx'] cur']|] eqn:Ha;
      simpl; [|discriminate].
    intros [= <-]. simpl. eapply ln_pdagAddParser_at_exact; eassumption.
  - destruct (ln_newParser P nm id ct extraData JNull) as [parser|]; simpl; [|discriminate].
    destruct (ln_pdagAddParser_at ctx cur parser) as [[[r ctx'] cur']|] eqn:Ha;
      simpl; [|discriminate].
    intros [= <-]. simpl. eapply ln_pdagAddParser_at_exact; eassumption.
  - destruct (set_isTerminal_at ctx cur) as [ctx'|] eqn:Hs; simpl; [|discriminate].
    intros [= <-]. simpl. eapply set_isTerminal_at_exact; eassumption.
  - intros [= <-]. simpl. auto.
Qed.

Lemma builder_run_exact (P : ln_plugins) (calls : list builder_call) :
  forall st st' : ln_ctx * ln_cursor,
    builder_run P st calls = Some st' -> nNodes_exact (fst st) -> nNodes_exact (fst st').
Proof.
  induction calls as [|call calls IH]; intros st st'; simpl.
  - intros [= <-]. auto.
  - destruct (builder_step P st call) as [st1|] eqn:Hs; simpl; [|discriminate].
    intros Hr Hex. apply (IH st1 st' Hr). eapply builder_step_exact; eassumption.
Qed.

Lemma ctx_add_types_exact (names : list string) :
  forall ctx : ln_ctx, nNodes_exact ctx -> nNodes_exact (ctx_add_types ctx names).
Proof.
  induction names as [|nm names IH]; intros ctx Hex; simpl; [exact Hex|].
  apply IH. unfold nNodes_exact, live_nodes in *. simpl.
  rewrite map_app, list_sum_app. simpl. lia.
Qed.

Lemma ctx_init_exact (names : list string) : nNodes_exact (ctx_init names).
Proof. unfold ctx_init. simpl. apply ctx_add_types_exact. reflexivity. Qed.

(** C10. The node counter of the context counts allocations, not live
    nodes: [ln_newPDAG] increments it, so that it equals the number of nodes
    of any context that builder calls have built; the optimizer, which
    deletes the node between two literals, leaves it as it is, so that after
    an optimization that spliced out at least one node the counter exceeds
    the number of live nodes. *)
Theorem nNodes_counts_allocations
    (P : ln_plugins) (types : list string) (calls : list builder_call)
    (ctx : ln_ctx) (cur : ln_cursor) :
  builder_run P (ctx_init types, main_root) calls = Some (ctx, cur) ->
  ctx_has_literal_run ctx = true ->
  nNodes (snd (ln_newPDAG ctx)) = nNodes ctx + 1
  /\ nNodes ctx = Z.of_nat (live_nodes ctx)
  /\ nNodes (snd (ln_pdagOptimize ctx)) = nNodes ctx
  /\ Z.of_nat (live_nodes (snd (ln_pdagOptimize ctx))) < nNodes (snd (ln_pdagOptimize ctx)).
Proof.
  intros Hrun Hlit.
  pose proof (builder_run_exact P calls _ _ Hrun (ctx_init_exact types)) as Hex.
  simpl in Hex. unfold nNodes_exact in Hex.
  pose proof (ln_pdagOptimize_live_lt ctx Hlit) as Hlt.
  rewrite ln_pdagOptimize_nNodes.
  repeat split; try assumption. lia.
Qed.


(** *** Every node of a context that the builder calls have built *)

Lemma every_node_unfold (Q : ln_pdag -> Prop) (dag : ln_pdag) :
  every_node Q dag
  <-> Q dag /\ forall prs, In prs (parsers dag) -> every_node Q (node prs).
Proof.
  destruct dag as [ps t g]. cbn [every_node parsers].
  assert (Hfold : fold_right (fun prs acc => every_node Q (node prs) /\ acc) True ps
                  <-> forall prs, In prs ps -> every_node Q (node prs)).
  { induction ps as [|p ps IH]; cbn [fold_right In].
    - split; [intros _ prs []|auto].
    - rewrite IH. split.
      + intros [Hp Hps] prs [<-|Hin]; auto.
      + intros H. split; [apply H; auto|]. intros prs Hin. apply H. auto. }
  rewrite Hfold. reflexivity.
Qed.

(** [node_ok] only looks at the ids, names and data of the edges. *)
Lemma node_ok_alter (dag : ln_pdag) (F : ln_parser_t ln_pdag -> ln_parser_t ln_pdag) (i : nat) :
  (forall p, prsid (F p) = prsid p /\ name (F p) = name p /\ parser_data (F p) = parser_data p) ->
  node_ok dag -> node_ok (set_parsers dag (alter F i (parsers dag))).
Proof.
  intros HF [Hu Hd].
  assert (Hlk : forall j q, alter F i (parsers dag) !! j = Some q ->
            exists p, parsers dag !! j = Some p
                      /\ prsid q = prsid p /\ name q = name p /\ parser_data q = parser_data p).
  { intros j q Hq. destruct (decide (i = j)) as [<-|Hne].
    - rewrite list_lookup_alter_eq in Hq.
      destruct (parsers dag !! i) as [p|]; [|discriminate].
      cbn in Hq. injection Hq as <-. exists p. split; [reflexivity|apply HF].
    - rewrite list_lookup_alter_ne in Hq by assumption. exists q. auto. }
  split.
  - intros j k p q Hj Hk (E1 & E2 & E3). cbn [set_parsers parsers] in Hj, Hk.
    destruct (Hlk _ _ Hj) as (p0 & Hp0 & A1 & A2 & A3).
    destruct (Hlk _ _ Hk) as (q0 & Hq0 & B1 & B2 & B3).
    apply (Hu j k p0 q0 Hp0 Hq0). unfold edge_equiv. rewrite <- A1, <- A2, <- A3, <- B1, <- B2, <- B3.
    auto.
  - intros j q Hj. cbn [set_parsers parsers] in Hj.
    destruct (Hlk _ _ Hj) as (p0 & Hp0 & A1 & A2 & A3).
    unfold literal_has_data. rewrite A1, A3. apply (Hd j p0 Hp0).
Qed.

Lemma every_node_modify (f : ln_pdag -> ln_pdag) (path : list nat) :
  forall root : ln_pdag,
    every_node node_ok root ->
    (forall dag, pdag_lookup root path = Some dag -> every_node node_ok (f dag)) ->
    every_node node_ok (pdag_modify f path root).
Proof.
  induction path as [|i path IH]; intros root Hroot Hf; cbn [pdag_modify].
  - apply Hf. reflexivity.
  - apply every_node_unfold in Hroot as [Hok Hch].
    apply every_node_unfold. split.
    + apply node_ok_alter; [|assumption]. intros p. cbn. auto.
    + cbn [set_parsers parsers]. intros q Hq.
      apply list_elem_of_In in Hq. apply list_elem_of_lookup in Hq as [j Hj].
      destruct (decide (i = j)) as [<-|Hne].
      * rewrite list_lookup_alter_eq in Hj.
        destruct (parsers root !! i) as [p|] eqn:Hp; [|discriminate].
        cbn in Hj. injection Hj as <-. cbn [set_node node].
        apply IH.
        -- apply Hch. apply list_elem_of_In. apply list_elem_of_lookup. eauto.
        -- intros dag Hdag. apply Hf. cbn [pdag_lookup]. rewrite Hp. exact Hdag.
      * rewrite list_lookup_alter_ne in Hj by assumption.
        apply Hch. apply list_elem_of_In. apply list_elem_of_lookup. eauto.
Qed.

Lemma every_node_lookup (Q : ln_pdag -> Prop) (path : list nat) :
  forall root dag : ln_pdag,
    every_node Q root -> pdag_lookup root path = Some dag -> every_node Q dag.
Proof.
  induction path as [|i path IH]; intros root dag Hroot Hl; cbn [pdag_lookup] in Hl.
  - injection Hl as <-. assumption.
  - destruct (parsers root !! i) as [p|] eqn:Hp; [|discriminate]. cbn in Hl.
    apply (IH (node p)); [|assumption].
    apply every_node_unfold in Hroot as [_ Hch]. apply Hch.
    apply list_elem_of_In. apply list_elem_of_lookup. eauto.
Qed.

Lemma ln_pdagAddParser_every_node (ctx : ln_ctx) (dag : ln_pdag) (parser : ln_parser_t unit)
    (out : addParser_out) :
  every_node node_ok dag -> literal_has_data parser ->
  ln_pdagAddParser ctx dag parser = Some out ->
  every_node node_ok (ap_dag out).
Proof.
  intros Hdag Hp Hout. apply every_node_unfold in Hdag as [[Hu Hd] Hch].
  destruct (ln_pdagAddParser_step ctx dag parser Hu Hd Hp) as (out' & Hout' & _ & Hu' & Hd' & _).
  assert (out' = out) by congruence. subst out'.
  apply every_node_unfold. split; [split; assumption|].
  revert Hout. unfold ln_pdagAddParser.
  destruct (addParser_search (parsers dag) parser 0) as [[i|]|]; cbn [mbind option_bind];
    [| |discriminate].
  - intros [= <-]. exact Hch.
  - cbn [ln_newPDAG]. intros [= <-]. cbn [ap_dag set_parsers parsers]. intros q Hq.
    apply in_app_or in Hq as [Hq|[<-|[]]]; [apply Hch; assumption|].
    cbn [set_node node]. apply every_node_unfold. split.
    + split.
      * intros j k p q Hj. discriminate.
      * intros j p Hj. discriminate.
    + intros prs [].
Qed.

Lemma ln_newParser_has_data (P : ln_plugins) (nm : string) (id : prsid_t) (ct : option nat)
    (extraData : option string) (js : json) (parser : ln_parser_t unit) :
  literal_constructs P ->
  ln_newParser P nm id ct extraData js = Some parser -> literal_has_data parser.
Proof.
  intros HP. unfold ln_newParser.
  destruct (Nat.eqb id PRS_CUSTOM_TYPE) eqn:Hid.
  - intros [= <-]. intros Hl. cbn in Hl. subst id. discriminate.
  - destruct (parser_lookup_table P !! id) as [info|] eqn:Hinfo; cbn [mbind option_bind];
      [|discriminate].
    intros [= <-]. intros Hl. cbn in Hl. subst id. cbn in Hinfo. injection Hinfo as <-.
    cbn. apply HP.
Qed.

Lemma ctx_set_component_every_node (ctx : ln_ctx) (c : option nat) (dag : ln_pdag) :
  ctx_edges_unique ctx -> every_node node_ok dag ->
  ctx_edges_unique (ctx_set_component ctx c dag).
Proof.
  intros [Hm Ht] Hdag. destruct c as [i|]; split; cbn; try assumption.
  apply Forall_forall. intros t Hin.
  apply list_elem_of_lookup in Hin as [j Hj].
  destruct (decide (i = j)) as [<-|Hne].
  - rewrite list_lookup_alter_eq in Hj. destruct (type_pdags ctx !! i); [|discriminate].
    cbn in Hj. injection Hj as <-. exact Hdag.
  - rewrite list_lookup_alter_ne in Hj by assumption.
    rewrite Forall_forall in Ht. apply Ht.
    apply list_elem_of_lookup. eauto.
Qed.

Lemma ctx_component_every_node (ctx : ln_ctx) (c : option nat) (root : ln_pdag) :
  ctx_edges_unique ctx -> ctx_component ctx c = Some root -> every_node node_ok root.
Proof.
  intros [Hm Ht]. destruct c as [i|]; cbn.
  - destruct (type_pdags ctx !! i) as [t|] eqn:Hi; [|discriminate]. intros [= <-].
    rewrite Forall_forall in Ht. apply Ht.
    apply list_elem_of_lookup. eauto.
  - intros [= <-]. assumption.
Qed.

Lemma ln_pdagAddParser_at_edges_unique (ctx ctx' : ln_ctx) (cur cur' : ln_cursor)
    (parser : ln_parser_t unit) (r : Z) :
  literal_has_data parser ->
  ln_pdagAddParser_at ctx cur parser = Some (r, ctx', cur') ->
  ctx_edges_unique ctx -> ctx_edges_unique ctx'.
Proof.
  intros Hp. unfold ln_pdagAddParser_at.
  destruct (ctx_component ctx (cur_type cur)) as [root|] eqn:Hroot; cbn [mbind option_bind];
    [|discriminate].
  destruct (pdag_lookup root (cur_path cur)) as [dag|] eqn:Hdag; cbn [mbind option_bind];
    [|discriminate].
  destruct (ln_pdagAddParser ctx dag parser) as [out|] eqn:Hout; cbn [mbind option_bind];
    [|discriminate].
  intros [= <- <- <-] Hctx.
  pose proof (ctx_component_every_node _ _ _ Hctx Hroot) as Hr.
  pose proof (every_node_lookup _ _ _ _ Hr Hdag) as Hd.
  pose proof (ln_pdagAddParser_every_node _ _ _ _ Hd Hp Hout) as Ho.
  destruct (ln_pdagAddParser_nNodes _ _ _ _ Hout) as (Hpd & Htp & _).
  apply ctx_set_component_every_node.
  - destruct Hctx as [Hm Ht]. split; [rewrite Hpd|rewrite Htp]; assumption.
  - apply every_node_modify; [assumption|]. intros _ _. assumption.
Qed.

Lemma builder_step_edges_unique (P : ln_plugins) (st st' : ln_ctx * ln_cursor)
    (call : builder_call) :
  literal_constructs P ->
  builder_step P st call = Some st' ->
  ctx_edges_unique (fst st) -> ctx_edges_unique (fst st').
Proof.
  intros HP. destruct st as [ctx cur].
  destruct call as [lit|nm id ct extraData| |c]; cbn [builder_step].
  - destruct (ln_newLiteralParser P lit) as [parser|] eqn:Hnew; simpl; [|discriminate].
    destruct (ln_pdagAddParser_at ctx cur parser) as [[[r ctx'] cur']|] eqn:Ha;
      simpl; [|discriminate].
    intros [= <-]. simpl. eapply ln_pdagAddParser_at_edges_unique; [|eassumption].
    eapply ln_newParser_has_data; eassumption.
  - destruct (ln_newParser P nm id ct extraData JNull) as [parser|] eqn:Hnew; simpl;
      [|discriminate].
    destruct (ln_pdagAddParser_at ctx cur parser) as [[[r ctx'] cur']|] eqn:Ha;
      simpl; [|discriminate].
    intros [= <-]. simpl. eapply ln_pdagAddParser_at_edges_unique; [|eassumption].
    eapply ln_newParser_has_data; eassumption.
  - unfold set_isTerminal_at.
    destruct (ctx_component ctx (cur_type cur)) as [root|] eqn:Hroot; simpl; [|discriminate].
    intros [= <-] Hctx. simpl.
    apply ctx_set_component_every_node; [assumption|].
    apply every_node_modify; [eapply ctx_component_every_node; eassumption|].
    intros dag Hdag.
    pose proof (every_node_lookup _ _ _ _ (ctx_component_every_node _ _ _ Hctx Hroot) Hdag) as Hd.
    apply every_node_unfold in Hd as [Hok Hch]. apply every_node_unfold. split; assumption.
  - intros [= <-]. simpl. auto.
Qed.

Lemma ctx_add_types_edges_unique (names : list string) :
  forall ctx : ln_ctx, ctx_edges_unique ctx -> ctx_edges_unique (ctx_add_types ctx names).
Proof.
  induction names as [|nm names IH]; intros ctx [Hm Ht]; simpl; [split; assumption|].
  apply IH. split; cbn; [assumption|].
  apply Forall_app. split; [assumption|]. constructor; [|constructor].
  cbn. split; [|exact I]. split.
  - intros j k p q Hj. discriminate.
  - intros j p Hj. discriminate.
Qed.

(** In a context that builder calls have built, no node has two edges
    with the same parser id and name and, for literals, the same first
    character. *)
Lemma builder_run_edges_unique (P : ln_plugins) (calls : list builder_call) :
  literal_constructs P ->
  forall st st' : ln_ctx * ln_cursor,
    builder_run P st calls = Some st' ->
    ctx_edges_unique (fst st) -> ctx_edges_unique (fst st').
Proof.
  intros HP. induction calls as [|call calls IH]; intros st st'; simpl.
  - intros [= <-]. auto.
  - destruct (builder_step P st call) as [st1|] eqn:Hs; simpl; [|discriminate].
    intros Hr Hu. apply (IH st1 st' Hr). eapply builder_step_edges_unique; eassumption.
Qed.

Lemma ctx_init_edges_unique (names : list string) : ctx_edges_unique (ctx_init names).
Proof.
  unfold ctx_init. simpl. apply ctx_add_types_edges_unique. split; cbn.
  - split; [|exact I]. split.
    + intros j k p q Hj. discriminate.
    + intros j p Hj. discriminate.
  - constructor.
Qed.

Lemma built_edges_unique (P : ln_plugins) (types : list string) (calls : list builder_call)
    (ctx : ln_ctx) (cur : ln_cursor) :
  literal_constructs P ->
  builder_run P (ctx_init types, main_root) calls = Some (ctx, cur) ->
  ctx_edges_unique ctx.
Proof.
  intros HP Hrun.
  apply (builder_run_edges_unique P calls HP _ _ Hrun). apply ctx_init_edges_unique.
Qed.

Lemma lit_plugins_literal_constructs : literal_constructs lit_plugins.
Proof. intros extraData js. discriminate. Qed.

(** ** The normalizer *)

Lemma LN_WRONGPARSER_nonzero : LN_WRONGPARSER <> 0.
Proof. discriminate. Qed.

Lemma fixJSON_status (value js : json) (prs : ln_parser_t ln_pdag) :
  fst (fixJSON value js prs) = 0.
Proof.
  unfold fixJSON. destruct (streq (name prs) "-"); [reflexivity|].
  destruct (streq (name prs) "."); [|reflexivity]. destruct value; reflexivity.
Qed.

Lemma watermark_update_fields (st : loop_state) :
  ls_r (watermark_update st) = ls_r st
  /\ ls_json (watermark_update st) = ls_json st
  /\ ls_endNode (watermark_update st) = ls_endNode st
  /\ ls_parsedTo (watermark_update st) = ls_parsedTo st
  /\ ls_parsed (watermark_update st) = ls_parsed st
  /\ ls_pParsedTo (watermark_update st) = Z.max (ls_parsedTo st) (ls_pParsedTo st).
Proof.
  unfold watermark_update. destruct (ls_parsedTo st >? ls_pParsedTo st) eqn:H; simpl;
    repeat split; lia.
Qed.

Section NormalizerProperties.

Context (P : ln_plugins) (ctx : ln_ctx).

(** The three ways through a round of the edge loop: the parser fails; the
    parser succeeds and the subtree fails; both succeed. *)
Lemma edge_round_cases (rec : normalizeRec_t) (str : string) (strLen offs : size_t)
    (bPartialMatch : bool) (prs : ln_parser_t ln_pdag) (st st' : loop_state) :
  edge_round P ctx rec str strLen offs bPartialMatch prs st = Some st' ->
  exists t : try_out,
    tryParser_with P ctx rec str strLen offs (ls_parsed st) JNull prs = Some t
    /\ ((to_r t <> 0
         /\ st' = watermark_update
                    (mk_loop_state (ls_r st) (ls_parsedTo st) (to_parsed t) (ls_pParsedTo st)
                       (ls_json st) (ls_endNode st)))
        \/ (to_r t = 0
            /\ exists out : norm_out,
                 rec (node prs) str strLen (size_t_wrap (to_offs t + to_parsed t)) bPartialMatch
                   (size_t_wrap (to_offs t + to_parsed t)) (ls_json st) (ls_endNode st) = Some out
                 /\ ((no_r out <> 0
                      /\ st' = watermark_update
                                 (mk_loop_state (no_r out) (no_parsedTo out) (to_parsed t)
                                    (ls_pParsedTo st) (no_json out) (no_endNode out)))
                     \/ (no_r out = 0
                         /\ st' = watermark_update
                                    (mk_loop_state 0 (no_parsedTo out) (to_parsed t)
                                       (ls_pParsedTo st)
                                       (snd (fixJSON (to_value t) (no_json out) prs))
                                       (no_endNode out)))))).
Proof.
  unfold edge_round.
  destruct (tryParser_with P ctx rec str strLen offs (ls_parsed st) JNull prs) as [t|] eqn:Ht;
    [|discriminate].
  cbn [mbind option_bind].
  destruct (to_r t =? 0) eqn:Hr.
  - apply Z.eqb_eq in Hr.
    destruct (rec (node prs) str strLen (size_t_wrap (to_offs t + to_parsed t)) bPartialMatch
                (size_t_wrap (to_offs t + to_parsed t)) (ls_json st) (ls_endNode st))
      as [out|] eqn:Hout; [|discriminate].
    cbn [mbind option_bind].
    destruct (no_r out =? 0) eqn:Ho.
    + apply Z.eqb_eq in Ho.
      pose proof (fixJSON_status (to_value t) (no_json out) prs) as Hf.
      destruct (fixJSON (to_value t) (no_json out) prs) as [r js] eqn:Hfix.
      simpl in Hf. subst r.
      cbn [mbind option_bind]. intros [= <-].
      exists t. split; [reflexivity|]. right. split; [assumption|].
      exists out. split; [assumption|]. right. split; [assumption|].
      rewrite Hfix. reflexivity.
    + apply Z.eqb_neq in Ho. cbn [mbind option_bind]. intros [= <-].
      exists t. split; [reflexivity|]. right. split; [assumption|].
      exists out. split; [assumption|]. left. split; [assumption|]. reflexivity.
  - apply Z.eqb_neq in Hr. cbn [mbind option_bind]. intros [= <-].
    exists t. split; [reflexivity|]. left. split; [assumption|]. reflexivity.
Qed.

(** A round ends with a zero status exactly when the edge matches. *)
Lemma edge_round_matches (rec : normalizeRec_t) (str : string) (strLen offs : size_t)
    (bPartialMatch : bool) (prs : ln_parser_t ln_pdag) (st st' : loop_state) :
  edge_round P ctx rec str strLen offs bPartialMatch prs st = Some st' ->
  ls_r st <> 0 ->
  (ls_r st' = 0 <-> edge_matches P ctx rec str strLen offs bPartialMatch prs st).
Proof.
  intros Hround Hst.
  destruct (edge_round_cases _ _ _ _ _ _ _ _ Hround)
    as (t & Ht & [[Hr ->]|(Hr & out & Hout & [[Ho ->]|[Ho ->]])]);
    rewrite (proj1 (watermark_update_fields _)); cbn [ls_r]; unfold edge_matches.
  - split; [contradiction|]. intros (t' & out' & Ht' & Hr' & _). congruence.
  - split; [contradiction|]. intros (t' & out' & Ht' & Hr' & Hout' & Ho').
    assert (t' = t) by congruence. subst t'. congruence.
  - split; [|reflexivity]. intros _. exists t, out. auto.
Qed.

(** An edge that matches makes the round end with a zero status. *)
Lemma edge_matches_round (rec : normalizeRec_t) (str : string) (strLen offs : size_t)
    (bPartialMatch : bool) (prs : ln_parser_t ln_pdag) (st : loop_state) :
  edge_matches P ctx rec str strLen offs bPartialMatch prs st ->
  exists st', edge_round P ctx rec str strLen offs bPartialMatch prs st = Some st'
              /\ ls_r st' = 0.
Proof.
  intros (t & out & Ht & Hr & Hout & Ho). unfold edge_round.
  rewrite Ht. cbn [mbind option_bind].
  apply Z.eqb_eq in Hr. rewrite Hr. rewrite Hout. cbn [mbind option_bind].
  apply Z.eqb_eq in Ho. rewrite Ho.
  pose proof (fixJSON_status (to_value t) (no_json out) prs) as Hf.
  destruct (fixJSON (to_value t) (no_json out) prs) as [r js]. simpl in Hf. subst r.
  cbn [mbind option_bind]. eexists. split; [reflexivity|].
  rewrite (proj1 (watermark_update_fields _)). reflexivity.
Qed.

Lemma edge_loop_app (rec : normalizeRec_t) (str : string) (strLen offs : size_t)
    (bPartialMatch : bool) (l1 l2 : list (ln_parser_t ln_pdag)) :
  forall st0 st1 : loop_state,
    edge_loop P ctx rec str strLen offs bPartialMatch l1 st0 = Some st1 ->
    ls_r st1 <> 0 ->
    edge_loop P ctx rec str strLen offs bPartialMatch (l1 ++ l2) st0
    = edge_loop P ctx rec str strLen offs bPartialMatch l2 st1.
Proof.
  induction l1 as [|prs l1 IH]; intros st0 st1 Hl Hr; cbn [edge_loop app] in *.
  - injection Hl as ->. reflexivity.
  - destruct (ls_r st0 =? 0) eqn:H0.
    + injection Hl as ->. apply Z.eqb_eq in H0. contradiction.
    + destruct (edge_round P ctx rec str strLen offs bPartialMatch prs st0) as [st'|];
        cbn [mbind option_bind] in *; [|discriminate].
      apply IH; assumption.
Qed.

Lemma edge_loop_stop (rec : normalizeRec_t) (str : string) (strLen offs : size_t)
    (bPartialMatch : bool) (l : list (ln_parser_t ln_pdag)) (st : loop_state) :
  ls_r st = 0 -> edge_loop P ctx rec str strLen offs bPartialMatch l st = Some st.
Proof.
  intros H. destruct l; cbn [edge_loop]; [reflexivity|].
  apply Z.eqb_eq in H. rewrite H. reflexivity.
Qed.

(** The loop over a list of edges either tries them all without a match or
    stops right after the first edge that matches. *)
Lemma edge_loop_first_match (rec : normalizeRec_t) (str : string) (strLen offs : size_t)
    (bPartialMatch : bool) (l : list (ln_parser_t ln_pdag)) :
  forall st0 st : loop_state,
    edge_loop P ctx rec str strLen offs bPartialMatch l st0 = Some st ->
    ls_r st0 <> 0 ->
    (ls_r st <> 0
     /\ forall tried prs rest st1,
          l = (tried ++ prs :: rest)%list ->
          edges_tried P ctx rec str strLen offs bPartialMatch tried st0 st1 ->
          ~ edge_matches P ctx rec str strLen offs bPartialMatch prs st1)
    \/ (ls_r st = 0
        /\ exists tried prs rest st1,
             l = (tried ++ prs :: rest)%list
             /\ edges_tried P ctx rec str strLen offs bPartialMatch tried st0 st1
             /\ edge_matches P ctx rec str strLen offs bPartialMatch prs st1
             /\ edge_round P ctx rec str strLen offs bPartialMatch prs st1 = Some st).
Proof.
  induction l as [|prs l IH]; intros st0 st Hl H0; cbn [edge_loop] in Hl.
  - injection Hl as <-. left. split; [assumption|].
    intros [|? ?] ? ? ? Heq; discriminate.
  - assert (Hz : (ls_r st0 =? 0) = false) by (apply Z.eqb_neq; assumption).
    rewrite Hz in Hl.
    destruct (edge_round P ctx rec str strLen offs bPartialMatch prs st0) as [st'|] eqn:Hround;
      cbn [mbind option_bind] in Hl; [|discriminate].
    pose proof (edge_round_matches _ _ _ _ _ _ _ _ Hround H0) as Hm.
    destruct (Z.eq_dec (ls_r st') 0) as [Hr'|Hr'].
    + rewrite (edge_loop_stop _ _ _ _ _ _ _ Hr') in Hl. injection Hl as <-.
      right. split; [assumption|]. exists [], prs, l, st0.
      split; [reflexivity|]. split; [split; [reflexivity|assumption]|].
      split; [apply Hm; assumption|assumption].
    + destruct (IH st' st Hl Hr') as [[Hr Hnone]|(Hr & tried & q & rest & st1 & Heq & Htried & Hq & Hrq)].
      * left. split; [assumption|]. intros tried q rest st1 Heq [Htried Hr1] Hq.
        destruct tried as [|p0 tried]; cbn [app] in Heq; injection Heq as <- ->.
        -- cbn [edge_loop] in Htried. injection Htried as <-.
           apply Hr'. apply Hm. assumption.
        -- cbn [edge_loop] in Htried. rewrite Hz, Hround in Htried.
           cbn [mbind option_bind] in Htried.
           apply (Hnone tried q rest st1); [reflexivity|split; assumption|assumption].
      * right. split; [assumption|]. exists (prs :: tried), q, rest, st1.
        split; [rewrite Heq; reflexivity|]. split; [|split; assumption].
        destruct Htried as [Htried Hr1]. split; [|assumption].
        cbn [edge_loop]. rewrite Hz, Hround. cbn [mbind option_bind]. assumption.
Qed.

(** The equation of [ln_normalizeRec]. *)
Lemma ln_normalizeRec_unfold (fuel : nat) (dag : ln_pdag) (str : string)
    (strLen offs : size_t) (bPartialMatch : bool) (pParsedTo : size_t) (js : json)
    (endNode : option ln_pdag) :
  ln_normalizeRec P ctx (S fuel) dag str strLen offs bPartialMatch pParsedTo js endNode =
    st ← edge_loop P ctx (ln_normalizeRec P ctx fuel) str strLen offs bPartialMatch (parsers dag)
           (mk_loop_state LN_WRONGPARSER pParsedTo 0 pParsedTo js endNode);
    Some (if terminal_here dag strLen offs bPartialMatch
          then mk_norm_out 0 (ls_pParsedTo st) (ls_json st) (Some dag)
          else mk_norm_out (ls_r st) (ls_pParsedTo st) (ls_json st) (ls_endNode st)).
Proof.
  cbn [ln_normalizeRec]. unfold normalizeRec_body, terminal_here.
  destruct (edge_loop _ _ _ _ _ _ _ _ _); cbn [mbind option_bind]; [|reflexivity].
  destruct (isTerminal dag && ((offs =? strLen) || bPartialMatch)); reflexivity.
Qed.

End NormalizerProperties.

(** Reads the fields of the state a round ends with. *)
Ltac watermark_fields :=
  match goal with
  | |- context [watermark_update ?s] =>
      let Hw := fresh "Hw" in
      pose proof (watermark_update_fields s) as Hw;
      destruct Hw as (?Hwr & ?Hwj & ?Hwe & ?Hwt & ?Hwp & ?Hwm);
      rewrite ?Hwr, ?Hwj, ?Hwe, ?Hwt, ?Hwp, ?Hwm
  end.

Section NormalizerResults.

Context (P : ln_plugins) (ctx : ln_ctx).

(** C2, as the code has it.  The recursive normalizer tries the edges of a
    node in list order and stops at the first edge whose parser succeeds and
    whose subtree succeeds: when an edge matches after the edges before it
    have been tried without a match, the loop ends with the state of that
    round and the edges behind it are not tried.  After the loop the call
    succeeds with the current node as end node whenever the node is terminal
    and the input is used up or a partial match is asked for; otherwise it
    returns the status the loop ended with, which is zero exactly when some
    edge matched, and nonzero when none did.

    What the call leaves behind is what the loop leaves behind.  When an
    edge matched, the call returns status 0, the watermark of the subtree
    below that edge (or the one the edges before it left, if that is
    larger), the result object of that subtree with the value of the edge
    folded in by [fixJSON], and, at a node that does not end the walk, the
    end node set below the matching edge.  When every edge has been tried
    without a match, it returns what the last round left: its status, its
    watermark, its result object and its end node. *)
Theorem ln_normalizeRec_first_match_wins
    (fuel : nat) (dag : ln_pdag) (str : string) (strLen offs : size_t)
    (bPartialMatch : bool) (pParsedTo : size_t) (js : json) (endNode : option ln_pdag)
    (out : norm_out) :
  ln_normalizeRec P ctx (S fuel) dag str strLen offs bPartialMatch pParsedTo js endNode
  = Some out ->
  let rec := ln_normalizeRec P ctx fuel in
  let st0 := mk_loop_state LN_WRONGPARSER pParsedTo 0 pParsedTo js endNode in
  (forall tried prs rest st1,
      parsers dag = (tried ++ prs :: rest)%list ->
      edges_tried P ctx rec str strLen offs bPartialMatch tried st0 st1 ->
      edge_matches P ctx rec str strLen offs bPartialMatch prs st1 ->
      exists st',
        edge_round P ctx rec str strLen offs bPartialMatch prs st1 = Some st'
        /\ ls_r st' = 0
        /\ edge_loop P ctx rec str strLen offs bPartialMatch (parsers dag) st0 = Some st')
  /\ (terminal_here dag strLen offs bPartialMatch = true ->
      no_r out = 0 /\ no_endNode out = Some dag)
  /\ (terminal_here dag strLen offs bPartialMatch = false ->
      (no_r out = 0 <->
       exists tried prs rest st1,
         parsers dag = (tried ++ prs :: rest)%list
         /\ edges_tried P ctx rec str strLen offs bPartialMatch tried st0 st1
         /\ edge_matches P ctx rec str strLen offs bPartialMatch prs st1))
  /\ (forall tried prs rest st1 t sub,
        parsers dag = (tried ++ prs :: rest)%list ->
        edges_tried P ctx rec str strLen offs bPartialMatch tried st0 st1 ->
        tryParser_with P ctx rec str strLen offs (ls_parsed st1) JNull prs = Some t ->
        to_r t = 0 ->
        rec (node prs) str strLen (size_t_wrap (to_offs t + to_parsed t)) bPartialMatch
          (size_t_wrap (to_offs t + to_parsed t)) (ls_json st1) (ls_endNode st1) = Some sub ->
        no_r sub = 0 ->
        out = mk_norm_out 0 (Z.max (no_parsedTo sub) (ls_pParsedTo st1))
                (snd (fixJSON (to_value t) (no_json sub) prs))
                (if terminal_here dag strLen offs bPartialMatch
                 then Some dag else no_endNode sub))
  /\ (forall st,
        edges_tried P ctx rec str strLen offs bPartialMatch (parsers dag) st0 st ->
        out = mk_norm_out (if terminal_here dag strLen offs bPartialMatch then 0 else ls_r st)
                (ls_pParsedTo st) (ls_json st)
                (if terminal_here dag strLen offs bPartialMatch
                 then Some dag else ls_endNode st)).
Proof.
  intros Hrun rec st0. rewrite ln_normalizeRec_unfold in Hrun. fold rec st0 in Hrun.
  destruct (edge_loop P ctx rec str strLen offs bPartialMatch (parsers dag) st0)
    as [st|] eqn:Hloop; cbn [mbind option_bind] in Hrun; [|discriminate].
  injection Hrun as <-.
  assert (Hfirst : forall tried prs rest st1,
             parsers dag = (tried ++ prs :: rest)%list ->
             edges_tried P ctx rec str strLen offs bPartialMatch tried st0 st1 ->
             edge_matches P ctx rec str strLen offs bPartialMatch prs st1 ->
             exists st',
               edge_round P ctx rec str strLen offs bPartialMatch prs st1 = Some st'
               /\ ls_r st' = 0
               /\ edge_loop P ctx rec str strLen offs bPartialMatch (parsers dag) st0
                  = Some st').
  { intros tried prs rest st1 Heq [Htried Hr1] Hm.
    destruct (edge_matches_round P ctx _ _ _ _ _ _ _ Hm) as (st' & Hround & Hr').
    exists st'. split; [assumption|]. split; [assumption|].
    rewrite Heq. rewrite (edge_loop_app P ctx _ _ _ _ _ _ _ _ _ Htried Hr1).
    cbn [edge_loop]. apply Z.eqb_neq in Hr1. rewrite Hr1, Hround.
    cbn [mbind option_bind]. apply edge_loop_stop. assumption. }
  split; [|split; [|split; [|split]]].
  - intros tried prs rest st1 Heq Htried Hm.
    destruct (Hfirst tried prs rest st1 Heq Htried Hm) as (st' & H1 & H2 & H3).
    exists st'. rewrite <- Hloop. auto.
  - intros ->. split; reflexivity.
  - intros ->. cbn [no_r].
    assert (H0 : ls_r st0 <> 0) by (subst st0; apply LN_WRONGPARSER_nonzero).
    destruct (edge_loop_first_match P ctx _ _ _ _ _ _ _ _ Hloop H0)
      as [[Hr Hnone]|(Hr & tried & prs & rest & st1 & Heq & Htried & Hm & _)].
    + split; [contradiction|].
      intros (tried & prs & rest & st1 & Heq & Htried & Hm).
      exfalso. apply (Hnone tried prs rest st1); assumption.
    + split; [|intros _; assumption].
      intros _. exists tried, prs, rest, st1. auto.
  - intros tried prs rest st1 t sub Heq Htried Ht Hr Hsub Ho.
    assert (Hm : edge_matches P ctx rec str strLen offs bPartialMatch prs st1)
      by (exists t, sub; auto).
    destruct (Hfirst tried prs rest st1 Heq Htried Hm) as (st' & Hround & Hr' & Hl').
    rewrite Hloop in Hl'. injection Hl' as <-.
    revert Hround. unfold edge_round. rewrite Ht. cbn [mbind option_bind].
    apply Z.eqb_eq in Hr. rewrite Hr, Hsub. cbn [mbind option_bind].
    apply Z.eqb_eq in Ho. rewrite Ho.
    pose proof (fixJSON_status (to_value t) (no_json sub) prs) as Hf.
    destruct (fixJSON (to_value t) (no_json sub) prs) as [r0 js0]. cbn [fst snd] in *.
    subst r0. cbn [mbind option_bind]. intros [= <-].
    watermark_fields. cbn [ls_r ls_json ls_endNode ls_parsedTo ls_pParsedTo].
    destruct (terminal_here dag strLen offs bPartialMatch); reflexivity.
  - intros st' [Hl' _]. rewrite Hloop in Hl'. injection Hl' as <-.
    destruct (terminal_here dag strLen offs bPartialMatch); reflexivity.
Qed.

(** The end node of a successful call is terminal. *)
Lemma edge_loop_endNode (rec : normalizeRec_t) (str : string) (strLen offs : size_t)
    (bPartialMatch : bool) (l : list (ln_parser_t ln_pdag)) :
  (forall dag s len o b p j e out,
      rec dag s len o b p j e = Some out -> no_r out = 0 -> ends_at_terminal (no_endNode out)) ->
  forall st0 st : loop_state,
    edge_loop P ctx rec str strLen offs bPartialMatch l st0 = Some st ->
    (ls_r st0 = 0 -> ends_at_terminal (ls_endNode st0)) ->
    ls_r st = 0 -> ends_at_terminal (ls_endNode st).
Proof.
  intros Hrec. induction l as [|prs l IH]; intros st0 st Hl Hinv Hr; cbn [edge_loop] in Hl.
  - injection Hl as <-. auto.
  - destruct (ls_r st0 =? 0) eqn:H0.
    + injection Hl as <-. auto.
    + apply Z.eqb_neq in H0.
      destruct (edge_round P ctx rec str strLen offs bPartialMatch prs st0) as [st'|] eqn:Hround;
        cbn [mbind option_bind] in Hl; [|discriminate].
      apply (IH st' st Hl); [|assumption].
      destruct (edge_round_cases P ctx _ _ _ _ _ _ _ _ Hround)
        as (t & Ht & [[Hrt ->]|(Hrt & out & Hout & [[Ho ->]|[Ho ->]])]);
        watermark_fields; cbn [ls_r ls_endNode]; intros Hz; try contradiction.
      eapply Hrec; eassumption.
Qed.

Lemma ln_normalizeRec_endNode (fuel : nat) :
  forall dag str strLen offs bPartialMatch pParsedTo js endNode out,
    ln_normalizeRec P ctx fuel dag str strLen offs bPartialMatch pParsedTo js endNode = Some out ->
    no_r out = 0 -> ends_at_terminal (no_endNode out).
Proof.
  induction fuel as [|fuel IH]; intros dag str strLen offs b p js e out Hrun Hr.
  - discriminate.
  - rewrite ln_normalizeRec_unfold in Hrun.
    destruct (edge_loop _ _ _ _ _ _ _ _ _) as [st|] eqn:Hloop;
      cbn [mbind option_bind] in Hrun; [|discriminate].
    injection Hrun as <-.
    destruct (terminal_here dag strLen offs b) eqn:Hterm; cbn [no_r no_endNode] in *.
    + exists dag. split; [reflexivity|].
      unfold terminal_here in Hterm. apply andb_true_iff in Hterm. tauto.
    + apply (edge_loop_endNode _ _ _ _ _ _ IH _ _ Hloop); [|assumption].
      cbn [ls_r]. intros Habs. exfalso. apply LN_WRONGPARSER_nonzero. assumption.
Qed.

(** The watermark is only ever raised. *)
Lemma edge_loop_watermark (rec : normalizeRec_t) (str : string) (strLen offs : size_t)
    (bPartialMatch : bool) (l : list (ln_parser_t ln_pdag)) :
  forall st0 st : loop_state,
    edge_loop P ctx rec str strLen offs bPartialMatch l st0 = Some st ->
    ls_pParsedTo st0 <= ls_pParsedTo st.
Proof.
  induction l as [|prs l IH]; intros st0 st Hl; cbn [edge_loop] in Hl.
  - injection Hl as <-. lia.
  - destruct (ls_r st0 =? 0).
    + injection Hl as <-. lia.
    + destruct (edge_round P ctx rec str strLen offs bPartialMatch prs st0) as [st'|] eqn:Hround;
        cbn [mbind option_bind] in Hl; [|discriminate].
      specialize (IH st' st Hl).
      assert (ls_pParsedTo st0 <= ls_pParsedTo st'); [|lia].
      destruct (edge_round_cases P ctx _ _ _ _ _ _ _ _ Hround)
        as (t & Ht & [[Hrt ->]|(Hrt & out & Hout & [[Ho ->]|[Ho ->]])]);
        watermark_fields; cbn [ls_pParsedTo ls_parsedTo]; lia.
Qed.

Lemma ln_normalizeRec_watermark_mono (fuel : nat) (dag : ln_pdag) (str : string)
    (strLen offs : size_t) (bPartialMatch : bool) (pParsedTo : size_t) (js : json)
    (endNode : option ln_pdag) (out : norm_out) :
  ln_normalizeRec P ctx fuel dag str strLen offs bPartialMatch pParsedTo js endNode = Some out ->
  pParsedTo <= no_parsedTo out.
Proof.
  destruct fuel as [|fuel]; [discriminate|].
  rewrite ln_normalizeRec_unfold.
  destruct (edge_loop _ _ _ _ _ _ _ _ _) as [st|] eqn:Hloop;
    cbn [mbind option_bind]; [|discriminate].
  intros [= <-]. apply edge_loop_watermark in Hloop. cbn [ls_pParsedTo] in Hloop.
  destruct (terminal_here dag strLen offs bPartialMatch); cbn [no_parsedTo]; lia.
Qed.

(** A call that fails leaves the result object as it found it. *)
Lemma edge_loop_failure_json (rec : normalizeRec_t) (str : string) (strLen offs : size_t)
    (bPartialMatch : bool) (l : list (ln_parser_t ln_pdag)) :
  (forall dag s len o b p j e out,
      rec dag s len o b p j e = Some out -> no_r out <> 0 -> no_json out = j) ->
  forall st0 st : loop_state,
    edge_loop P ctx rec str strLen offs bPartialMatch l st0 = Some st ->
    ls_r st <> 0 -> ls_json st = ls_json st0.
Proof.
  intros Hrec. induction l as [|prs l IH]; intros st0 st Hl Hr; cbn [edge_loop] in Hl.
  - injection Hl as <-. reflexivity.
  - destruct (ls_r st0 =? 0) eqn:H0.
    + injection Hl as <-. reflexivity.
    + destruct (edge_round P ctx rec str strLen offs bPartialMatch prs st0) as [st'|] eqn:Hround;
        cbn [mbind option_bind] in Hl; [|discriminate].
      rewrite (IH st' st Hl Hr).
      destruct (Z.eq_dec (ls_r st') 0) as [Hz|Hz].
      { rewrite (edge_loop_stop P ctx _ _ _ _ _ _ _ Hz) in Hl. injection Hl as <-. contradiction. }
      revert Hz.
      destruct (edge_round_cases P ctx _ _ _ _ _ _ _ _ Hround)
        as (t & Ht & [[Hrt ->]|(Hrt & out & Hout & [[Ho ->]|[Ho ->]])]);
        watermark_fields; cbn [ls_r ls_json]; intros Hz.
      * reflexivity.
      * eapply Hrec; eassumption.
      * contradiction.
Qed.

Lemma ln_normalizeRec_failure_json (fuel : nat) :
  forall dag str strLen offs bPartialMatch pParsedTo js endNode out,
    ln_normalizeRec P ctx fuel dag str strLen offs bPartialMatch pParsedTo js endNode = Some out ->
    no_r out <> 0 -> no_json out = js.
Proof.
  induction fuel as [|fuel IH]; intros dag str strLen offs b p js e out Hrun Hr.
  - discriminate.
  - rewrite ln_normalizeRec_unfold in Hrun.
    destruct (edge_loop _ _ _ _ _ _ _ _ _) as [st|] eqn:Hloop;
      cbn [mbind option_bind] in Hrun; [|discriminate].
    injection Hrun as <-.
    destruct (terminal_here dag strLen offs b); cbn [no_r no_json] in *; [contradiction|].
    apply (edge_loop_failure_json _ _ _ _ _ _ IH _ _ Hloop Hr).
Qed.

(** C9. Whenever the recursive normalizer returns status 0, the end node
    it has set is a terminal node; hence the test of the terminal flag that
    [ln_normalize] adds to a zero status never fails, and a successful
    normalization takes the branch that finalizes the event of that terminal
    node. *)
Theorem ln_normalizeRec_success_is_terminal
    (fuel : nat) (dag : ln_pdag) (str : string) (strLen offs : size_t)
    (bPartialMatch : bool) (pParsedTo : size_t) (js : json) (endNode : option ln_pdag)
    (out : norm_out) :
  ln_normalizeRec P ctx fuel dag str strLen offs bPartialMatch pParsedTo js endNode = Some out ->
  no_r out = 0 ->
  exists n : ln_pdag,
    no_endNode out = Some n /\ isTerminal n = true
    /\ forall json_p : json,
         dag = pdag ctx -> offs = 0 -> bPartialMatch = false -> pParsedTo = 0 ->
         endNode = None ->
         js = (if json_is_null json_p then json_object_new_object else json_p) ->
         ln_normalize P ctx fuel str strLen json_p = Some (finalize_event P n (no_json out)).
Proof.
  intros Hrun Hr.
  destruct (ln_normalizeRec_endNode _ _ _ _ _ _ _ _ _ _ Hrun Hr) as (n & Hn & Hterm).
  exists n. split; [assumption|]. split; [assumption|].
  intros json_p -> -> -> -> -> ->. unfold ln_normalize. rewrite Hrun.
  cbn [mbind option_bind]. apply Z.eqb_eq in Hr. rewrite Hr, Hn.
  cbn [mbind option_bind]. rewrite Hterm. reflexivity.
Qed.

End NormalizerResults.

(** ** Folding values into the result *)

(** Adding every entry of [m] to an object, key by key. *)
Lemma fold_object_add (o m : gmap string json) :
  map_fold (fun key val acc => json_object_object_add acc key val) (JObject o) m
  = JObject (m ∪ o).
Proof.
  apply (map_fold_weak_ind
           (fun (r : json) (m : gmap string json) => r = JObject (m ∪ o))).
  - rewrite (left_id_L ∅ (∪)). reflexivity.
  - intros i x m' r _ ->. cbn [json_object_object_add].
    rewrite insert_union_l. reflexivity.
Qed.

(** C7. The fold of a value into the result follows three rules by the
    name of the edge.  For the name "-" a built-in parser is called with a
    NULL value pointer, so that no value comes back, and whatever value there
    is (a user-defined type always builds one) is dropped: the result is left
    as it is.  For the name "." and a value that is an object, every key of
    the value is added to the result at the current level, the entries of the
    value replacing those the result already had; a value that is not an
    object is attached under the key ".".  For any other name the value is
    attached under that name.  The status is 0 in every case. *)
Theorem fixJSON_three_rules
    (P : ln_plugins) (ctx : ln_ctx) (value : json) (o : gmap string json)
    (prs : ln_parser_t ln_pdag) :
  fst (fixJSON value (JObject o) prs) = 0
  /\ (name prs = "-" ->
      snd (fixJSON value (JObject o) prs) = JObject o
      /\ forall rec str strLen offs parsed info,
           prsid prs <> PRS_CUSTOM_TYPE ->
           parser_lookup_table P !! prsid prs = Some info ->
           tryParser_with P ctx rec str strLen offs parsed JNull prs
           = Some (mk_try_out
                     (po_r (parser info str strLen offs (parser_data prs) parsed false))
                     (po_offs (parser info str strLen offs (parser_data prs) parsed false))
                     (po_parsed (parser info str strLen offs (parser_data prs) parsed false))
                     JNull))
  /\ (name prs = "." ->
      (forall m : gmap string json,
          value = JObject m ->
          snd (fixJSON value (JObject o) prs) = JObject (m ∪ o)
          /\ forall key : string,
               json_object_object_get (snd (fixJSON value (JObject o) prs)) key
               = match m !! key with Some v => Some v | None => o !! key end)
      /\ (json_is_object value = false ->
          snd (fixJSON value (JObject o) prs) = JObject (<["." := value]> o)))
  /\ (name prs <> "-" -> name prs <> "." ->
      snd (fixJSON value (JObject o) prs) = JObject (<[name prs := value]> o)).
Proof.
  split; [apply fixJSON_status|]. split; [|split].
  - intros Hn. split.
    + unfold fixJSON. rewrite Hn. reflexivity.
    + intros rec str strLen offs parsed info Hid Hinfo. unfold tryParser_with.
      apply Nat.eqb_neq in Hid. rewrite Hid, Hinfo, Hn. reflexivity.
  - intros Hn. split.
    + intros m ->. unfold fixJSON. rewrite Hn. cbn [streq String.eqb Ascii.eqb Bool.eqb snd].
      rewrite fold_object_add. split; [reflexivity|].
      intros key. cbn [json_object_object_get]. rewrite lookup_union.
      destruct (m !! key), (o !! key); reflexivity.
    + intros Hobj. unfold fixJSON. rewrite Hn. cbn [streq String.eqb Ascii.eqb Bool.eqb].
      destruct value; try reflexivity. discriminate.
  - intros H1 H2. unfold fixJSON, streq.
    apply String.eqb_neq in H1. apply String.eqb_neq in H2. rewrite H1, H2. reflexivity.
Qed.

(** ** The entry point *)

Lemma string_take_length (s : string) : string_take (String.length s) s = s.
Proof. induction s as [|c s IH]; simpl; [reflexivity|]. rewrite IH. reflexivity. Qed.

Lemma until_nul_no_nul (s : string) : has_nul s = false -> until_nul s = s.
Proof.
  induction s as [|c s IH]; simpl; [reflexivity|]. intros H.
  apply orb_false_iff in H as [Hc Hs]. rewrite Hc, IH by assumption. reflexivity.
Qed.

(** A buffer without a NUL byte is copied whole. *)
Lemma strndup_buffer (str : string) (strLen : size_t) :
  is_buffer str strLen -> has_nul str = false -> strndup str strLen = str.
Proof.
  unfold is_buffer, strndup. intros -> Hn. rewrite Nat2Z.id, string_take_length.
  apply until_nul_no_nul. assumption.
Qed.

Lemma addUnparsedField_fields (str : string) (strLen offs : size_t) (o : gmap string json)
    (r : Z) (js : json) :
  addUnparsedField str strLen offs (JObject o) = Some (r, js) ->
  json_object_object_get js ORIGINAL_MSG_KEY = Some (JString (strndup str strLen))
  /\ json_object_object_get js UNPARSED_DATA_KEY
     = Some (JString (string_drop (Z.to_nat offs) (strndup str strLen))).
Proof.
  unfold addUnparsedField.
  destruct ((0 <=? offs) && (offs <=? Z.of_nat (String.length (strndup str strLen))));
    [|discriminate].
  intros [= <- <-]. cbn [json_object_object_add json_object_object_get]. split.
  - rewrite lookup_insert_ne by discriminate. apply lookup_insert_eq.
  - apply lookup_insert_eq.
Qed.

Lemma finalize_event_status (P : ln_plugins) (endNode : ln_pdag) (js : json) :
  annotator_succeeds P -> fst (finalize_event P endNode js) = 0.
Proof.
  intros Ha. unfold finalize_event. destruct (json_is_null (tags endNode)); [reflexivity|].
  specialize (Ha (json_object_object_add js "event.tags" (tags endNode)) (tags endNode)).
  destruct (ln_annotate P _ _) as [r js2]. simpl in Ha. subst r. reflexivity.
Qed.

(** C4, as the code has it.  Given that the annotator reports success, that
    the input buffer has no NUL byte, that the recursive normalizer returns
    and that, where it fails, it leaves its final watermark inside the input,
    [ln_normalize] returns: with status 0 exactly when the recursive
    normalizer reached a terminal node, and otherwise with the nonzero status
    of the recursive normalizer and a result object that has the field
    originalmsg with the whole input and the field unparsed-data with the
    suffix of the input that starts at the final watermark. *)
Theorem ln_normalize_status_and_unparsed
    (P : ln_plugins) (ctx : ln_ctx) (fuel : nat) (str : string) (strLen : size_t)
    (json_p : json) (out : norm_out) :
  annotator_succeeds P ->
  is_buffer str strLen -> has_nul str = false ->
  json_is_null json_p || json_is_object json_p = true ->
  ln_normalizeRec P ctx fuel (pdag ctx) str strLen 0 false 0
    (if json_is_null json_p then json_object_new_object else json_p) None = Some out ->
  (no_r out <> 0 -> 0 <= no_parsedTo out <= strLen) ->
  exists (r : Z) (js : json),
    ln_normalize P ctx fuel str strLen json_p = Some (r, js)
    /\ (r = 0 <-> no_r out = 0 /\ ends_at_terminal (no_endNode out))
    /\ (r <> 0 ->
        r = no_r out
        /\ json_object_object_get js ORIGINAL_MSG_KEY = Some (JString str)
        /\ json_object_object_get js UNPARSED_DATA_KEY
           = Some (JString (string_drop (Z.to_nat (no_parsedTo out)) str))).
Proof.
  intros Hann Hbuf Hnul Hjs Hrec Hmark.
  unfold ln_normalize. rewrite Hrec. cbn [mbind option_bind].
  destruct (Z.eq_dec (no_r out) 0) as [Hr|Hr].
  - destruct (ln_normalizeRec_endNode P ctx _ _ _ _ _ _ _ _ _ _ Hrec Hr) as (n & Hn & Hterm).
    apply Z.eqb_eq in Hr as Hrb. rewrite Hrb, Hn.
    cbn [mbind option_bind]. rewrite Hterm.
    pose proof (finalize_event_status P n (no_json out) Hann) as Hf.
    destruct (finalize_event P n (no_json out)) as [r0 js0]. cbn [fst] in Hf. subst r0.
    exists 0, js0. split; [reflexivity|]. split.
    + split; [|intros _; reflexivity]. intros _. split; [assumption|].
      exists n. auto.
    + intros Hne. contradiction.
  - apply Z.eqb_neq in Hr as Hrb. rewrite Hrb.
    pose proof (ln_normalizeRec_failure_json P ctx _ _ _ _ _ _ _ _ _ _ Hrec Hr) as Hj.
    assert (Hobj : exists o, no_json out = JObject o).
    { rewrite Hj. destruct json_p; try discriminate; eexists; reflexivity. }
    destruct Hobj as [o Ho]. rewrite Ho.
    assert (Hadd : exists js',
               addUnparsedField str strLen (no_parsedTo out) (JObject o) = Some (0, js')).
    { unfold addUnparsedField. rewrite (strndup_buffer _ _ Hbuf Hnul).
      destruct (Hmark Hr) as [Hlo Hhi]. unfold is_buffer in Hbuf. rewrite <- Hbuf.
      apply Z.leb_le in Hlo. apply Z.leb_le in Hhi. rewrite Hlo, Hhi. cbn [andb].
      eexists. reflexivity. }
    destruct Hadd as [js' Hadd]. rewrite Hadd. cbn [mbind option_bind].
    exists (no_r out), js'. split; [reflexivity|]. split.
    + split; [contradiction|]. intros [Hz _]. contradiction.
    + intros _. destruct (addUnparsedField_fields _ _ _ _ _ _ Hadd) as [H1 H2].
      rewrite (strndup_buffer _ _ Hbuf Hnul) in H1, H2. auto.
Qed.


(** ** The recursion budget *)

Section Budget.

Context (P : ln_plugins) (ctx : ln_ctx).

Lemma tryParser_with_extends (rec rec' : normalizeRec_t) :
  rec_extends rec rec' ->
  forall str strLen offs parsed value prs t,
    tryParser_with P ctx rec str strLen offs parsed value prs = Some t ->
    tryParser_with P ctx rec' str strLen offs parsed value prs = Some t.
Proof.
  intros Hext str strLen offs parsed value prs t. unfold tryParser_with.
  destruct (Nat.eqb (prsid prs) PRS_CUSTOM_TYPE); [|auto].
  destruct (custType prs) as [i|]; cbn [mbind option_bind]; [|discriminate].
  destruct (type_pdags ctx !! i) as [ct|]; cbn [mbind option_bind]; [|discriminate].
  destruct (rec (tp_pdag ct) str strLen offs true parsed _ None) as [out|] eqn:Hout;
    cbn [mbind option_bind]; [|discriminate].
  rewrite (Hext _ _ _ _ _ _ _ _ _ Hout). auto.
Qed.

Lemma edge_round_extends (rec rec' : normalizeRec_t) :
  rec_extends rec rec' ->
  forall str strLen offs b prs st st',
    edge_round P ctx rec str strLen offs b prs st = Some st' ->
    edge_round P ctx rec' str strLen offs b prs st = Some st'.
Proof.
  intros Hext str strLen offs b prs st st'. unfold edge_round.
  destruct (tryParser_with P ctx rec str strLen offs (ls_parsed st) JNull prs) as [t|] eqn:Ht;
    cbn [mbind option_bind]; [|discriminate].
  rewrite (tryParser_with_extends _ _ Hext _ _ _ _ _ _ _ Ht). cbn [mbind option_bind].
  destruct (to_r t =? 0); [|auto].
  destruct (rec (node prs) str strLen _ b _ (ls_json st) (ls_endNode st)) as [out|] eqn:Hout;
    cbn [mbind option_bind]; [|discriminate].
  rewrite (Hext _ _ _ _ _ _ _ _ _ Hout). auto.
Qed.

Lemma edge_loop_extends (rec rec' : normalizeRec_t) :
  rec_extends rec rec' ->
  forall str strLen offs b l st st',
    edge_loop P ctx rec str strLen offs b l st = Some st' ->
    edge_loop P ctx rec' str strLen offs b l st = Some st'.
Proof.
  intros Hext str strLen offs b l. induction l as [|prs l IH]; intros st st'; cbn [edge_loop].
  - auto.
  - destruct (ls_r st =? 0); [auto|].
    destruct (edge_round P ctx rec str strLen offs b prs st) as [st1|] eqn:Hround;
      cbn [mbind option_bind]; [|discriminate].
    rewrite (edge_round_extends _ _ Hext _ _ _ _ _ _ _ Hround). cbn [mbind option_bind].
    apply IH.
Qed.

Lemma ln_normalizeRec_fuel_S (fuel : nat) :
  rec_extends (ln_normalizeRec P ctx fuel) (ln_normalizeRec P ctx (S fuel)).
Proof.
  induction fuel as [|fuel IH]; intros dag s len o b p j e out Hrun; [discriminate|].
  rewrite ln_normalizeRec_unfold in *.
  destruct (edge_loop P ctx (ln_normalizeRec P ctx fuel) s len o b (parsers dag) _)
    as [st|] eqn:Hloop; cbn [mbind option_bind] in Hrun; [|discriminate].
  rewrite (edge_loop_extends _ _ IH _ _ _ _ _ _ _ Hloop). exact Hrun.
Qed.

(** A result does not depend on the budget that was enough to reach it. *)
Lemma ln_normalizeRec_fuel_mono (fuel fuel' : nat) :
  (fuel <= fuel')%nat ->
  rec_extends (ln_normalizeRec P ctx fuel) (ln_normalizeRec P ctx fuel').
Proof.
  induction 1 as [|fuel' _ IH]; intros dag s len o b p j e out Hrun; [assumption|].
  apply ln_normalizeRec_fuel_S. apply IH. assumption.
Qed.

Lemma types_below_lookup (j n : nat) (T : ln_type_pdag) :
  (j < n)%nat -> type_pdags ctx !! j = Some T ->
  (types_below ctx j + pdag_size (tp_pdag T) <= types_below ctx n)%nat.
Proof.
  unfold types_below. revert j n. induction (type_pdags ctx) as [|t l IH]; intros j n Hlt Hj; [discriminate|].
  destruct n as [|n]; [lia|]. destruct j as [|j]; simpl in *.
  - injection Hj as ->. lia.
  - specialize (IH j n ltac:(lia) Hj). lia.
Qed.

Lemma edges_ok_unfold (n : nat) (dag : ln_pdag) :
  edges_ok P n dag =
    forallb (fun prs =>
               (if Nat.eqb (prsid prs) PRS_CUSTOM_TYPE
                then match custType prs with Some j => Nat.ltb j n | None => false end
                else Nat.ltb (prsid prs) (NPARSERS P))
               && edges_ok P n (node prs))
            (parsers dag).
Proof. destruct dag; reflexivity. Qed.

Lemma edge_loop_total (rec : normalizeRec_t) (str : string) (strLen offs : size_t)
    (b : bool) (l : list (ln_parser_t ln_pdag)) :
  (forall prs, In prs l -> forall st, exists st',
        edge_round P ctx rec str strLen offs b prs st = Some st') ->
  forall st, exists st', edge_loop P ctx rec str strLen offs b l st = Some st'.
Proof.
  induction l as [|prs l IH]; intros Hall st; cbn [edge_loop].
  - eauto.
  - destruct (ls_r st =? 0); [eauto|].
    destruct (Hall prs (or_introl eq_refl) st) as [st1 ->]. cbn [mbind option_bind].
    apply IH. intros q Hq. apply Hall. right. assumption.
Qed.

(** The normalizer returns: when the user-defined types are stratified (a
    type only uses types defined before it) and the ids of the edges are in
    the parser table, a budget of the size of the node plus the sizes of the
    types it may use is enough. *)
Lemma ln_normalizeRec_total (fuel : nat) :
  types_stratified P ctx ->
  forall (n : nat) (dag : ln_pdag),
    (n <= nTypes ctx)%nat -> edges_ok P n dag = true ->
    (pdag_size dag + types_below ctx n <= fuel)%nat ->
    forall str strLen offs b p js e,
    exists out, ln_normalizeRec P ctx fuel dag str strLen offs b p js e = Some out.
Proof.
  intros Hstrat. induction fuel as [|fuel IH]; intros n dag Hn Hok Hfuel str strLen offs b p js e.
  - pose proof (pdag_size_pos dag). lia.
  - rewrite ln_normalizeRec_unfold.
    destruct (edge_loop_total (ln_normalizeRec P ctx fuel) str strLen offs b (parsers dag))
      with (st := mk_loop_state LN_WRONGPARSER p 0 p js e) as [st ->];
      [|cbn [mbind option_bind]; eauto].
    intros prs Hin st.
    rewrite edges_ok_unfold in Hok. rewrite forallb_forall in Hok.
    specialize (Hok prs Hin). apply andb_true_iff in Hok as [Hid Hchild].
    pose proof (pdag_size_child _ _ Hin) as Hsz.
    assert (Htry : exists t, tryParser_with P ctx (ln_normalizeRec P ctx fuel) str strLen offs
                               (ls_parsed st) JNull prs = Some t).
    { unfold tryParser_with. destruct (Nat.eqb (prsid prs) PRS_CUSTOM_TYPE).
      - destruct (custType prs) as [j|]; [|discriminate]. apply Nat.ltb_lt in Hid.
        cbn [mbind option_bind].
        destruct (type_pdags ctx !! j) as [T|] eqn:Hj.
        2:{ apply lookup_ge_None in Hj. unfold nTypes in Hn. lia. }
        cbn [mbind option_bind].
        pose proof (types_below_lookup j n T Hid Hj) as Hb.
        destruct (IH j (tp_pdag T) ltac:(lia) (Hstrat j T Hj) ltac:(lia)
                    str strLen offs true (ls_parsed st)
                    (if json_is_null JNull then json_object_new_object else JNull) None)
          as [out ->].
        cbn [mbind option_bind]. eauto.
      - apply Nat.ltb_lt in Hid.
        destruct (parser_lookup_table P !! prsid prs) as [info|] eqn:Hinfo.
        2:{ apply lookup_ge_None in Hinfo. unfold NPARSERS in Hid. lia. }
        cbn [mbind option_bind]. eauto. }
    destruct Htry as [t Ht]. unfold edge_round. rewrite Ht. cbn [mbind option_bind].
    destruct (to_r t =? 0); [|cbn [mbind option_bind]; eauto].
    destruct (IH n (node prs) Hn Hchild ltac:(lia) str strLen
                (size_t_wrap (to_offs t + to_parsed t)) b
                (size_t_wrap (to_offs t + to_parsed t)) (ls_json st) (ls_endNode st))
      as [out ->].
    cbn [mbind option_bind].
    destruct (no_r out =? 0); [|cbn [mbind option_bind]; eauto].
    destruct (fixJSON (to_value t) (no_json out) prs). cbn [mbind option_bind]. eauto.
Qed.

End Budget.

(** ** The watermark without user-defined types *)

Section Watermark.

Context (P : ln_plugins) (ctx : ln_ctx).

Lemma size_t_wrap_small (z : Z) : 0 <= z < SIZE_MODULUS -> size_t_wrap z = z.
Proof. intros H. unfold size_t_wrap. apply Z.mod_small. assumption. Qed.

Lemma tryParser_with_builtin (rec : normalizeRec_t) (str : string) (strLen offs parsed : size_t)
    (value : json) (prs : ln_parser_t ln_pdag) (t : try_out) :
  Nat.eqb (prsid prs) PRS_CUSTOM_TYPE = false ->
  tryParser_with P ctx rec str strLen offs parsed value prs = Some t ->
  exists info,
    parser_lookup_table P !! prsid prs = Some info
    /\ to_r t = po_r (parser info str strLen offs (parser_data prs) parsed
                       (negb (streq (name prs) "-")))
    /\ to_offs t = po_offs (parser info str strLen offs (parser_data prs) parsed
                              (negb (streq (name prs) "-")))
    /\ to_parsed t = po_parsed (parser info str strLen offs (parser_data prs) parsed
                                  (negb (streq (name prs) "-"))).
Proof.
  intros Hid. unfold tryParser_with. rewrite Hid.
  destruct (parser_lookup_table P !! prsid prs) as [info|]; cbn [mbind option_bind];
    [|discriminate].
  intros [= <-]. exists info. auto.
Qed.

Lemma edges_ok_0_edge (dag : ln_pdag) (prs : ln_parser_t ln_pdag) :
  edges_ok P 0 dag = true -> In prs (parsers dag) ->
  Nat.eqb (prsid prs) PRS_CUSTOM_TYPE = false /\ edges_ok P 0 (node prs) = true.
Proof.
  intros Hok Hin. rewrite edges_ok_unfold in Hok. rewrite forallb_forall in Hok.
  specialize (Hok prs Hin). apply andb_true_iff in Hok as [Hid Hchild].
  split; [|assumption].
  destruct (Nat.eqb (prsid prs) PRS_CUSTOM_TYPE); [|reflexivity].
  destruct (custType prs); discriminate.
Qed.

Lemma edge_round_watermark_inside (rec : normalizeRec_t) (str : string)
    (strLen offs : size_t) (b : bool) (prs : ln_parser_t ln_pdag) (st st' : loop_state) :
  (forall s len o b' p j e out,
      len < SIZE_MODULUS -> 0 <= o <= len -> 0 <= p <= len ->
      rec (node prs) s len o b' p j e = Some out ->
      0 <= no_parsedTo out <= len
      /\ (b' = false -> no_r out = 0 -> o <= p -> no_parsedTo out = len)) ->
  parsers_in_bounds P ->
  Nat.eqb (prsid prs) PRS_CUSTOM_TYPE = false ->
  strLen < SIZE_MODULUS -> 0 <= offs <= strLen ->
  ls_r st <> 0 ->
  watermark_inside strLen b st ->
  edge_round P ctx rec str strLen offs b prs st = Some st' ->
  watermark_inside strLen b st'.
Proof.
  intros Hrec Hpar Hid Hlen Hoffs Hr (Hp & Ht & _) Hround.
  destruct (edge_round_cases P ctx _ _ _ _ _ _ _ _ Hround)
    as (t & Htry & [[Hrt ->]|(Hrt & out & Hout & Hcases)]).
  - unfold watermark_inside. watermark_fields. cbn [ls_pParsedTo ls_parsedTo ls_r].
    split; [lia|]. split; [lia|]. intros _ Habs. contradiction.
  - destruct (tryParser_with_builtin _ _ _ _ _ _ _ _ Hid Htry) as (info & Hinfo & H1 & H2 & H3).
    rewrite H1 in Hrt.
    destruct (Hpar _ _ str strLen offs (parser_data prs) (ls_parsed st)
                (negb (streq (name prs) "-")) Hinfo Hoffs Hrt) as (Ho & Hpd & Hsum).
    rewrite <- H2 in Ho. rewrite <- H3 in Hpd. rewrite <- H2, <- H3 in Hsum.
    rewrite size_t_wrap_small in Hout by lia.
    assert (Hin : 0 <= to_offs t + to_parsed t <= strLen) by lia.
    destruct (Hrec _ _ _ _ _ _ _ _ Hlen Hin Hin Hout) as [Hb Hfull].
    destruct Hcases as [[Ho' ->]|[Ho' ->]];
      unfold watermark_inside; watermark_fields; cbn [ls_pParsedTo ls_parsedTo ls_r].
    + split; [lia|]. split; [lia|]. intros _ Habs. contradiction.
    + split; [lia|]. split; [lia|]. intros Hb' _.
      specialize (Hfull Hb' Ho' ltac:(lia)). lia.
Qed.

(** Where no edge refers to a user-defined type and the parsers keep to
    their contract, the watermark stays inside the input, and a full match
    leaves it at the end of the input. *)
Lemma ln_normalizeRec_watermark_bounds (fuel : nat) :
  parsers_in_bounds P ->
  forall (dag : ln_pdag) (str : string) (strLen offs : size_t) (b : bool)
         (p : size_t) (js : json) (e : option ln_pdag) (out : norm_out),
    edges_ok P 0 dag = true ->
    strLen < SIZE_MODULUS -> 0 <= offs <= strLen -> 0 <= p <= strLen ->
    ln_normalizeRec P ctx fuel dag str strLen offs b p js e = Some out ->
    0 <= no_parsedTo out <= strLen
    /\ (b = false -> no_r out = 0 -> offs <= p -> no_parsedTo out = strLen).
Proof.
  intros Hpar. induction fuel as [|fuel IH];
    intros dag str strLen offs b p js e out Hok Hlen Hoffs Hp Hrun; [discriminate|].
  rewrite ln_normalizeRec_unfold in Hrun.
  destruct (edge_loop P ctx (ln_normalizeRec P ctx fuel) str strLen offs b (parsers dag) _)
    as [st|] eqn:Hloop; cbn [mbind option_bind] in Hrun; [|discriminate].
  injection Hrun as <-.
  assert (Hedges : forall prs, In prs (parsers dag) ->
            Nat.eqb (prsid prs) PRS_CUSTOM_TYPE = false /\ edges_ok P 0 (node prs) = true)
    by (intros prs Hin; apply (edges_ok_0_edge dag); assumption).
  assert (Hinv : watermark_inside strLen b st).
  { assert (H0 : watermark_inside strLen b (mk_loop_state LN_WRONGPARSER p 0 p js e)).
    { unfold watermark_inside. cbn [ls_pParsedTo ls_parsedTo ls_r].
      split; [lia|]. split; [lia|]. intros _ Habs. discriminate. }
    revert Hloop H0 Hedges. generalize (mk_loop_state LN_WRONGPARSER p 0 p js e).
    generalize (parsers dag). intros l. induction l as [|prs l IHl]; intros st0 Hloop H0 Hedges;
      cbn [edge_loop] in Hloop.
    - injection Hloop as <-. assumption.
    - destruct (ls_r st0 =? 0) eqn:Hz.
      + injection Hloop as <-. assumption.
      + apply Z.eqb_neq in Hz.
        destruct (edge_round P ctx (ln_normalizeRec P ctx fuel) str strLen offs b prs st0)
          as [st1|] eqn:Hround; cbn [mbind option_bind] in Hloop; [|discriminate].
        destruct (Hedges prs (or_introl eq_refl)) as [Hid Hchild].
        apply (IHl st1 Hloop).
        * apply (edge_round_watermark_inside (ln_normalizeRec P ctx fuel) str strLen offs b
                   prs st0 st1); try assumption.
          intros s len o b' p' j e' out' Hlen' Ho' Hp' Hrun'.
          apply (IH _ _ _ _ _ _ _ _ _ Hchild Hlen' Ho' Hp' Hrun').
        * intros q Hq. apply Hedges. right. assumption. }
  destruct Hinv as (Hp' & Ht' & Hfull).
  pose proof (edge_loop_watermark P ctx _ _ _ _ _ _ _ _ Hloop) as Hmono.
  cbn [ls_pParsedTo] in Hmono.
  destruct (terminal_here dag strLen offs b) eqn:Hterm; cbn [no_parsedTo no_r].
  - split; [assumption|]. intros -> _ Hop.
    unfold terminal_here in Hterm. apply andb_true_iff in Hterm as [_ Hterm].
    rewrite orb_false_r in Hterm. apply Z.eqb_eq in Hterm. lia.
  - split; [assumption|]. intros Hb Hr _. specialize (Hfull Hb Hr). lia.
Qed.

End Watermark.

(** The literal parser of the examples keeps to the contract. *)

Lemma string_prefix_length (p s : string) :
  string_prefix p s = true -> (String.length p <= String.length s)%nat.
Proof.
  revert s. induction p as [|a p IH]; intros s H; simpl; [lia|].
  destruct s as [|c s]; simpl in *; [discriminate|].
  apply andb_true_iff in H as [_ H]. specialize (IH s H). lia.
Qed.

Lemma string_take_length_le (n : nat) (s : string) :
  (String.length (string_take n s) <= n)%nat.
Proof.
  revert s. induction n as [|n IH]; intros s; simpl; [lia|].
  destruct s as [|c s]; simpl; [lia|]. specialize (IH s). lia.
Qed.

Lemma string_drop_length (n : nat) (s : string) :
  String.length (string_drop n s) = (String.length s - n)%nat.
Proof.
  revert s. induction n as [|n IH]; intros s; simpl; [lia|].
  destruct s as [|c s]; simpl; [reflexivity|]. apply IH.
Qed.

Lemma lit_plugins_in_bounds : parsers_in_bounds lit_plugins.
Proof.
  intros id info str strLen offs d parsed want Hinfo Hoffs.
  assert (Hcases : parser info = ln_parseLiteral \/ parser info = ln_parseNothing).
  { do 30 (destruct id as [|id]; [injection Hinfo as <-; auto|]). discriminate. }
  destruct Hcases as [-> | ->]; [|discriminate].
  unfold ln_parseLiteral.
  destruct ((0 <=? offs) && (offs <=? strLen)
            && string_prefix (lit_payload d)
                 (string_drop (Z.to_nat offs) (string_take (Z.to_nat strLen) str))) eqn:Hc;
    [|discriminate].
  intros _. cbn [po_offs po_parsed].
  apply andb_true_iff in Hc as [_ Hpre]. apply string_prefix_length in Hpre.
  rewrite string_drop_length in Hpre.
  pose proof (string_take_length_le (Z.to_nat strLen) str). lia.
Qed.

(** ** The code on the examples *)

(** Runs the code on closed terms, conjunct by conjunct. *)
Ltac run_code :=
  repeat match goal with |- _ /\ _ => split end;
  vm_compute; reflexivity.

(** C1. The literal path compaction is applied although the node between
    the two literals is terminal, and although a literal has a field name:
    the samples "a" and "ab" give a terminal node between the edges a and b;
    the optimizer fuses the edges and deletes that node, after which the
    input "a", which matched before, no longer matches.  A literal named f
    followed by a literal is fused just as well, which changes the value
    recorded under f. *)
Theorem optLitPathCompact_merges_terminal_node :
  pdag ctx_a_ab
  = mk_pdag [literal_edge "a" (mk_pdag [literal_edge "b" terminal_leaf] true JNull)] false JNull
  /\ pdag (snd (ln_pdagOptimize ctx_a_ab))
     = mk_pdag [literal_edge "ab" terminal_leaf] false JNull
  /\ ln_normalize lit_plugins ctx_a_ab 3 "a" 1 JNull = Some (0, JObject ∅)
  /\ fst <$> ln_normalize lit_plugins (snd (ln_pdagOptimize ctx_a_ab)) 3 "a" 1 JNull
     = Some LN_WRONGPARSER
  /\ pdag ctx_named_literal
     = mk_pdag [mk_parser (mk_pdag [literal_edge "b" terminal_leaf] false JNull)
                  0 "f" PRS_LITERAL None (Some "a")] false JNull
  /\ pdag (snd (ln_pdagOptimize ctx_named_literal))
     = mk_pdag [mk_parser terminal_leaf 0 "f" PRS_LITERAL None (Some "ab")] false JNull
  /\ ln_normalize lit_plugins ctx_named_literal 3 "ab" 2 JNull
     = Some (0, JObject {[ "f" := JString "a" ]})
  /\ ln_normalize lit_plugins (snd (ln_pdagOptimize ctx_named_literal)) 3 "ab" 2 JNull
     = Some (0, JObject {[ "f" := JString "ab" ]}).
Proof. run_code. Qed.

(** C3. The watermark leaves the input when two edges of user-defined
    types follow each other: with the samples "p%u:@T1%" and "p%v:@T2%" (T1
    is "x", T2 is "a") the input "pa" of length 2 fails with the watermark at
    2^64 - 1, so that the unparsed rest is read outside the buffer; the
    context is what the optimizer leaves of it, and without the first sample
    the same input matches with the watermark at 2. *)
Theorem watermark_leaves_input :
  snd (ln_pdagOptimize ctx_two_types) = ctx_two_types
  /\ ln_normalizeRec lit_plugins ctx_two_types 8 (pdag ctx_two_types) "pa" 2 0 false 0
       json_object_new_object None
     = Some (mk_norm_out LN_WRONGPARSER (SIZE_MODULUS - 1) json_object_new_object None)
  /\ 2 < SIZE_MODULUS - 1
  /\ ln_normalize lit_plugins ctx_two_types 8 "pa" 2 JNull = None
  /\ (no_r <$> ln_normalizeRec lit_plugins ctx_second_type_only 8 (pdag ctx_second_type_only)
                 "pa" 2 0 false 0 json_object_new_object None) = Some 0
  /\ (no_parsedTo <$> ln_normalizeRec lit_plugins ctx_second_type_only 8
                        (pdag ctx_second_type_only)
                        "pa" 2 0 false 0 json_object_new_object None) = Some 2.
Proof. run_code. Qed.

(** C6. The length a user-defined type reports is the watermark of the
    walk through the type, not the number of characters the match consumed:
    with the type T of the samples "a", "abX", "abY" and "ac" and the sample
    "%t:@T%bd", the walk through T on the input "abd" ends at the terminal
    node behind the literal a, one character into the input, but [tryParser]
    reports the length 2, because the edge b had matched before its subtree
    failed.  The enclosing walk resumes at offset 2 and the input does not
    match; the input "acbd", where watermark and match end coincide, does. *)
Theorem tryParser_reports_watermark :
  snd (ln_pdagOptimize ctx_partial_type) = ctx_partial_type_optimized
  /\ type_pdags ctx_partial_type_optimized = type_pdags ctx_partial_type
  /\ isTerminal partial_type_behind_a = true
  /\ ln_normalizeRec lit_plugins ctx_partial_type_optimized 8 partial_type_root "abd" 3 0 true 0
       json_object_new_object None
     = Some (mk_norm_out 0 2 json_object_new_object (Some partial_type_behind_a))
  /\ tryParser lit_plugins ctx_partial_type_optimized 8 "abd" 3 0 0 JNull partial_type_edge
     = Some (mk_try_out 0 0 2 json_object_new_object)
  /\ fst <$> ln_normalize lit_plugins ctx_partial_type_optimized 8 "abd" 3 JNull
     = Some LN_WRONGPARSER
  /\ ln_normalize lit_plugins ctx_partial_type_optimized 8 "acbd" 4 JNull
     = Some (0, JObject {[ "t" := JObject ∅ ]}).
Proof. run_code. Qed.

(** The claim C2 as the specification states it fails where it lets the
    call return a nonzero status whenever the test after the loop fails: the
    root of the samples "a" and "ab" is not terminal, and on the input "a"
    the call on the root returns status 0, because its edge a matched. *)
Lemma ln_normalizeRec_zero_at_nonterminal :
  terminal_here (pdag ctx_a_ab) 1 0 false = false
  /\ ln_normalizeRec lit_plugins ctx_a_ab 3 (pdag ctx_a_ab) "a" 1 0 false 0
       json_object_new_object None
     = Some (mk_norm_out 0 1 json_object_new_object
               (Some (mk_pdag [literal_edge "b" terminal_leaf] true JNull)))
  /\ ~ (terminal_here (pdag ctx_a_ab) 1 0 false = false ->
        forall out,
          ln_normalizeRec lit_plugins ctx_a_ab 3 (pdag ctx_a_ab) "a" 1 0 false 0
            json_object_new_object None = Some out ->
          no_r out <> 0).
Proof.
  assert (Hrun : ln_normalizeRec lit_plugins ctx_a_ab 3 (pdag ctx_a_ab) "a" 1 0 false 0
                   json_object_new_object None
                 = Some (mk_norm_out 0 1 json_object_new_object
                           (Some (mk_pdag [literal_edge "b" terminal_leaf] true JNull))))
    by (vm_compute; reflexivity).
  split; [vm_compute; reflexivity|]. split; [exact Hrun|].
  intros Hclaim. apply (Hclaim eq_refl _ Hrun). reflexivity.
Qed.

(** The claim C4 as the specification states it fails on a buffer with a
    NUL byte: the three bytes 'a', NUL, 'b' do not match in a context without
    samples, the status is nonzero, and originalmsg is "a", not the whole
    input. *)
Lemma ln_normalize_originalmsg_truncated :
  ln_normalize lit_plugins empty_ctx 1 str_a_nul_b 3 JNull
  = Some (LN_WRONGPARSER,
          JObject {[ ORIGINAL_MSG_KEY := JString "a"; UNPARSED_DATA_KEY := JString "a" ]})
  /\ LN_WRONGPARSER <> 0
  /\ JString "a" <> JString str_a_nul_b.
Proof. split; [vm_compute; reflexivity|]. split; discriminate. Qed.

(** ** The theorems on examples *)

Lemma ln_pdagAddParser_edges_unique_witness :
  (exists trace,
      addParser_trace empty_ctx (pdag ctx_a_ab) [new_literal "a"; new_literal "b"] = Some trace
      /\ length trace = 2%nat /\ Forall edges_unique trace)
  /\ (forall (parser : ln_parser_t unit) (i : nat) (p : ln_parser_t ln_pdag),
        literal_has_data parser ->
        parsers (pdag ctx_a_ab) !! i = Some p -> edge_equiv p parser ->
        exists j q,
          ln_pdagAddParser empty_ctx (pdag ctx_a_ab) parser
          = Some (mk_addParser_out 0 empty_ctx (pdag ctx_a_ab) j true)
          /\ parsers (pdag ctx_a_ab) !! j = Some q /\ edge_equiv q parser).
Proof.
  apply (ln_pdagAddParser_edges_unique empty_ctx (pdag ctx_a_ab)
           [new_literal "a"; new_literal "b"]).
  - intros [|i] [|j] p q Hi Hj _; try discriminate; reflexivity.
  - intros [|i] p Hi; [|discriminate]. vm_compute in Hi. injection Hi as <-.
    intros _. discriminate.
  - repeat constructor; intros _; discriminate.
Defined.

Lemma nNodes_counts_allocations_witness :
  nNodes (snd (ln_newPDAG ctx_a_ab)) = nNodes ctx_a_ab + 1
  /\ nNodes ctx_a_ab = Z.of_nat (live_nodes ctx_a_ab)
  /\ nNodes (snd (ln_pdagOptimize ctx_a_ab)) = nNodes ctx_a_ab
  /\ Z.of_nat (live_nodes (snd (ln_pdagOptimize ctx_a_ab)))
     < nNodes (snd (ln_pdagOptimize ctx_a_ab)).
Proof.
  apply (nNodes_counts_allocations lit_plugins [] calls_a_ab ctx_a_ab
           (mk_cursor None [0; 0]%nat)).
  - vm_compute. reflexivity.
  - vm_compute. reflexivity.
Defined.

Lemma ln_normalizeRec_first_match_wins_witness :
  let rec := ln_normalizeRec lit_plugins ctx_a_or_b 2 in
  let st0 := mk_loop_state LN_WRONGPARSER 0 0 0 json_object_new_object None in
  let edge_a := literal_edge "a" terminal_leaf in
  let edge_b := mk_parser terminal_leaf 0 "f" PRS_LITERAL None (Some "b") in
  parsers (pdag ctx_a_or_b) = [edge_a; edge_b]
  /\ edges_tried lit_plugins ctx_a_or_b rec "b" 1 0 false [edge_a] st0 st0
  /\ edge_matches lit_plugins ctx_a_or_b rec "b" 1 0 false edge_b st0
  /\ ln_normalizeRec lit_plugins ctx_a_or_b 3 (pdag ctx_a_or_b) "b" 1 0 false 0
       json_object_new_object None
     = Some (mk_norm_out 0 1 (JObject {[ "f" := JString "b" ]}) (Some terminal_leaf)).
Proof.
  cbv zeta.
  assert (Htried : edges_tried lit_plugins ctx_a_or_b (ln_normalizeRec lit_plugins ctx_a_or_b 2)
                     "b" 1 0 false [literal_edge "a" terminal_leaf]
                     (mk_loop_state LN_WRONGPARSER 0 0 0 json_object_new_object None)
                     (mk_loop_state LN_WRONGPARSER 0 0 0 json_object_new_object None)).
  { split; [vm_compute; reflexivity|discriminate]. }
  split; [vm_compute; reflexivity|]. split; [exact Htried|]. split.
  { exists (mk_try_out 0 0 1 (JString "b")),
      (mk_norm_out 0 1 json_object_new_object (Some terminal_leaf)).
    repeat split; vm_compute; reflexivity. }
  destruct (ln_normalizeRec lit_plugins ctx_a_or_b 3 (pdag ctx_a_or_b) "b" 1 0 false 0
              json_object_new_object None) as [out|] eqn:Hrun;
    [|vm_compute in Hrun; discriminate].
  destruct (ln_normalizeRec_first_match_wins lit_plugins ctx_a_or_b 2 _ _ _ _ _ _ _ _ _ Hrun)
    as (_ & _ & _ & Hmatch & _).
  rewrite (Hmatch [literal_edge "a" terminal_leaf]
             (mk_parser terminal_leaf 0 "f" PRS_LITERAL None (Some "b")) []
             (mk_loop_state LN_WRONGPARSER 0 0 0 json_object_new_object None)
             (mk_try_out 0 0 1 (JString "b"))
             (mk_norm_out 0 1 json_object_new_object (Some terminal_leaf))).
  - vm_compute. reflexivity.
  - vm_compute. reflexivity.
  - exact Htried.
  - vm_compute. reflexivity.
  - reflexivity.
  - vm_compute. reflexivity.
  - reflexivity.
Defined.

Lemma ln_normalize_status_and_unparsed_witness :
  exists (r : Z) (js : json),
    ln_normalize lit_plugins ctx_a_ab 3 "ax" 2 JNull = Some (r, js)
    /\ (r = 0 <-> LN_WRONGPARSER = 0 /\ ends_at_terminal None)
    /\ (r <> 0 ->
        r = LN_WRONGPARSER
        /\ json_object_object_get js ORIGINAL_MSG_KEY = Some (JString "ax")
        /\ json_object_object_get js UNPARSED_DATA_KEY = Some (JString "x")).
Proof.
  apply (ln_normalize_status_and_unparsed lit_plugins ctx_a_ab 3 "ax" 2 JNull
           (mk_norm_out LN_WRONGPARSER 1 json_object_new_object None)).
  - intros js tgs. reflexivity.
  - reflexivity.
  - reflexivity.
  - reflexivity.
  - vm_compute. reflexivity.
  - intros _. vm_compute. split; discriminate.
Defined.

Lemma ln_normalizeRec_success_is_terminal_witness :
  exists n : ln_pdag,
    Some (mk_pdag [literal_edge "b" terminal_leaf] true JNull) = Some n
    /\ isTerminal n = true
    /\ forall json_p : json,
         pdag ctx_a_ab = pdag ctx_a_ab -> 0 = 0 -> false = false -> 0 = 0 ->
         @None ln_pdag = None ->
         json_object_new_object
         = (if json_is_null json_p then json_object_new_object else json_p) ->
         ln_normalize lit_plugins ctx_a_ab 3 "a" 1 json_p
         = Some (finalize_event lit_plugins n json_object_new_object).
Proof.
  apply (ln_normalizeRec_success_is_terminal lit_plugins ctx_a_ab 3 (pdag ctx_a_ab) "a" 1 0
           false 0 json_object_new_object None
           (mk_norm_out 0 1 json_object_new_object
              (Some (mk_pdag [literal_edge "b" terminal_leaf] true JNull)))).
  - vm_compute. reflexivity.
  - reflexivity.
Defined.

(** * The rest of pdag.c: properties *)
(** ** The parser registry: names and ids *)

(** The search of [ln_parserName2ID] over a table, from position [i] on:
    it answers the position of the first entry with the name, or
    [PRS_INVALID]. *)
Lemma ln_parserName2ID_from_spec (nm : string) (tab : list ln_parser_info) :
  forall i : nat,
    (exists (k : nat) (e : ln_parser_info),
        ln_parserName2ID_from i tab nm = (i + k)%nat
        /\ tab !! k = Some e /\ pi_name e = nm
        /\ forall (j : nat) (e' : ln_parser_info),
             (j < k)%nat -> tab !! j = Some e' -> pi_name e' <> nm)
    \/ (ln_parserName2ID_from i tab nm = PRS_INVALID
        /\ forall (j : nat) (e' : ln_parser_info), tab !! j = Some e' -> pi_name e' <> nm).
Proof.
  induction tab as [|e tab IH]; intros i; cbn [ln_parserName2ID_from].
  - right. split; [reflexivity|]. intros j e' Hj. discriminate.
  - unfold streq. destruct (String.eqb_spec (pi_name e) nm) as [He|He].
    + left. exists 0%nat, e. rewrite Nat.add_0_r. repeat split; try assumption.
      intros j e' Hj. lia.
    + destruct (IH (S i)) as [(k & e1 & Hk & Hl & Hn & Hfirst)|[Hinv Hnone]].
      * left. exists (S k), e1. rewrite Hk. split; [lia|]. split; [exact Hl|].
        split; [assumption|]. intros [|j] e' Hj Hl'.
        -- cbn in Hl'. injection Hl' as <-. assumption.
        -- apply (Hfirst j e'); [lia|exact Hl'].
      * right. split; [assumption|]. intros [|j] e' Hl'.
        -- cbn in Hl'. injection Hl' as <-. assumption.
        -- apply (Hnone j e'). exact Hl'.
Qed.

Lemma NPARSERS_value (P : ln_plugins) : NPARSERS P = 30%nat.
Proof. reflexivity. Qed.

(** The names of the table, which do not depend on the hooks. *)
Lemma parser_lookup_table_names (P : ln_plugins) :
  map pi_name (parser_lookup_table P)
  = [ "literal"; "date-rfc3164"; "date-rfc5424"; "number"; "float"; "hexnumber";
      "kernel-timestamp"; "whitespace"; "ipv4"; "ipv6"; "word"; "alpha"; "rest";
      "op-quoted-string"; "quoted-string"; "date-iso"; "time-24hr"; "time-12hr";
      "duration"; "cisco-interface-spec"; "name-value-list"; "json"; "cee-syslog";
      "mac48"; "cef"; "checkpoint-lea"; "v2-iptables"; "string-to"; "char-to";
      "char-sep" ].
Proof. reflexivity. Qed.

Lemma parser_lookup_table_NoDup (P : ln_plugins) :
  NoDup (map pi_name (parser_lookup_table P)).
Proof.
  rewrite parser_lookup_table_names. apply (bool_decide_unpack _). vm_compute. reflexivity.
Qed.

(** The two outcomes of [ln_parserName2ID]: the index of the entry with the
    name, or [PRS_INVALID] when no entry has it. *)
Lemma ln_parserName2ID_cases (P : ln_plugins) (nm : string) :
  (exists e : ln_parser_info,
      (ln_parserName2ID P nm < NPARSERS P)%nat
      /\ parser_lookup_table P !! ln_parserName2ID P nm = Some e /\ pi_name e = nm)
  \/ (ln_parserName2ID P nm = PRS_INVALID
      /\ forall (id : nat) (e : ln_parser_info),
           parser_lookup_table P !! id = Some e -> pi_name e <> nm).
Proof.
  unfold ln_parserName2ID.
  destruct (ln_parserName2ID_from_spec nm (parser_lookup_table P) 0)
    as [(k & e & Hk & Hl & Hn & _)|[Hinv Hnone]].
  - left. exists e. rewrite Hk. cbn [Nat.add]. split; [|split; assumption].
    apply lookup_lt_Some in Hl. exact Hl.
  - right. split; assumption.
Qed.

Lemma parserName_table (P : ln_plugins) (id : nat) (e : ln_parser_info) :
  parser_lookup_table P !! id = Some e -> parserName P id = Some (pi_name e).
Proof.
  intros Hl. unfold parserName, prsid_t in *.
  assert (Hlt : (id < 30)%nat) by (apply lookup_lt_Some in Hl; exact Hl).
  destruct (Nat.eqb_spec id PRS_CUSTOM_TYPE) as [Hc|Hc].
  - unfold PRS_CUSTOM_TYPE in Hc. lia.
  - rewrite Hl. reflexivity.
Qed.

(** X1.  A name that [ln_parserName2ID] knows is the name [parserName] gives
    to the id: the id is an index of the parser table, and the entry at the
    index has the name. *)
Theorem ln_parserName2ID_parserName (P : ln_plugins) (nm : string) :
  ln_parserName2ID P nm <> PRS_INVALID ->
  (ln_parserName2ID P nm < NPARSERS P)%nat
  /\ parserName P (ln_parserName2ID P nm) = Some nm.
Proof.
  intros Hid.
  destruct (ln_parserName2ID_cases P nm) as [(e & Hlt & Hl & Hn)|[Hinv _]]; [|contradiction].
  split; [exact Hlt|]. rewrite (parserName_table P _ e Hl). congruence.
Qed.

(** X2.  The id of a parser of the table is the id [ln_parserName2ID] gives
    to its name: no two entries of the table share a name, so the search
    from the first entry on ends at the entry itself. *)
Theorem parserName_ln_parserName2ID (P : ln_plugins) (id : prsid_t) (nm : string) :
  id <> PRS_CUSTOM_TYPE -> parserName P id = Some nm -> ln_parserName2ID P nm = id.
Proof.
  intros Hc. unfold parserName, prsid_t in *. apply Nat.eqb_neq in Hc. rewrite Hc.
  destruct (parser_lookup_table P !! id) as [e|] eqn:Hl; [|discriminate].
  intros He. cbn in He. injection He as He.
  destruct (ln_parserName2ID_cases P nm) as [(e1 & _ & Hl1 & Hn1)|[_ Hnone]].
  - pose proof (parser_lookup_table_NoDup P) as Hnd.
    apply (NoDup_lookup _ _ id nm Hnd); rewrite list_lookup_fmap.
    + unfold prsid_t in *. rewrite Hl1. cbn. congruence.
    + rewrite Hl. cbn. congruence.
  - exfalso. apply (Hnone id e Hl). assumption.
Qed.

(** X3.  [ln_parserName2ID] answers [PRS_INVALID] exactly for the names
    that no entry of the table has; it never answers [PRS_CUSTOM_TYPE], and
    the name [parserName] gives to [PRS_CUSTOM_TYPE] is not a name of the
    table. *)
Theorem ln_parserName2ID_unknown (P : ln_plugins) (nm : string) :
  (ln_parserName2ID P nm = PRS_INVALID
   <-> forall (id : nat) (e : ln_parser_info),
         parser_lookup_table P !! id = Some e -> pi_name e <> nm)
  /\ ln_parserName2ID P nm <> PRS_CUSTOM_TYPE
  /\ (parserName P PRS_CUSTOM_TYPE = Some nm -> ln_parserName2ID P nm = PRS_INVALID).
Proof.
  destruct (ln_parserName2ID_cases P nm) as [(e & Hlt & Hl & Hn)|[Hinv Hnone]].
  - rewrite NPARSERS_value in Hlt. unfold PRS_INVALID, PRS_CUSTOM_TYPE.
    split; [split|split].
    + intros Habs. lia.
    + intros Hnone. exfalso. apply (Hnone _ e Hl Hn).
    + lia.
    + cbn. intros [= <-]. exfalso. clear -Hl Hn.
      assert (Hin : "USER-DEFINED" ∈ map pi_name (parser_lookup_table P)).
      { apply list_elem_of_lookup. eexists. rewrite list_lookup_fmap.
        unfold prsid_t in *. rewrite Hl. cbn. congruence. }
      rewrite parser_lookup_table_names in Hin.
      revert Hin. apply (bool_decide_unpack (_ ∉ _)). vm_compute. reflexivity.
  - rewrite Hinv. split; [split; auto|]. split; [discriminate|auto].
Qed.

(** X4.  [ln_newParser] does not check the id: with the id of an unknown
    parser name it reads the parser table out of bounds.  With the id
    of a known name it returns an edge with the field name, priority 0
    and no user-defined type, whose parser has that name. *)
Theorem ln_newParser_of_name (P : ln_plugins) (nm typename : string) (ct : option nat)
    (extraData : option string) (js : json) :
  (ln_parserName2ID P typename = PRS_INVALID ->
   ln_newParser P nm (ln_parserName2ID P typename) ct extraData js = None)
  /\ (ln_parserName2ID P typename <> PRS_INVALID ->
      exists prs : ln_parser_t unit,
        ln_newParser P nm (ln_parserName2ID P typename) ct extraData js = Some prs
        /\ name prs = nm /\ prio prs = 0 /\ custType prs = None
        /\ parserName P (prsid prs) = Some typename).
Proof.
  split.
  - intros ->. reflexivity.
  - intros Hid.
    destruct (ln_parserName2ID_cases P typename) as [(e & Hlt & Hl & Hn)|[Hinv _]];
      [|contradiction].
    unfold ln_newParser.
    assert (Hc : Nat.eqb (ln_parserName2ID P typename) PRS_CUSTOM_TYPE = false).
    { apply Nat.eqb_neq. rewrite NPARSERS_value in Hlt. unfold PRS_CUSTOM_TYPE. lia. }
    rewrite Hc. unfold prsid_t in *. rewrite Hl. cbn [mbind option_bind].
    eexists. split; [reflexivity|]. cbn [name prio custType prsid].
    rewrite (parserName_table P _ e Hl). repeat split. congruence.
Qed.
(** ** The statistics gatherer *)

Lemma int_add_Some (a b : Z) :
  INT_MIN <= a + b <= INT_MAX -> int_add a b = Some (a + b).
Proof.
  intros [H1 H2]. unfold int_add.
  apply Z.leb_le in H1, H2. rewrite H1, H2. reflexivity.
Qed.

Lemma int_add_inv (a b c : Z) : int_add a b = Some c -> c = a + b.
Proof. unfold int_add. destruct (_ && _); congruence. Qed.

Lemma INT_MIN_neg : INT_MIN < 0.
Proof. reflexivity. Qed.

Lemma int_array_incr_Some (a : list Z) (i : nat) (x : Z) :
  a !! i = Some x -> 0 <= x -> x + 1 <= INT_MAX ->
  int_array_incr a i = Some (<[i := x + 1]> a).
Proof.
  intros Hi H0 H1. unfold int_array_incr. rewrite Hi. cbn [mbind option_bind].
  rewrite int_add_Some by (pose proof INT_MIN_neg; lia). reflexivity.
Qed.

Lemma int_array_incr_length (a a' : list Z) (i : nat) :
  int_array_incr a i = Some a' -> length a' = length a.
Proof.
  unfold int_array_incr. destruct (a !! i) as [x|]; cbn [mbind option_bind]; [|discriminate].
  destruct (int_add x 1); cbn [mbind option_bind]; [|discriminate].
  intros [= <-]. apply length_insert.
Qed.

Lemma int_array_incr_None (a : list Z) (i : nat) :
  (length a <= i)%nat -> int_array_incr a i = None.
Proof.
  intros Hi. unfold int_array_incr. rewrite (lookup_ge_None_2 a i Hi). reflexivity.
Qed.

Lemma ln_pdagStatsRec_unfold (dag : ln_pdag) (stats : pdag_stats) :
  ln_pdagStatsRec dag stats
  = (let n := Z.of_nat (nparsers dag) in
     nodes ← int_add (st_nodes stats) 1;
     term_nodes ← (if isTerminal dag then int_add (st_term_nodes stats) 1
                   else Some (st_term_nodes stats));
     let max_nparsers := if n >? st_max_nparsers stats then n else st_max_nparsers stats in
     '(nparsers_cnt, nparsers_100plus) ←
       (if n >=? 100 then
          c ← int_add (st_nparsers_100plus stats) 1; Some (st_nparsers_cnt stats, c)
        else
          a ← int_array_incr (st_nparsers_cnt stats) (nparsers dag);
          Some (a, st_nparsers_100plus stats));
     parsers_total ← int_add (st_parsers stats) n;
     '(max_path, stats') ←
       stats_edges ln_pdagStatsRec (parsers dag) 0
         (mk_pdag_stats nodes term_nodes parsers_total max_nparsers nparsers_cnt
            nparsers_100plus (st_prs_cnt stats));
     r ← int_add max_path 1;
     Some (r, stats')).
Proof. destruct dag. reflexivity. Qed.

Lemma tree_count_unfold (dag : ln_pdag) (c : stat_counter) :
  tree_count dag c = (node_count dag c + forest_count (parsers dag) c)%nat.
Proof. destruct dag. reflexivity. Qed.

Lemma pdag_height_unfold (dag : ln_pdag) :
  pdag_height dag = S (list_max (map (fun prs => pdag_height (node prs)) (parsers dag))).
Proof. destruct dag. reflexivity. Qed.

Lemma max_nparsers_unfold (dag : ln_pdag) :
  max_nparsers dag
  = Nat.max (nparsers dag) (list_max (map (fun prs => max_nparsers (node prs)) (parsers dag))).
Proof. destruct dag. reflexivity. Qed.

Lemma ids_below_unfold (n : nat) (dag : ln_pdag) :
  ids_below n dag
  = forallb (fun prs => Nat.ltb (prsid prs) n && ids_below n (node prs)) (parsers dag).
Proof. destruct dag. reflexivity. Qed.

Lemma stats_added_trans (s s1 s2 : pdag_stats) (a b ab : stat_counter -> nat) :
  stats_added s s1 a -> stats_added s1 s2 b -> (forall c, ab c = (a c + b c)%nat) ->
  stats_added s s2 ab.
Proof.
  intros (Ha & La1 & La2) (Hb & Lb1 & Lb2) Hab. split; [|split; congruence].
  intros c x Hx. rewrite (Hb c _ (Ha c x Hx)), Hab. f_equal. lia.
Qed.

Lemma stats_room_step (s s1 : pdag_stats) (a b ab : stat_counter -> nat) :
  stats_room s ab -> stats_added s s1 a -> (forall c, ab c = (a c + b c)%nat) ->
  stats_room s1 b.
Proof.
  intros Hroom (Ha & L1 & L2) Hab c x1 Hx1.
  assert (Hx : exists x, stats_get s c = Some x).
  { destruct c; cbn [stats_get] in *; eauto.
    - apply lookup_lt_is_Some. rewrite <- L1. apply lookup_lt_is_Some. eauto.
    - apply lookup_lt_is_Some. rewrite <- L2. apply lookup_lt_is_Some. eauto. }
  destruct Hx as [x Hx]. destruct (Hroom c x Hx) as [H0 H1].
  rewrite (Ha c x Hx) in Hx1. injection Hx1 as <-. rewrite Hab in H1. lia.
Qed.

Lemma stats_room_weaken (s : pdag_stats) (a b : stat_counter -> nat) :
  stats_room s a -> (forall c, (b c <= a c)%nat) -> stats_room s b.
Proof.
  intros Hroom Hle c x Hx. destruct (Hroom c x Hx). specialize (Hle c). lia.
Qed.

(** The visit of a node, before its edges are walked. *)
Lemma ln_pdagStatsRec_visit (dag : ln_pdag) (s : pdag_stats) :
  (100 <= length (st_nparsers_cnt s))%nat ->
  stats_room s (node_count dag) ->
  exists (nodes term_nodes parsers_total : Z) (cnt : list Z) (plus : Z),
    int_add (st_nodes s) 1 = Some nodes
    /\ (if isTerminal dag then int_add (st_term_nodes s) 1 else Some (st_term_nodes s))
       = Some term_nodes
    /\ (if Z.of_nat (nparsers dag) >=? 100
        then c ← int_add (st_nparsers_100plus s) 1; Some (st_nparsers_cnt s, c)
        else a ← int_array_incr (st_nparsers_cnt s) (nparsers dag);
             Some (a, st_nparsers_100plus s)) = Some (cnt, plus)
    /\ int_add (st_parsers s) (Z.of_nat (nparsers dag)) = Some parsers_total
    /\ stats_added s
         (mk_pdag_stats nodes term_nodes parsers_total
            (Z.max (st_max_nparsers s) (Z.of_nat (nparsers dag))) cnt plus (st_prs_cnt s))
         (node_count dag).
Proof.
  intros Hlen Hroom. pose proof INT_MIN_neg as Hmin.
  destruct (Hroom CNodes _ eq_refl) as [Hn0 Hn1].
  destruct (Hroom CTermNodes _ eq_refl) as [Ht0 Ht1].
  destruct (Hroom CParsers _ eq_refl) as [Hp0 Hp1].
  destruct (Hroom C100plus _ eq_refl) as [Hc0 Hc1].
  cbn [node_count] in Hn1, Ht1, Hp1, Hc1.
  exists (st_nodes s + 1),
         (st_term_nodes s + Z.of_nat (if isTerminal dag then 1 else 0)),
         (st_parsers s + Z.of_nat (nparsers dag)).
  destruct (Z.of_nat (nparsers dag) >=? 100) eqn:Hbig.
  - exists (st_nparsers_cnt s), (st_nparsers_100plus s + 1).
    assert (Hle : (100 <=? nparsers dag)%nat = true) by (apply Nat.leb_le; lia).
    rewrite Hle in Hc1.
    split; [apply int_add_Some; lia|].
    split; [destruct (isTerminal dag);
            [apply int_add_Some; lia|f_equal; cbn; lia]|].
    split; [rewrite int_add_Some by lia; reflexivity|].
    split; [apply int_add_Some; lia|].
    split; [|split; reflexivity].
    intros c x Hx. destruct c; cbn [stats_get node_count st_nodes st_term_nodes st_parsers st_nparsers_100plus st_nparsers_cnt st_prs_cnt] in *.
    + injection Hx as <-. reflexivity.
    + injection Hx as <-. reflexivity.
    + injection Hx as <-. reflexivity.
    + injection Hx as <-. rewrite Hle. reflexivity.
    + rewrite Hx. f_equal.
      destruct (Nat.eqb_spec (nparsers dag) k) as [Hk|Hk]; cbn [andb]; [|lia].
      apply Nat.leb_le in Hle. destruct (Nat.ltb_spec k 100); lia.
    + rewrite Hx. f_equal. lia.
  - assert (Hsmall : (nparsers dag < 100)%nat) by lia.
    assert (Hle : (100 <=? nparsers dag)%nat = false) by (apply Nat.leb_gt; lia).
    destruct (lookup_lt_is_Some_2 (st_nparsers_cnt s) (nparsers dag)) as [x0 Hx0]; [lia|].
    destruct (Hroom (CNparsers (nparsers dag)) x0 Hx0) as [Hk0 Hk1].
    cbn [node_count] in Hk1. rewrite Nat.eqb_refl in Hk1.
    apply Nat.ltb_lt in Hsmall as Hsb. rewrite Hsb in Hk1. cbn [andb] in Hk1.
    exists (<[nparsers dag := x0 + 1]> (st_nparsers_cnt s)), (st_nparsers_100plus s).
    split; [apply int_add_Some; lia|].
    split; [destruct (isTerminal dag);
            [apply int_add_Some; lia|f_equal; cbn; lia]|].
    split; [rewrite (int_array_incr_Some _ _ x0) by (assumption || lia); reflexivity|].
    split; [apply int_add_Some; lia|].
    split; [|split; [apply length_insert|reflexivity]].
    intros c x Hx. destruct c; cbn [stats_get node_count st_nodes st_term_nodes st_parsers st_nparsers_100plus st_nparsers_cnt st_prs_cnt] in *.
    + injection Hx as <-. reflexivity.
    + injection Hx as <-. reflexivity.
    + injection Hx as <-. reflexivity.
    + injection Hx as <-. rewrite Hle. f_equal. lia.
    + destruct (Nat.eqb_spec (nparsers dag) k) as [Hk|Hk]; cbn [andb].
      * subst k. rewrite Hsb. rewrite list_lookup_insert_eq by (apply lookup_lt_Some in Hx; exact Hx).
        f_equal. assert (x = x0) by congruence. subst. reflexivity.
      * rewrite list_lookup_insert_ne by assumption. rewrite Hx. f_equal. lia.
    + rewrite Hx. f_equal. lia.
Qed.

Lemma max_path_update (h m : nat) :
  (if Z.of_nat h >? Z.of_nat m then Z.of_nat h else Z.of_nat m) = Z.of_nat (Nat.max m h).
Proof. destruct (Z.gtb_spec (Z.of_nat h) (Z.of_nat m)); lia. Qed.

Lemma max_nparsers_update (n : nat) (m : Z) :
  (if Z.of_nat n >? m then Z.of_nat n else m) = Z.max m (Z.of_nat n).
Proof. destruct (Z.gtb_spec (Z.of_nat n) m); lia. Qed.

Lemma list_max_cons (a : nat) (l : list nat) : list_max (a :: l) = Nat.max a (list_max l).
Proof. reflexivity. Qed.

Lemma stats_edges_spec (rec : ln_pdag -> pdag_stats -> option (Z * pdag_stats))
    (prss : list (ln_parser_t ln_pdag)) :
  (forall prs, In prs prss -> stats_rec_ok rec (node prs)) ->
  forall (m : nat) (s : pdag_stats),
    (100 <= length (st_nparsers_cnt s))%nat ->
    0 <= st_max_nparsers s ->
    forallb (fun prs => Nat.ltb (prsid prs) (length (st_prs_cnt s))
                        && ids_below (length (st_prs_cnt s)) (node prs)) prss = true ->
    stats_room s (forest_count prss) ->
    exists s' : pdag_stats,
      stats_edges rec prss (Z.of_nat m) s
      = Some (Z.of_nat (Nat.max m (list_max (map (fun prs => pdag_height (node prs)) prss))), s')
      /\ stats_added s s' (forest_count prss)
      /\ st_max_nparsers s'
         = Z.max (st_max_nparsers s)
             (Z.of_nat (list_max (map (fun prs => max_nparsers (node prs)) prss))).
Proof.
  induction prss as [|prs prss IH]; intros Hrec m s Hlen Hmax0 Hids Hroom.
  - exists s. cbn [stats_edges map list_max fold_right]. rewrite Nat.max_0_r.
    split; [reflexivity|]. split; [|lia].
    split; [|split; reflexivity]. intros c x Hx. rewrite Hx. f_equal. cbn. lia.
  - cbn [forallb] in Hids. apply andb_true_iff in Hids as [Hid Hids].
    apply andb_true_iff in Hid as [Hid Hch]. apply Nat.ltb_lt in Hid.
    destruct (lookup_lt_is_Some_2 (st_prs_cnt s) (prsid prs) Hid) as [x0 Hx0].
    destruct (Hroom (CPrs (prsid prs)) x0 Hx0) as [H0 H1].
    assert (Hsplit : forall c, forest_count (prs :: prss) c
                     = (edge_count prs c + (tree_count (node prs) c + forest_count prss c))%nat).
    { intros c. unfold forest_count, list_sum. cbn [map fold_right]. lia. }
    rewrite Hsplit in H1. cbn [edge_count] in H1. rewrite Nat.eqb_refl in H1.
    cbn [stats_edges].
    rewrite (int_array_incr_Some _ _ x0) by (assumption || lia).
    cbn [mbind option_bind].
    set (s1 := mk_pdag_stats (st_nodes s) (st_term_nodes s) (st_parsers s) (st_max_nparsers s)
                 (st_nparsers_cnt s) (st_nparsers_100plus s) _).
    assert (Hadd1 : stats_added s s1 (edge_count prs)).
    { split; [|split; [reflexivity|apply length_insert]].
      intros c x Hx. destruct c; cbn [stats_get edge_count s1 st_nodes st_term_nodes st_parsers
        st_nparsers_100plus st_nparsers_cnt st_prs_cnt] in *;
        try (rewrite Hx; f_equal; lia).
      destruct (Nat.eqb_spec (prsid prs) id) as [Hk|Hk].
      - subst id. rewrite list_lookup_insert_eq by assumption.
        f_equal. assert (x = x0) by congruence. subst. reflexivity.
      - rewrite list_lookup_insert_ne by assumption. rewrite Hx. f_equal. lia. }
    assert (Hroom1 : stats_room s1 (fun c => (tree_count (node prs) c + forest_count prss c)%nat))
      by (apply (stats_room_step s s1 (edge_count prs) _ _ Hroom Hadd1 Hsplit)).
    assert (Hlen1 : length (st_prs_cnt s1) = length (st_prs_cnt s))
      by (apply length_insert).
    destruct (Hrec prs (or_introl eq_refl) s1) as (s2 & Hs2 & Hadd2 & Hmax2).
    { exact Hlen. }
    { rewrite Hlen1. exact Hch. }
    { apply (stats_room_weaken _ _ _ Hroom1). intros c. lia. }
    rewrite Hs2. cbn [mbind option_bind].
    rewrite max_path_update.
    assert (Hroom2 : stats_room s2 (forest_count prss))
      by (apply (stats_room_step s1 s2 (tree_count (node prs)) _ _ Hroom1 Hadd2);
          intros c; reflexivity).
    destruct Hadd2 as (Hadd2 & L21 & L22).
    destruct (IH (fun p Hp => Hrec p (or_intror Hp)) (Nat.max m (pdag_height (node prs))) s2)
      as (s3 & Hs3 & Hadd3 & Hmax3).
    { rewrite L21. exact Hlen. }
    { rewrite Hmax2. cbn [s1 st_max_nparsers]. lia. }
    { rewrite L22, Hlen1. exact Hids. }
    { exact Hroom2. }
    exists s3. rewrite Hs3. split.
    { f_equal. f_equal. cbn [map]. rewrite list_max_cons. f_equal. lia. }
    split.
    { apply (stats_added_trans s s2 s3 (fun c => (edge_count prs c + tree_count (node prs) c)%nat)
               (forest_count prss)).
      - apply (stats_added_trans s s1 s2 (edge_count prs) (tree_count (node prs)));
          [exact Hadd1|split; [exact Hadd2|split; assumption]|reflexivity].
      - exact Hadd3.
      - intros c. rewrite Hsplit. lia. }
    { rewrite Hmax3, Hmax2. cbn [s1 st_max_nparsers map]. rewrite list_max_cons. lia. }
Qed.

Lemma list_sum_map_eq {A : Type} (f g : A -> nat) (l : list A) :
  (forall x, In x l -> f x = g x) -> list_sum (map f l) = list_sum (map g l).
Proof. intros H. f_equal. apply map_ext_in. assumption. Qed.

Lemma list_max_map_le_sum {A : Type} (f g : A -> nat) (l : list A) :
  (forall x, In x l -> (f x <= g x)%nat) ->
  (list_max (map f l) <= list_sum (map g l))%nat.
Proof.
  induction l as [|a l IH]; intros H; cbn [map]; [cbn; lia|].
  rewrite list_max_cons. change (list_sum (g a :: map g l)) with (g a + list_sum (map g l))%nat.
  specialize (H a (or_introl eq_refl)) as Ha.
  specialize (IH (fun x Hx => H x (or_intror Hx))). lia.
Qed.

Lemma pdag_height_le_size (dag : ln_pdag) : (pdag_height dag <= pdag_size dag)%nat.
Proof.
  induction dag as [dag IH _] using pdag_size_ind.
  rewrite pdag_height_unfold, pdag_size_unfold.
  pose proof (list_max_map_le_sum (fun prs => pdag_height (node prs))
                (fun prs => pdag_size (node prs)) (parsers dag) IH). lia.
Qed.

Lemma tree_count_nodes (dag : ln_pdag) : tree_count dag CNodes = pdag_size dag.
Proof.
  induction dag as [dag IH _] using pdag_size_ind.
  rewrite tree_count_unfold, pdag_size_unfold. unfold forest_count. cbn [node_count].
  rewrite (list_sum_map_eq _ (fun prs => pdag_size (node prs))); [reflexivity|].
  intros prs Hin. rewrite (IH prs Hin). reflexivity.
Qed.

(** The walk of a tree whose parser ids are indices of [prs_cnt], with room
    in every counter: it returns the length of the longest path and has
    added to every counter what the tree holds. *)
Lemma ln_pdagStatsRec_spec (dag : ln_pdag) : stats_rec_ok ln_pdagStatsRec dag.
Proof.
  induction dag as [dag IH _] using pdag_size_ind. intros s Hlen Hids Hroom.
  rewrite ln_pdagStatsRec_unfold. cbv zeta.
  assert (Hsplit : forall c, tree_count dag c
                   = (node_count dag c + forest_count (parsers dag) c)%nat)
    by (intros c; apply tree_count_unfold).
  destruct (ln_pdagStatsRec_visit dag s Hlen)
    as (nodes & term_nodes & parsers_total & cnt & plus & H1 & H2 & H3 & H4 & Hadd1).
  { apply (stats_room_weaken _ _ _ Hroom). intros c. rewrite Hsplit. lia. }
  rewrite H1. cbn [mbind option_bind]. rewrite H2. cbn [mbind option_bind].
  rewrite H3. cbn [mbind option_bind]. rewrite H4. cbn [mbind option_bind].
  rewrite max_nparsers_update.
  set (s1 := mk_pdag_stats _ _ _ _ _ _ _) in *.
  pose proof Hadd1 as (_ & L11 & L12).
  destruct (stats_edges_spec ln_pdagStatsRec (parsers dag) IH 0%nat s1)
    as (s2 & Hs2 & Hadd2 & Hmax2).
  - rewrite L11. exact Hlen.
  - cbn [s1 st_max_nparsers]. lia.
  - rewrite L12. rewrite ids_below_unfold in Hids. exact Hids.
  - apply (stats_room_step s s1 (node_count dag) _ _ Hroom Hadd1 Hsplit).
  - change (Z.of_nat 0) with 0 in Hs2. rewrite Hs2. cbn [mbind option_bind].
    rewrite Nat.max_0_l.
    destruct (Hroom CNodes _ eq_refl) as [Hn0 Hn1].
    rewrite tree_count_nodes in Hn1.
    pose proof (pdag_height_le_size dag) as Hh.
    rewrite pdag_height_unfold in Hh |- *.
    rewrite int_add_Some by (pose proof INT_MIN_neg; lia). cbn [mbind option_bind].
    exists s2. split; [f_equal; f_equal; lia|]. split.
    + apply (stats_added_trans s s1 s2 _ _ _ Hadd1 Hadd2 Hsplit).
    + rewrite Hmax2. cbn [s1 st_max_nparsers]. rewrite max_nparsers_unfold. lia.
Qed.

(** What the counters hold, in terms of the tree. *)
Lemma count_nodes_unfold (f : ln_pdag -> bool) (dag : ln_pdag) :
  count_nodes f dag
  = ((if f dag then 1 else 0)
     + list_sum (map (fun prs => count_nodes f (node prs)) (parsers dag)))%nat.
Proof. destruct dag. reflexivity. Qed.

Lemma count_edges_unfold (f : ln_parser_t ln_pdag -> bool) (dag : ln_pdag) :
  count_edges f dag
  = list_sum (map (fun prs => ((if f prs then 1 else 0) + count_edges f (node prs))%nat)
                  (parsers dag)).
Proof. destruct dag. reflexivity. Qed.

Lemma tree_count_of_nodes (c : stat_counter) (f : ln_pdag -> bool) (dag : ln_pdag) :
  (forall d, node_count d c = if f d then 1%nat else 0%nat) ->
  (forall p, edge_count p c = 0%nat) ->
  tree_count dag c = count_nodes f dag.
Proof.
  intros Hn He. induction dag as [dag IH _] using pdag_size_ind.
  rewrite tree_count_unfold, count_nodes_unfold, Hn. unfold forest_count. f_equal.
  apply list_sum_map_eq. intros prs Hin. rewrite He, (IH prs Hin). reflexivity.
Qed.

Lemma tree_count_of_edges (c : stat_counter) (f : ln_parser_t ln_pdag -> bool) (dag : ln_pdag) :
  (forall d, node_count d c = 0%nat) ->
  (forall p, edge_count p c = if f p then 1%nat else 0%nat) ->
  tree_count dag c = count_edges f dag.
Proof.
  intros Hn He. induction dag as [dag IH _] using pdag_size_ind.
  rewrite tree_count_unfold, count_edges_unfold, Hn. unfold forest_count. cbn [Nat.add].
  apply list_sum_map_eq. intros prs Hin. rewrite He, (IH prs Hin). reflexivity.
Qed.

Lemma list_sum_map_S {A : Type} (f : A -> nat) (l : list A) :
  list_sum (map (fun x => S (f x)) l) = (length l + list_sum (map f l))%nat.
Proof.
  induction l as [|a l IH]; [reflexivity|].
  cbn [map length]. change (list_sum (?x :: ?l')) with (x + list_sum l')%nat.
  unfold list_sum in *. cbn [fold_right]. rewrite IH. lia.
Qed.

(** A tree has one edge less than it has nodes. *)
Lemma tree_count_parsers (dag : ln_pdag) : S (tree_count dag CParsers) = pdag_size dag.
Proof.
  induction dag as [dag IH _] using pdag_size_ind.
  rewrite tree_count_unfold, pdag_size_unfold. unfold forest_count. cbn [node_count]. f_equal.
  rewrite (list_sum_map_eq (fun prs => pdag_size (node prs))
             (fun prs => S (edge_count prs CParsers + tree_count (node prs) CParsers)))
    by (intros prs Hin; rewrite <- (IH prs Hin); reflexivity).
  rewrite list_sum_map_S. reflexivity.
Qed.

Lemma count_nodes_le_size (f : ln_pdag -> bool) (dag : ln_pdag) :
  (count_nodes f dag <= pdag_size dag)%nat.
Proof.
  induction dag as [dag IH _] using pdag_size_ind.
  rewrite count_nodes_unfold, pdag_size_unfold.
  pose proof (list_sum_map_le (fun prs => count_nodes f (node prs))
                (fun prs => pdag_size (node prs)) (parsers dag) IH).
  destruct (f dag); lia.
Qed.

Lemma count_edges_lt_size (f : ln_parser_t ln_pdag -> bool) (dag : ln_pdag) :
  (count_edges f dag < pdag_size dag)%nat.
Proof.
  induction dag as [dag IH _] using pdag_size_ind.
  rewrite count_edges_unfold, pdag_size_unfold.
  pose proof (list_sum_map_le
                (fun prs => ((if f prs then 1 else 0) + count_edges f (node prs))%nat)
                (fun prs => pdag_size (node prs)) (parsers dag)) as Hle.
  assert (forall prs, In prs (parsers dag) ->
            ((if f prs then 1 else 0) + count_edges f (node prs) <= pdag_size (node prs))%nat).
  { intros prs Hin. specialize (IH prs Hin). destruct (f prs); lia. }
  specialize (Hle H). lia.
Qed.

Lemma tree_count_le_size (dag : ln_pdag) (c : stat_counter) :
  (tree_count dag c <= pdag_size dag)%nat.
Proof.
  destruct c.
  - rewrite tree_count_nodes. lia.
  - rewrite (tree_count_of_nodes CTermNodes isTerminal) by reflexivity.
    apply count_nodes_le_size.
  - pose proof (tree_count_parsers dag). lia.
  - rewrite (tree_count_of_nodes C100plus (fun d => Nat.leb 100 (nparsers d))) by reflexivity.
    apply count_nodes_le_size.
  - rewrite (tree_count_of_nodes (CNparsers k)
               (fun d => Nat.eqb (nparsers d) k && Nat.ltb k 100)) by reflexivity.
    apply count_nodes_le_size.
  - rewrite (tree_count_of_edges (CPrs id) (fun p => Nat.eqb (prsid p) id)) by reflexivity.
    pose proof (count_edges_lt_size (fun p => Nat.eqb (prsid p) id) dag). lia.
Qed.

Lemma stats_calloc_room (P : ln_plugins) (dag : ln_pdag) :
  Z.of_nat (pdag_size dag) <= INT_MAX -> stats_room (stats_calloc P) (tree_count dag).
Proof.
  intros Hsize c x Hx. pose proof (tree_count_le_size dag c) as Hle.
  assert (x = 0); [|lia].
  destruct c; cbn [stats_get stats_calloc st_nodes st_term_nodes st_parsers st_nparsers_100plus
                   st_nparsers_cnt st_prs_cnt] in Hx; try congruence.
  - apply lookup_replicate in Hx. tauto.
  - apply lookup_replicate in Hx. tauto.
Qed.

Lemma ln_pdagStatsRec_calloc (P : ln_plugins) (dag : ln_pdag) :
  ids_below (NPARSERS P) dag = true -> Z.of_nat (pdag_size dag) <= INT_MAX ->
  exists s : pdag_stats,
    ln_pdagStatsRec dag (stats_calloc P) = Some (Z.of_nat (pdag_height dag), s)
    /\ stats_added (stats_calloc P) s (tree_count dag)
    /\ st_max_nparsers s = Z.of_nat (max_nparsers dag).
Proof.
  intros Hids Hsize.
  destruct (ln_pdagStatsRec_spec dag (stats_calloc P)) as (s & Hs & Hadd & Hmax).
  - cbn [stats_calloc st_nparsers_cnt]. rewrite length_replicate. lia.
  - cbn [stats_calloc st_prs_cnt]. rewrite length_replicate. exact Hids.
  - apply stats_calloc_room. exact Hsize.
  - exists s. split; [exact Hs|]. split; [exact Hadd|].
    rewrite Hmax. cbn [stats_calloc st_max_nparsers]. lia.
Qed.

(** The totals of a walk from zeroed statistics. *)
Lemma ln_pdagStatsRec_counts (P : ln_plugins) (dag : ln_pdag) :
  ids_below (NPARSERS P) dag = true -> Z.of_nat (pdag_size dag) <= INT_MAX ->
  exists s : pdag_stats,
    ln_pdagStatsRec dag (stats_calloc P) = Some (Z.of_nat (pdag_height dag), s)
    /\ st_nodes s = Z.of_nat (pdag_size dag)
    /\ st_term_nodes s = Z.of_nat (count_nodes isTerminal dag)
    /\ st_parsers s = Z.of_nat (pdag_size dag) - 1
    /\ st_max_nparsers s = Z.of_nat (max_nparsers dag).
Proof.
  intros Hids Hsize.
  destruct (ln_pdagStatsRec_calloc P dag Hids Hsize) as (s & Hs & (Hadd & _) & Hmax).
  exists s. split; [exact Hs|].
  pose proof (Hadd CNodes 0 eq_refl) as Hn.
  pose proof (Hadd CTermNodes 0 eq_refl) as Ht.
  pose proof (Hadd CParsers 0 eq_refl) as Hp.
  cbn [stats_get] in Hn, Ht, Hp. injection Hn as ->. injection Ht as ->. injection Hp as ->.
  rewrite tree_count_nodes, (tree_count_of_nodes CTermNodes isTerminal) by reflexivity.
  pose proof (tree_count_parsers dag).
  split; [lia|]. split; [lia|]. split; [lia|]. exact Hmax.
Qed.

Lemma stats_calloc_nparsers_cnt (P : ln_plugins) (dag : ln_pdag) (s : pdag_stats) (k : nat) :
  stats_added (stats_calloc P) s (tree_count dag) -> (k < 100)%nat ->
  st_nparsers_cnt s !! k
  = Some (Z.of_nat (count_nodes (fun d => Nat.eqb (nparsers d) k) dag)).
Proof.
  intros [Hadd _] Hk.
  assert (Hget : stats_get (stats_calloc P) (CNparsers k) = Some 0)
    by (apply lookup_replicate; split; [reflexivity|exact Hk]).
  apply Hadd in Hget. cbn [stats_get] in Hget. rewrite Hget.
  rewrite (tree_count_of_nodes (CNparsers k) (fun d => Nat.eqb (nparsers d) k));
    [reflexivity| |reflexivity].
  intros d. cbn [node_count]. apply Nat.ltb_lt in Hk. rewrite Hk, andb_true_r. reflexivity.
Qed.

(** X9.  The histograms of a walk that starts from zeroed statistics, for a
    tree whose parser ids are ids of the parser table and that has at most
    [INT_MAX] nodes: the counter [nparsers_cnt[k]] holds the number of nodes
    with exactly [k] edges, for every k below 100; [nparsers_100plus] holds
    the number of nodes with 100 edges or more; and [prs_cnt[id]] holds the
    number of edges of the parser [id]. *)
Theorem ln_pdagStatsRec_histograms (P : ln_plugins) (dag : ln_pdag) :
  ids_below (NPARSERS P) dag = true -> Z.of_nat (pdag_size dag) <= INT_MAX ->
  exists (r : Z) (s : pdag_stats),
    ln_pdagStatsRec dag (stats_calloc P) = Some (r, s)
    /\ (forall k : nat, (k < 100)%nat ->
          st_nparsers_cnt s !! k
          = Some (Z.of_nat (count_nodes (fun d => Nat.eqb (nparsers d) k) dag)))
    /\ st_nparsers_100plus s
       = Z.of_nat (count_nodes (fun d => Nat.leb 100 (nparsers d)) dag)
    /\ (forall id : nat, (id < NPARSERS P)%nat ->
          st_prs_cnt s !! id
          = Some (Z.of_nat (count_edges (fun prs => Nat.eqb (prsid prs) id) dag))).
Proof.
  intros Hids Hsize.
  destruct (ln_pdagStatsRec_calloc P dag Hids Hsize) as (s & Hs & Hadded & _).
  exists (Z.of_nat (pdag_height dag)), s. split; [exact Hs|]. split; [|split].
  - intros k Hk. apply (stats_calloc_nparsers_cnt P dag s k Hadded Hk).
  - destruct Hadded as [Hadd _].
    pose proof (Hadd C100plus 0 eq_refl) as Hc. cbn [stats_get] in Hc. injection Hc as ->.
    rewrite (tree_count_of_nodes C100plus (fun d => Nat.leb 100 (nparsers d))) by reflexivity.
    reflexivity.
  - intros id Hid. destruct Hadded as [Hadd _].
    assert (Hget : stats_get (stats_calloc P) (CPrs id) = Some 0)
      by (apply lookup_replicate; split; [reflexivity|exact Hid]).
    apply Hadd in Hget. cbn [stats_get] in Hget. rewrite Hget.
    rewrite (tree_count_of_edges (CPrs id) (fun p => Nat.eqb (prsid p) id)) by reflexivity.
    reflexivity.
Qed.

(** *** The report *)

Lemma list_sum_map_add {A : Type} (f g : A -> nat) (l : list A) :
  list_sum (map (fun x => (f x + g x)%nat) l) = (list_sum (map f l) + list_sum (map g l))%nat.
Proof.
  induction l as [|a l IH]; [reflexivity|].
  unfold list_sum in *. cbn [map fold_right]. rewrite IH. lia.
Qed.

Lemma count_nodes_orb (f g : ln_pdag -> bool) (dag : ln_pdag) :
  (forall d, f d && g d = false) ->
  count_nodes (fun d => f d || g d) dag = (count_nodes f dag + count_nodes g dag)%nat.
Proof.
  intros Hfg. induction dag as [dag IH _] using pdag_size_ind.
  rewrite !count_nodes_unfold.
  rewrite (list_sum_map_eq (fun prs => count_nodes (fun d => f d || g d) (node prs))
             (fun prs => (count_nodes f (node prs) + count_nodes g (node prs))%nat)) by exact IH.
  rewrite list_sum_map_add. specialize (Hfg dag).
  destruct (f dag), (g dag); cbn in *; try discriminate; lia.
Qed.

Lemma count_nodes_false (dag : ln_pdag) : count_nodes (fun _ => false) dag = 0%nat.
Proof.
  induction dag as [dag IH _] using pdag_size_ind. rewrite count_nodes_unfold.
  rewrite (list_sum_map_eq _ (fun _ => 0%nat)) by exact IH. clear IH.
  induction (parsers dag) as [|a l IHl]; [reflexivity|].
  cbn [map]. change (list_sum (?x :: ?l')) with (x + list_sum l')%nat. exact IHl.
Qed.

(** The counters of the histogram of edges per node, summed up over distinct
    numbers of edges, count each node at most once. *)
Lemma nparsers_cnt_sum (dag : ln_pdag) (ks : list nat) :
  NoDup ks ->
  list_sum (map (fun k => count_nodes (fun d => Nat.eqb (nparsers d) k) dag) ks)
  = count_nodes (fun d => existsb (Nat.eqb (nparsers d)) ks) dag.
Proof.
  induction 1 as [|k ks Hk Hnd IH].
  - cbn [map existsb]. rewrite count_nodes_false. reflexivity.
  - cbn [map existsb]. change (list_sum (?x :: ?l')) with (x + list_sum l')%nat.
    rewrite IH. symmetry. apply count_nodes_orb.
    intros d. destruct (Nat.eqb_spec (nparsers d) k) as [->|]; [|reflexivity].
    cbn [andb]. apply not_true_is_false. intros Hex.
    apply existsb_exists in Hex as (k' & Hin & Hk'). apply Nat.eqb_eq in Hk'. subst k'.
    apply Hk. apply list_elem_of_In. exact Hin.
Qed.

Lemma stats_type_counts_Some (P : ln_plugins) (prs_cnt : list Z) (ids : list nat) :
  length prs_cnt = NPARSERS P ->
  (forall i, In i ids -> (i < NPARSERS P)%nat) ->
  is_Some (stats_type_counts P prs_cnt ids).
Proof.
  intros Hlen. induction ids as [|i ids IH]; intros Hids; cbn [stats_type_counts]; [eauto|].
  assert (Hi : (i < NPARSERS P)%nat) by (apply Hids; left; reflexivity).
  destruct (lookup_lt_is_Some_2 prs_cnt i) as [c Hc]; [lia|].
  rewrite Hc. cbn [mbind option_bind].
  destruct (IH (fun j Hj => Hids j (or_intror Hj))) as [rest Hrest]. rewrite Hrest.
  assert (Hname : is_Some (parserName P i)).
  { unfold parserName. rewrite NPARSERS_value in Hi.
    destruct (Nat.eqb_spec i PRS_CUSTOM_TYPE) as [->|_]; [unfold PRS_CUSTOM_TYPE in Hi; lia|].
    destruct (lookup_lt_is_Some_2 (parser_lookup_table P) i) as [e He];
      [change (length (parser_lookup_table P)) with 30%nat; lia|].
    unfold prsid_t in *. rewrite He. cbn. eauto. }
  destruct Hname as [nm Hnm]. rewrite Hnm.
  destruct (c =? 0); cbn [mbind option_bind]; eauto.
Qed.

Lemma stats_per_node_Some (nparsers_cnt : list Z) (f : nat -> nat) (ids : list nat) :
  forall pp : Z,
    0 <= pp ->
    (forall i, In i ids -> nparsers_cnt !! i = Some (Z.of_nat (f i))) ->
    pp + Z.of_nat (list_sum (map f ids)) <= INT_MAX ->
    is_Some (stats_per_node nparsers_cnt ids pp).
Proof.
  induction ids as [|i ids IH]; intros pp Hpp Hids Hsum; cbn [stats_per_node]; [eauto|].
  rewrite (Hids i (or_introl eq_refl)). cbn [mbind option_bind].
  cbn [map] in Hsum. change (list_sum (?x :: ?l')) with (x + list_sum l')%nat in Hsum.
  rewrite int_add_Some by (pose proof INT_MIN_neg; lia). cbn [mbind option_bind].
  destruct (IH (pp + Z.of_nat (f i))) as [rest Hr]; [lia| |lia|].
  - intros j Hj. apply Hids. right. exact Hj.
  - rewrite Hr. cbn [mbind option_bind]. eauto.
Qed.

(** X8.  The report of [ln_pdagStats] on a tree whose parser ids are ids of
    the parser table and that has at most [INT_MAX] nodes: the four totals
    it prints are the number of nodes of the tree, the number of its
    terminal nodes, the number of its edges (one less than the nodes) and
    the number of nodes on its longest path; the maximum it prints is the
    largest number of edges of a node. *)
Theorem ln_pdagStats_report (P : ln_plugins) (dag : ln_pdag) :
  ids_below (NPARSERS P) dag = true -> Z.of_nat (pdag_size dag) <= INT_MAX ->
  exists types per_node : string,
    ln_pdagStats P dag
    = Some ("nodes.............: " +:+ fmt_4d (Z.of_nat (pdag_size dag)) +:+ NL
            +:+ "terminal nodes....: " +:+ fmt_4d (Z.of_nat (count_nodes isTerminal dag)) +:+ NL
            +:+ "parsers entries...: " +:+ fmt_4d (Z.of_nat (pdag_size dag) - 1) +:+ NL
            +:+ "longest path......: " +:+ fmt_4d (Z.of_nat (pdag_height dag)) +:+ NL
            +:+ "Parser Type Counts:" +:+ NL
            +:+ types
            +:+ "Parsers per Node:" +:+ NL
            +:+ TAB +:+ "max:" +:+ TAB +:+ fmt_4d (Z.of_nat (max_nparsers dag)) +:+ NL
            +:+ per_node).
Proof.
  intros Hids Hsize.
  destruct (ln_pdagStatsRec_counts P dag Hids Hsize) as (s & Hs & Hn & Ht & Hp & Hm).
  destruct (ln_pdagStatsRec_calloc P dag Hids Hsize) as (s' & Hs' & Hadded & _).
  assert (s' = s) by congruence. subst s'.
  pose proof Hadded as (_ & _ & Hlen).
  unfold ln_pdagStats. rewrite Hs. cbn [mbind option_bind].
  destruct (stats_type_counts_Some P (st_prs_cnt s) (seq 0 (NPARSERS P))) as [types Htypes].
  { rewrite Hlen. cbn [stats_calloc st_prs_cnt]. apply length_replicate. }
  { intros i Hi. apply in_seq in Hi. lia. }
  rewrite Htypes. cbn [mbind option_bind].
  destruct (stats_per_node_Some (st_nparsers_cnt s)
              (fun k => count_nodes (fun d => Nat.eqb (nparsers d) k) dag) (seq 0 100) 0)
    as [per_node Hper].
  { lia. }
  { intros i Hi. apply in_seq in Hi. apply (stats_calloc_nparsers_cnt P dag s i Hadded). lia. }
  { rewrite nparsers_cnt_sum by apply NoDup_ListNoDup, seq_NoDup.
    pose proof (count_nodes_le_size (fun d => existsb (Nat.eqb (nparsers d)) (seq 0 100)) dag).
    lia. }
  rewrite Hper. cbn [mbind option_bind]. rewrite Hn, Ht, Hp, Hm.
  exists types, per_node. reflexivity.
Qed.

(** *** Edges of a user-defined type *)

Lemma has_custom_type_edge_unfold (dag : ln_pdag) :
  has_custom_type_edge dag
  = existsb (fun prs => Nat.eqb (prsid prs) PRS_CUSTOM_TYPE
                        || has_custom_type_edge (node prs)) (parsers dag).
Proof. destruct dag. reflexivity. Qed.

(** The walk does not resize [prs_cnt]. *)
Lemma stats_edges_prs_cnt_length (rec : ln_pdag -> pdag_stats -> option (Z * pdag_stats))
    (prss : list (ln_parser_t ln_pdag)) :
  (forall prs, In prs prss -> forall s r s',
      rec (node prs) s = Some (r, s') -> length (st_prs_cnt s') = length (st_prs_cnt s)) ->
  forall (m : Z) (s : pdag_stats) (r : Z) (s' : pdag_stats),
    stats_edges rec prss m s = Some (r, s') -> length (st_prs_cnt s') = length (st_prs_cnt s).
Proof.
  induction prss as [|prs prss IH]; intros Hrec m s r s'; cbn [stats_edges].
  - intros [= _ <-]. reflexivity.
  - destruct (int_array_incr (st_prs_cnt s) (prsid prs)) as [a|] eqn:Ha;
      cbn [mbind option_bind]; [|discriminate].
    destruct (rec (node prs) _) as [[h s1]|] eqn:Hs1; cbn [mbind option_bind]; [|discriminate].
    intros Hs'. apply IH in Hs'; [|intros p Hp; apply Hrec; right; exact Hp].
    apply (Hrec prs (or_introl eq_refl)) in Hs1. cbn [st_prs_cnt] in Hs1.
    apply int_array_incr_length in Ha. congruence.
Qed.

Lemma ln_pdagStatsRec_prs_cnt_length (dag : ln_pdag) :
  forall (s : pdag_stats) (r : Z) (s' : pdag_stats),
    ln_pdagStatsRec dag s = Some (r, s') -> length (st_prs_cnt s') = length (st_prs_cnt s).
Proof.
  induction dag as [dag IH _] using pdag_size_ind. intros s r s'.
  rewrite ln_pdagStatsRec_unfold. cbv zeta.
  destruct (int_add (st_nodes s) 1); cbn [mbind option_bind]; [|discriminate].
  destruct (if isTerminal dag then _ else _); cbn [mbind option_bind]; [|discriminate].
  destruct (if Z.of_nat (nparsers dag) >=? 100 then _ else _) as [[cnt plus]|];
    cbn [mbind option_bind]; [|discriminate].
  destruct (int_add (st_parsers s) _); cbn [mbind option_bind]; [|discriminate].
  destruct (stats_edges _ _ _ _) as [[m s1]|] eqn:Hs1; cbn [mbind option_bind]; [|discriminate].
  destruct (int_add m 1); cbn [mbind option_bind]; [|discriminate].
  intros [= _ <-].
  apply (stats_edges_prs_cnt_length _ _ IH) in Hs1. exact Hs1.
Qed.

(** The round of an edge of a user-defined type indexes [prs_cnt] with
    [PRS_CUSTOM_TYPE], which is not an index of the [NPARSERS] counters. *)
Lemma stats_edges_custom_type (prss : list (ln_parser_t ln_pdag)) :
  (forall prs, In prs prss -> forall s,
      has_custom_type_edge (node prs) = true ->
      (length (st_prs_cnt s) <= PRS_CUSTOM_TYPE)%nat ->
      ln_pdagStatsRec (node prs) s = None) ->
  forall (m : Z) (s : pdag_stats),
    existsb (fun prs => Nat.eqb (prsid prs) PRS_CUSTOM_TYPE
                        || has_custom_type_edge (node prs)) prss = true ->
    (length (st_prs_cnt s) <= PRS_CUSTOM_TYPE)%nat ->
    stats_edges ln_pdagStatsRec prss m s = None.
Proof.
  induction prss as [|prs prss IH]; intros Hrec m s Hex Hlen; cbn [existsb] in Hex;
    [discriminate|].
  cbn [stats_edges].
  destruct (int_array_incr (st_prs_cnt s) (prsid prs)) as [a|] eqn:Ha;
    cbn [mbind option_bind]; [|reflexivity].
  pose proof (int_array_incr_length _ _ _ Ha) as Hla.
  destruct (Nat.eqb_spec (prsid prs) PRS_CUSTOM_TYPE) as [Hc|Hc].
  { rewrite Hc, int_array_incr_None in Ha by exact Hlen. discriminate. }
  cbn [orb] in Hex.
  destruct (has_custom_type_edge (node prs)) eqn:Hchild.
  { rewrite (Hrec prs (or_introl eq_refl)); [reflexivity|exact Hchild|].
    cbn [st_prs_cnt]. rewrite Hla. exact Hlen. }
  cbn [orb] in Hex.
  destruct (ln_pdagStatsRec (node prs) _) as [[h s1]|] eqn:Hs1; cbn [mbind option_bind];
    [|reflexivity].
  apply IH; [intros p Hp; apply Hrec; right; exact Hp|exact Hex|].
  apply ln_pdagStatsRec_prs_cnt_length in Hs1. cbn [st_prs_cnt] in Hs1. lia.
Qed.

Lemma ln_pdagStatsRec_custom_type (dag : ln_pdag) :
  forall s : pdag_stats,
    has_custom_type_edge dag = true ->
    (length (st_prs_cnt s) <= PRS_CUSTOM_TYPE)%nat ->
    ln_pdagStatsRec dag s = None.
Proof.
  induction dag as [dag IH _] using pdag_size_ind. intros s Hc Hlen.
  rewrite ln_pdagStatsRec_unfold. cbv zeta.
  destruct (int_add (st_nodes s) 1); cbn [mbind option_bind]; [|reflexivity].
  destruct (if isTerminal dag then _ else _); cbn [mbind option_bind]; [|reflexivity].
  destruct (if Z.of_nat (nparsers dag) >=? 100 then _ else _) as [[cnt plus]|];
    cbn [mbind option_bind]; [|reflexivity].
  destruct (int_add (st_parsers s) _); cbn [mbind option_bind]; [|reflexivity].
  rewrite (stats_edges_custom_type (parsers dag) IH); [reflexivity| |exact Hlen].
  rewrite has_custom_type_edge_unfold in Hc. exact Hc.
Qed.

Lemma ln_pdagStats_custom_type (P : ln_plugins) (dag : ln_pdag) :
  has_custom_type_edge dag = true -> ln_pdagStats P dag = None.
Proof.
  intros Hc. unfold ln_pdagStats. rewrite ln_pdagStatsRec_custom_type; [reflexivity|exact Hc|].
  cbn [stats_calloc st_prs_cnt]. rewrite length_replicate, NPARSERS_value.
  unfold PRS_CUSTOM_TYPE. lia.
Qed.

(** X10.  The statistics cannot be gathered for a pdag with an edge of a
    user-defined type: the walk counts the edge in [prs_cnt] at the index
    [PRS_CUSTOM_TYPE], and [ln_pdagStats] has allocated [NPARSERS] counters,
    so the write is outside the array.  It is the same for
    [ln_fullPdagStats] when the main pdag or a user-defined type of the
    context has such an edge. *)
Theorem ln_fullPdagStats_custom_type (P : ln_plugins) (ctx : ln_ctx) (dag : ln_pdag) :
  has_custom_type_edge dag = true ->
  ln_pdagStats P dag = None
  /\ (dag = pdag ctx \/ In dag (map tp_pdag (type_pdags ctx)) -> ln_fullPdagStats P ctx = None).
Proof.
  intros Hc. split; [apply ln_pdagStats_custom_type; exact Hc|].
  intros [->|Hin]; unfold ln_fullPdagStats.
  - rewrite (ln_pdagStats_custom_type P (pdag ctx) Hc).
    destruct (stats_type_pdags P (type_pdags ctx)); reflexivity.
  - assert (Ht : stats_type_pdags P (type_pdags ctx) = None); [|rewrite Ht; reflexivity].
    induction (type_pdags ctx) as [|t ts IH]; cbn [map] in Hin; [contradiction|].
    cbn [stats_type_pdags]. destruct Hin as [<-|Hin].
    + rewrite (ln_pdagStats_custom_type P (tp_pdag t) Hc). reflexivity.
    + rewrite (IH Hin). destruct (ln_pdagStats P (tp_pdag t)); reflexivity.
Qed.

(** ** Invariants of the edges of a built context *)

Lemma edges_all_unfold (Q : ln_parser_t unit -> Prop) (dag : ln_pdag) :
  edges_all Q dag
  <-> forall prs, In prs (parsers dag) -> Q (set_node prs tt) /\ edges_all Q (node prs).
Proof.
  unfold edges_all. rewrite every_node_unfold. split.
  - intros [Hq Hch] prs Hin. split; [apply Hq|apply Hch]; assumption.
  - intros H. split; intros prs Hin; apply (H prs Hin).
Qed.

Lemma edges_all_lookup (Q : ln_parser_t unit -> Prop) (path : list nat) (root dag : ln_pdag) :
  edges_all Q root -> pdag_lookup root path = Some dag -> edges_all Q dag.
Proof. apply every_node_lookup. Qed.

Lemma edges_all_modify (Q : ln_parser_t unit -> Prop) (f : ln_pdag -> ln_pdag)
    (path : list nat) :
  forall root : ln_pdag,
    edges_all Q root ->
    (forall dag, pdag_lookup root path = Some dag -> edges_all Q (f dag)) ->
    edges_all Q (pdag_modify f path root).
Proof.
  induction path as [|i path IH]; intros root Hroot Hf; cbn [pdag_modify].
  - apply Hf. reflexivity.
  - apply edges_all_unfold. cbn [set_parsers parsers]. intros q Hq.
    rewrite edges_all_unfold in Hroot.
    apply list_elem_of_In in Hq. apply list_elem_of_lookup in Hq as [j Hj].
    destruct (decide (i = j)) as [<-|Hne].
    + rewrite list_lookup_alter_eq in Hj.
      destruct (parsers root !! i) as [p|] eqn:Hp; [|discriminate].
      cbn in Hj. injection Hj as <-.
      assert (Hin : In p (parsers root))
        by (apply list_elem_of_In; apply list_elem_of_lookup; eauto).
      destruct (Hroot p Hin) as [Hqp Hch]. split; [exact Hqp|].
      cbn [set_node node]. apply IH; [exact Hch|].
      intros dag Hdag. apply Hf. cbn [pdag_lookup]. rewrite Hp. exact Hdag.
    + rewrite list_lookup_alter_ne in Hj by assumption.
      apply Hroot. apply list_elem_of_In. apply list_elem_of_lookup. eauto.
Qed.

Lemma ln_pdagAddParser_edges_all (Q : ln_parser_t unit -> Prop) (ctx : ln_ctx) (dag : ln_pdag)
    (parser : ln_parser_t unit) (out : addParser_out) :
  edges_all Q dag -> Q parser ->
  ln_pdagAddParser ctx dag parser = Some out ->
  edges_all Q (ap_dag out).
Proof.
  intros Hdag Hp. unfold ln_pdagAddParser.
  destruct (addParser_search (parsers dag) parser 0) as [[i|]|]; cbn [mbind option_bind];
    [| |discriminate].
  - intros [= <-]. exact Hdag.
  - cbn [ln_newPDAG]. intros [= <-]. cbn [ap_dag]. apply edges_all_unfold.
    cbn [set_parsers parsers]. intros q Hq. rewrite edges_all_unfold in Hdag.
    apply in_app_or in Hq as [Hq|[<-|[]]]; [apply Hdag; assumption|].
    split.
    + destruct parser as [[] ? ? ? ? ?]. exact Hp.
    + cbn [set_node node]. apply edges_all_unfold. intros prs [].
Qed.

Lemma ctx_component_edges_all (Q : ln_parser_t unit -> Prop) (ctx : ln_ctx) (c : option nat)
    (root : ln_pdag) :
  ctx_edges_all Q ctx -> ctx_component ctx c = Some root -> edges_all Q root.
Proof.
  intros [Hm Ht]. destruct c as [i|]; cbn.
  - destruct (type_pdags ctx !! i) as [t|] eqn:Hi; [|discriminate]. intros [= <-].
    rewrite Forall_forall in Ht. apply Ht. apply list_elem_of_lookup. eauto.
  - intros [= <-]. assumption.
Qed.

Lemma ctx_set_component_edges_all (Q : ln_parser_t unit -> Prop) (ctx : ln_ctx)
    (c : option nat) (dag : ln_pdag) :
  ctx_edges_all Q ctx -> edges_all Q dag -> ctx_edges_all Q (ctx_set_component ctx c dag).
Proof.
  intros [Hm Ht] Hdag. destruct c as [i|]; split; cbn; try assumption.
  apply Forall_forall. intros t Hin.
  apply list_elem_of_lookup in Hin as [j Hj].
  destruct (decide (i = j)) as [<-|Hne].
  - rewrite list_lookup_alter_eq in Hj. destruct (type_pdags ctx !! i); [|discriminate].
    cbn in Hj. injection Hj as <-. exact Hdag.
  - rewrite list_lookup_alter_ne in Hj by assumption.
    rewrite Forall_forall in Ht. apply Ht. apply list_elem_of_lookup. eauto.
Qed.

Lemma ln_pdagAddParser_at_edges_all (Q : ln_parser_t unit -> Prop) (ctx ctx' : ln_ctx)
    (cur cur' : ln_cursor) (parser : ln_parser_t unit) (r : Z) :
  Q parser ->
  ln_pdagAddParser_at ctx cur parser = Some (r, ctx', cur') ->
  ctx_edges_all Q ctx -> ctx_edges_all Q ctx'.
Proof.
  intros Hp. unfold ln_pdagAddParser_at.
  destruct (ctx_component ctx (cur_type cur)) as [root|] eqn:Hroot; cbn [mbind option_bind];
    [|discriminate].
  destruct (pdag_lookup root (cur_path cur)) as [dag|] eqn:Hdag; cbn [mbind option_bind];
    [|discriminate].
  destruct (ln_pdagAddParser ctx dag parser) as [out|] eqn:Hout; cbn [mbind option_bind];
    [|discriminate].
  intros [= <- <- <-] Hctx.
  pose proof (ctx_component_edges_all _ _ _ _ Hctx Hroot) as Hr.
  pose proof (edges_all_lookup _ _ _ _ Hr Hdag) as Hd.
  pose proof (ln_pdagAddParser_edges_all _ _ _ _ _ Hd Hp Hout) as Ho.
  destruct (ln_pdagAddParser_nNodes _ _ _ _ Hout) as (Hpd & Htp & _).
  apply ctx_set_component_edges_all.
  - destruct Hctx as [Hm Ht]. split; [rewrite Hpd|rewrite Htp]; assumption.
  - apply edges_all_modify; [assumption|]. intros _ _. assumption.
Qed.

Lemma builder_step_edges_all (P : ln_plugins) (Q : ln_parser_t unit -> Prop)
    (st st' : ln_ctx * ln_cursor) (call : builder_call) :
  (forall prs, call_edge P call = Some prs -> Q prs) ->
  builder_step P st call = Some st' ->
  ctx_edges_all Q (fst st) -> ctx_edges_all Q (fst st').
Proof.
  intros HQ. destruct st as [ctx cur].
  destruct call as [lit|nm id ct extraData| |c]; cbn [builder_step call_edge] in *.
  - destruct (ln_newLiteralParser P lit) as [parser|] eqn:Hnew; simpl; [|discriminate].
    destruct (ln_pdagAddParser_at ctx cur parser) as [[[r ctx'] cur']|] eqn:Ha;
      simpl; [|discriminate].
    intros [= <-]. simpl. eapply ln_pdagAddParser_at_edges_all; [|eassumption]. auto.
  - destruct (ln_newParser P nm id ct extraData JNull) as [parser|] eqn:Hnew; simpl;
      [|discriminate].
    destruct (ln_pdagAddParser_at ctx cur parser) as [[[r ctx'] cur']|] eqn:Ha;
      simpl; [|discriminate].
    intros [= <-]. simpl. eapply ln_pdagAddParser_at_edges_all; [|eassumption]. auto.
  - unfold set_isTerminal_at.
    destruct (ctx_component ctx (cur_type cur)) as [root|] eqn:Hroot; simpl; [|discriminate].
    intros [= <-] Hctx. simpl.
    pose proof (ctx_component_edges_all _ _ _ _ Hctx Hroot) as Hr.
    apply ctx_set_component_edges_all; [assumption|].
    apply edges_all_modify; [assumption|].
    intros dag Hdag. pose proof (edges_all_lookup _ _ _ _ Hr Hdag) as Hd.
    rewrite edges_all_unfold in Hd |- *. exact Hd.
  - intros [= <-]. simpl. auto.
Qed.

Lemma builder_run_edges_all (P : ln_plugins) (Q : ln_parser_t unit -> Prop)
    (calls : list builder_call) :
  (forall call prs, In call calls -> call_edge P call = Some prs -> Q prs) ->
  forall st st' : ln_ctx * ln_cursor,
    builder_run P st calls = Some st' ->
    ctx_edges_all Q (fst st) -> ctx_edges_all Q (fst st').
Proof.
  induction calls as [|call calls IH]; intros HQ st st'; simpl.
  - intros [= <-]. auto.
  - destruct (builder_step P st call) as [st1|] eqn:Hs; simpl; [|discriminate].
    intros Hr Hu. apply (IH (fun c p Hc => HQ c p (or_intror Hc)) st1 st' Hr).
    eapply builder_step_edges_all; [|eassumption|assumption].
    intros prs. apply HQ. left. reflexivity.
Qed.

Lemma ctx_init_edges_all (Q : ln_parser_t unit -> Prop) (names : list string) :
  ctx_edges_all Q (ctx_init names).
Proof.
  unfold ctx_init. cbn [ln_newPDAG].
  assert (Hleaf : edges_all Q (mk_pdag [] false JNull))
    by (apply edges_all_unfold; intros prs []).
  assert (Hgen : forall ctx, ctx_edges_all Q ctx -> ctx_edges_all Q (ctx_add_types ctx names)).
  { induction names as [|nm names IH]; intros ctx [Hm Ht]; simpl; [split; assumption|].
    apply IH. split; cbn; [assumption|].
    apply Forall_app. split; [assumption|]. constructor; [exact Hleaf|constructor]. }
  apply Hgen. split; cbn; [exact Hleaf|constructor].
Qed.

(** ** Destruction *)

(** An entry of the parser table has a construct hook exactly when it has a
    destruct hook: the two macros of the table set both or none. *)
Lemma parser_lookup_table_hooks (P : ln_plugins) (id : nat) (info : ln_parser_info) :
  parser_lookup_table P !! id = Some info ->
  destruct_hook info = match construct info with Some _ => true | None => false end.
Proof.
  intros Hl. assert (Hlt : (id < 30)%nat) by (apply lookup_lt_Some in Hl; exact Hl).
  do 30 (destruct id as [|id]; [cbn in Hl; injection Hl as <-; reflexivity|]). lia.
Qed.

(** The data of an edge that [ln_newParser] returns has a destructor. *)
Lemma ln_newParser_destructible (P : ln_plugins) (nm : string) (id : prsid_t)
    (ct : option nat) (extraData : option string) (js : json) (prs : ln_parser_t unit) :
  ln_newParser P nm id ct extraData js = Some prs -> data_destructible P prs.
Proof.
  unfold ln_newParser. destruct (Nat.eqb id PRS_CUSTOM_TYPE).
  - intros [= <-] Hd. cbn in Hd. contradiction.
  - destruct (parser_lookup_table P !! id) as [info|] eqn:Hl; cbn [mbind option_bind];
      [|discriminate].
    intros [= <-] Hd. cbn [parser_data prsid] in *. exists info. split; [exact Hl|].
    rewrite (parser_lookup_table_hooks P id info Hl).
    destruct (construct info); [reflexivity|contradiction].
Qed.

Lemma call_edge_destructible (P : ln_plugins) (call : builder_call) (prs : ln_parser_t unit) :
  call_edge P call = Some prs -> data_destructible P prs.
Proof.
  destruct call; cbn [call_edge]; try discriminate.
  - apply ln_newParser_destructible.
  - apply ln_newParser_destructible.
Qed.

(** The literal path compaction keeps the invariant: the edge it rewrites
    is a literal, and the literal parser has a destruct hook. *)
Lemma literal_destructible (P : ln_plugins) (prs : ln_parser_t unit) :
  prsid prs = PRS_LITERAL -> data_destructible P prs.
Proof.
  intros Hid _. rewrite Hid. eexists. split; reflexivity.
Qed.

Lemma optLitPathCompact_destructible (P : ln_plugins) (n : nat) :
  forall prs : ln_parser_t ln_pdag,
    (pdag_size (node prs) <= n)%nat ->
    data_destructible P (set_node prs tt) -> edges_all (data_destructible P) (node prs) ->
    data_destructible P (set_node (snd (optLitPathCompact prs)) tt)
    /\ edges_all (data_destructible P) (node (snd (optLitPathCompact prs))).
Proof.
  induction n as [|n IH]; intros prs Hsz Hq Hch.
  - pose proof (pdag_size_pos (node prs)). lia.
  - rewrite optLitPathCompact_unfold. destruct (compactable prs) eqn:Hc; [|split; assumption].
    destruct (compact_step_size prs Hc) as [_ Hs].
    apply compactable_inv in Hc as [Hid [c [Hcs _]]].
    rewrite (compact_step_compactable _ _ Hcs) in Hs |- *. cbn [snd] in *.
    apply IH.
    + cbn [set_node node] in *. lia.
    + apply literal_destructible. cbn. exact Hid.
    + cbn [set_node node]. rewrite edges_all_unfold in Hch.
      apply (Hch c). rewrite Hcs. left. reflexivity.
Qed.

Lemma ln_pdagComponentOptimize_destructible (P : ln_plugins) (dag : ln_pdag) :
  edges_all (data_destructible P) dag ->
  edges_all (data_destructible P) (snd (ln_pdagComponentOptimize dag)).
Proof.
  induction dag as [dag _ IH] using pdag_size_ind. intros Hdag.
  rewrite ln_pdagComponentOptimize_unfold. apply edges_all_unfold.
  cbn [set_parsers parsers]. intros q Hq. apply in_map_iff in Hq as (prs & <- & Hin).
  rewrite edges_all_unfold in Hdag. destruct (Hdag prs Hin) as [Hq Hch].
  destruct (optLitPathCompact_destructible P _ prs (Nat.le_refl _) Hq Hch) as [Hq' Hch'].
  unfold optimize_edge. cbn [set_node node prio name prsid custType parser_data] in *.
  split; [exact Hq'|]. apply IH; [|exact Hch'].
  pose proof (pdag_size_child _ _ Hin). pose proof (optLitPathCompact_size prs). lia.
Qed.

(** Where every edge with data has a destructor, [ln_pdagDelete] is defined
    and releases every node, the name of every edge and the data of every
    edge that has data. *)
Lemma delete_edges_ok (P : ln_plugins) (prss : list (ln_parser_t ln_pdag)) :
  (forall prs, In prs prss ->
     data_destructible P (set_node prs tt)
     /\ exists tr, ln_pdagDelete_calls P (node prs) = Some tr
          /\ length (List.filter is_FreeNode tr) = pdag_size (node prs)
          /\ length (List.filter is_FreeName tr) = count_edges (fun _ => true) (node prs)
          /\ length (List.filter is_CallDestruct tr)
             = count_edges (fun p => bool_decide (parser_data p <> None)) (node prs)) ->
  exists tr, delete_edges P (ln_pdagDelete_calls P) prss = Some tr
    /\ length (List.filter is_FreeNode tr)
       = list_sum (map (fun prs => pdag_size (node prs)) prss)
    /\ length (List.filter is_FreeName tr)
       = list_sum (map (fun prs => (1 + count_edges (fun _ => true) (node prs))%nat) prss)
    /\ length (List.filter is_CallDestruct tr)
       = list_sum (map (fun prs => ((if bool_decide (parser_data prs <> None) then 1 else 0)
                                    + count_edges (fun p => bool_decide (parser_data p <> None))
                                        (node prs))%nat) prss).
Proof.
  induction prss as [|prs prss IH]; intros Hall.
  - exists []. repeat split.
  - destruct (Hall prs (or_introl eq_refl)) as (Hq & tr1 & Htr1 & N1 & M1 & D1).
    destruct (IH (fun p Hp => Hall p (or_intror Hp))) as (tr2 & Htr2 & N2 & M2 & D2).
    cbn [delete_edges]. unfold pdagDeletePrs_calls at 1.
    cbn [set_node node parser_data prsid name]. rewrite Htr1. cbn [mbind option_bind].
    assert (Hdata : exists data,
              match parser_data prs with
              | Some d =>
                  info ← parser_lookup_table P !! prsid prs;
                  if destruct_hook info then Some [CallDestruct (prsid prs) d] else None
              | None => Some []
              end = Some data
              /\ List.filter is_FreeNode data = []
              /\ List.filter is_FreeName data = []
              /\ length (List.filter is_CallDestruct data)
                 = if bool_decide (parser_data prs <> None) then 1%nat else 0%nat).
    { destruct (parser_data prs) as [d|] eqn:Hd.
      - destruct Hq as (info & Hinfo & Hhook); [cbn; rewrite Hd; discriminate|].
        cbn [set_node prsid] in Hinfo. rewrite Hinfo. cbn [mbind option_bind]. rewrite Hhook.
        eexists. split; [reflexivity|]. repeat split.
      - exists []. repeat split. }
    destruct Hdata as (data & -> & F1 & F2 & F3). cbn [mbind option_bind].
    rewrite Htr2. cbn [mbind option_bind]. eexists. split; [reflexivity|].
    cbn [map]. change (list_sum (?x :: ?l')) with (x + list_sum l')%nat.
    rewrite !List.filter_app. cbn [List.filter is_FreeNode is_FreeName is_CallDestruct].
    rewrite F1, F2. rewrite !List.length_app. cbn [length].
    rewrite N1, N2, M1, M2, D1, D2, F3. repeat split; lia.
Qed.

Lemma ln_pdagDelete_calls_unfold (P : ln_plugins) (dag : ln_pdag) :
  ln_pdagDelete_calls P dag
  = (edges ← delete_edges P (ln_pdagDelete_calls P) (parsers dag);
     Some ((if json_is_null (tags dag) then [] else [PutTags (tags dag)])
           ++ edges ++ [FreeNode])%list).
Proof. destruct dag. reflexivity. Qed.

Lemma ln_pdagDelete_calls_ok (P : ln_plugins) (dag : ln_pdag) :
  edges_all (data_destructible P) dag ->
  exists tr, ln_pdagDelete_calls P dag = Some tr
    /\ length (List.filter is_FreeNode tr) = pdag_size dag
    /\ length (List.filter is_FreeName tr) = count_edges (fun _ => true) dag
    /\ length (List.filter is_CallDestruct tr)
       = count_edges (fun p => bool_decide (parser_data p <> None)) dag.
Proof.
  induction dag as [dag IH _] using pdag_size_ind. intros Hdag.
  rewrite edges_all_unfold in Hdag.
  destruct (delete_edges_ok P (parsers dag)) as (tr & Htr & N & M & D).
  { intros prs Hin. destruct (Hdag prs Hin) as [Hq Hch]. split; [exact Hq|].
    apply IH; assumption. }
  rewrite ln_pdagDelete_calls_unfold, Htr. cbn [mbind option_bind].
  eexists. split; [reflexivity|].
  rewrite !List.filter_app, !List.length_app.
  cbn [List.filter is_FreeNode is_FreeName is_CallDestruct length].
  rewrite N, M, D, pdag_size_unfold, !count_edges_unfold.
  destruct (json_is_null (tags dag)); cbn; repeat split; lia.
Qed.

(** What [ln_pdagDelete] releases: the name of every edge below the node,
    the data of every edge that has data, through the hook of the parser of
    that edge, and the tags of every node that has tags. *)
Lemma pdag_edges_unfold (dag : ln_pdag) :
  pdag_edges dag
  = flat_map (fun prs => pdag_edges (node prs) ++ [set_node prs tt])%list (parsers dag).
Proof. destruct dag. reflexivity. Qed.

Lemma pdag_tags_unfold (dag : ln_pdag) :
  pdag_tags dag
  = ((if json_is_null (tags dag) then [] else [tags dag])
     ++ flat_map (fun prs => pdag_tags (node prs)) (parsers dag))%list.
Proof. destruct dag. reflexivity. Qed.

Lemma released_names_app (a b : list release) :
  released_names (a ++ b) = (released_names a ++ released_names b)%list.
Proof. apply omap_app. Qed.

Lemma released_data_app (a b : list release) :
  released_data (a ++ b) = (released_data a ++ released_data b)%list.
Proof. apply omap_app. Qed.

Lemma released_tags_app (a b : list release) :
  released_tags (a ++ b) = (released_tags a ++ released_tags b)%list.
Proof. apply omap_app. Qed.

Lemma ln_pdagDelete_calls_releases (P : ln_plugins) (dag : ln_pdag) :
  forall tr : list release,
    ln_pdagDelete_calls P dag = Some tr ->
    released_names tr = map name (pdag_edges dag)
    /\ released_data tr = omap edge_data (pdag_edges dag)
    /\ released_tags tr = pdag_tags dag.
Proof.
  induction dag as [dag IH _] using pdag_size_ind. intros tr.
  rewrite ln_pdagDelete_calls_unfold, pdag_edges_unfold, pdag_tags_unfold.
  assert (Hloop : forall (prss : list (ln_parser_t ln_pdag)) (edges : list release),
             (forall prs, In prs prss -> In prs (parsers dag)) ->
             delete_edges P (ln_pdagDelete_calls P) prss = Some edges ->
             released_names edges
             = map name (flat_map (fun prs => pdag_edges (node prs) ++ [set_node prs tt])%list
                           prss)
             /\ released_data edges
                = omap edge_data
                    (flat_map (fun prs => pdag_edges (node prs) ++ [set_node prs tt])%list prss)
             /\ released_tags edges = flat_map (fun prs => pdag_tags (node prs)) prss).
  { induction prss as [|prs prss IHl]; intros edges Hsub; cbn [delete_edges flat_map].
    - intros [= <-]. repeat split.
    - unfold pdagDeletePrs_calls at 1. cbn [set_node node parser_data prsid name].
      destruct (ln_pdagDelete_calls P (node prs)) as [below|] eqn:Hbelow;
        cbn [mbind option_bind]; [|discriminate].
      destruct (IH prs (Hsub prs (or_introl eq_refl)) below Hbelow) as (N1 & D1 & T1).
      destruct (match parser_data prs with
                | Some d =>
                    info ← parser_lookup_table P !! prsid prs;
                    if destruct_hook info then Some [CallDestruct (prsid prs) d] else None
                | None => Some []
                end) as [data|] eqn:Hdata; cbn [mbind option_bind]; [|discriminate].
      destruct (delete_edges P (ln_pdagDelete_calls P) prss) as [rest|] eqn:Hrest;
        cbn [mbind option_bind]; [|discriminate].
      destruct (IHl rest (fun p Hp => Hsub p (or_intror Hp)) eq_refl) as (N2 & D2 & T2).
      intros [= <-].
      assert (Hd : released_names data = []
                   /\ released_data data = from_option (fun x => [x]) [] (edge_data (set_node prs tt))
                   /\ released_tags data = []).
      { unfold edge_data. cbn [set_node parser_data prsid].
        destruct (parser_data prs) as [d|].
        - destruct (parser_lookup_table P !! prsid prs) as [info|];
            cbn [mbind option_bind] in Hdata; [|discriminate].
          destruct (destruct_hook info); [|discriminate].
          injection Hdata as <-. repeat split.
        - injection Hdata as <-. repeat split. }
      destruct Hd as (N3 & D3 & T3).
      rewrite !released_names_app, !released_data_app, !released_tags_app.
      change (FreeName (name prs) :: data) with ([FreeName (name prs)] ++ data)%list.
      rewrite !released_names_app, !released_data_app, !released_tags_app.
      rewrite N1, N2, N3, D1, D2, D3, T1, T2, T3.
      rewrite !map_app, !omap_app. cbn [map omap released_names released_data released_tags].
      cbn [set_node name]. rewrite !app_nil_r.
      split; [reflexivity|]. split; [|reflexivity].
      reflexivity. }
  destruct (delete_edges P (ln_pdagDelete_calls P) (parsers dag)) as [edges|] eqn:Hedges;
    cbn [mbind option_bind]; [|discriminate].
  destruct (Hloop (parsers dag) edges (fun p Hp => Hp) Hedges) as (N & D & T).
  intros [= <-].
  rewrite !released_names_app, !released_data_app, !released_tags_app, N, D, T.
  destruct (json_is_null (tags dag));
    cbn [omap released_names released_data released_tags app];
    rewrite ?app_nil_r; repeat split; reflexivity.
Qed.

Lemma built_destructible (P : ln_plugins) (types : list string) (calls : list builder_call)
    (ctx : ln_ctx) (cur : ln_cursor) :
  builder_run P (ctx_init types, main_root) calls = Some (ctx, cur) ->
  ctx_edges_all (data_destructible P) ctx.
Proof.
  intros Hrun.
  apply (builder_run_edges_all P (data_destructible P) calls) with (2 := Hrun);
    [|apply ctx_init_edges_all].
  intros call prs _. apply call_edge_destructible.
Qed.


(** ** What the optimizer keeps *)

Lemma has_literal_run_unfold (dag : ln_pdag) :
  has_literal_run dag
  = existsb (fun prs => compactable prs || has_literal_run (node prs)) (parsers dag).
Proof. destruct dag. reflexivity. Qed.

Lemma ln_pdagComponentOptimize_no_run (dag : ln_pdag) :
  has_literal_run (snd (ln_pdagComponentOptimize dag)) = false.
Proof.
  induction dag as [dag _ IH] using pdag_size_ind.
  rewrite ln_pdagComponentOptimize_unfold, has_literal_run_unfold.
  cbn [set_parsers parsers]. apply not_true_is_false. intros Hex.
  apply existsb_exists in Hex as (q & Hq & Hrun).
  apply in_map_iff in Hq as (prs & <- & Hin).
  rewrite compactable_optimize_edge in Hrun. cbn [orb] in Hrun.
  unfold optimize_edge in Hrun. cbn [set_node node] in Hrun.
  rewrite IH in Hrun; [discriminate|].
  pose proof (pdag_size_child _ _ Hin). pose proof (optLitPathCompact_size prs). lia.
Qed.

(** X6.  After [ln_pdagOptimize] no component of the context has a literal
    edge that leads to a node whose only edge is a literal: the compaction
    has been carried through, at every depth. *)
Theorem ln_pdagOptimize_no_literal_run (ctx : ln_ctx) :
  ctx_has_literal_run (snd (ln_pdagOptimize ctx)) = false.
Proof.
  unfold ctx_has_literal_run, ln_pdagOptimize. cbn [snd pdag type_pdags].
  rewrite ln_pdagComponentOptimize_no_run. cbn [orb].
  apply not_true_is_false. intros Hex. apply existsb_exists in Hex as (t & Ht & Hrun).
  apply in_map_iff in Ht as (t0 & <- & _). cbn [tp_pdag] in Hrun.
  rewrite ln_pdagComponentOptimize_no_run in Hrun. discriminate.
Qed.

Lemma pdag_paths_unfold (dag : ln_pdag) :
  pdag_paths dag
  = match parsers dag with
    | [] => [[]]
    | prss => flat_map (fun prs => map (seg_cons prs) (pdag_paths (node prs))) prss
    end.
Proof. destruct dag. reflexivity. Qed.

Lemma seg_cons_set_node {N M : Type} (prs : ln_parser_t N) (n : M) :
  seg_cons (set_node prs n) = seg_cons prs.
Proof. reflexivity. Qed.

Lemma string_app_assoc (a b c : string) : (a +:+ b) +:+ c = a +:+ (b +:+ c).
Proof.
  induction a as [|x a IH]; [reflexivity|].
  change (String x ((a +:+ b) +:+ c) = String x (a +:+ (b +:+ c))). rewrite IH. reflexivity.
Qed.

(** A round of the compaction keeps the paths through the edge. *)
Lemma compact_step_paths (prs : ln_parser_t ln_pdag) :
  compactable prs = true ->
  map (seg_cons (snd (compact_step prs))) (pdag_paths (node (snd (compact_step prs))))
  = map (seg_cons prs) (pdag_paths (node prs)).
Proof.
  intros Hc. apply compactable_inv in Hc as [Hid [c [Hcs Hcid]]].
  rewrite (compact_step_compactable _ _ Hcs). cbn [snd set_node node].
  rewrite (pdag_paths_unfold (node prs)), Hcs. cbn [flat_map]. rewrite app_nil_r, map_map.
  apply map_ext. intros path. unfold seg_cons.
  cbn [prsid parser_data set_parser_data set_node name custType node prio].
  rewrite Hid, Hcid, !Nat.eqb_refl.
  change (lit_payload (Some ?x)) with x.
  destruct path as [|[text|nm id ct d] rest]; rewrite ?Nat.eqb_refl, ?string_app_assoc;
    reflexivity.
Qed.

Lemma optLitPathCompact_paths (n : nat) :
  forall prs : ln_parser_t ln_pdag,
    (pdag_size (node prs) <= n)%nat ->
    map (seg_cons (snd (optLitPathCompact prs))) (pdag_paths (node (snd (optLitPathCompact prs))))
    = map (seg_cons prs) (pdag_paths (node prs)).
Proof.
  induction n as [|n IH]; intros prs Hsz.
  - pose proof (pdag_size_pos (node prs)). lia.
  - rewrite optLitPathCompact_unfold. destruct (compactable prs) eqn:Hc; [|reflexivity].
    destruct (compact_step_size prs Hc) as [_ Hs].
    rewrite IH by lia. apply compact_step_paths. exact Hc.
Qed.

Lemma ln_pdagComponentOptimize_paths (dag : ln_pdag) :
  pdag_paths (snd (ln_pdagComponentOptimize dag)) = pdag_paths dag.
Proof.
  induction dag as [dag _ IH] using pdag_size_ind.
  rewrite ln_pdagComponentOptimize_unfold, (pdag_paths_unfold dag), pdag_paths_unfold.
  cbn [set_parsers parsers].
  destruct (parsers dag) as [|p ps] eqn:Hps; [reflexivity|].
  rewrite <- Hps.
  assert (Hne : map (optimize_edge (fun d => snd (ln_pdagComponentOptimize d))) (parsers dag)
                <> []) by (rewrite Hps; discriminate).
  destruct (map _ (parsers dag)) as [|q qs] eqn:Hmap; [contradiction|].
  rewrite <- Hmap. clear Hne Hmap q qs.
  assert (Hflat : flat_map (fun prs => map (seg_cons prs) (pdag_paths (node prs)))
                    (map (optimize_edge (fun d => snd (ln_pdagComponentOptimize d)))
                       (parsers dag))
                  = flat_map (fun prs => map (seg_cons prs) (pdag_paths (node prs)))
                      (parsers dag)).
  { rewrite !flat_map_concat_map, map_map. f_equal. apply map_ext_in. intros prs Hin.
    unfold optimize_edge. change (node (set_node ?p ?n)) with n.
    rewrite seg_cons_set_node. rewrite IH.
    - apply (optLitPathCompact_paths _ prs (Nat.le_refl _)).
    - pose proof (pdag_size_child _ _ Hin). pose proof (optLitPathCompact_size prs). lia. }
  rewrite Hflat, Hps. reflexivity.
Qed.

(** X7.  The optimizer keeps what the paths of every component spell: along
    every path from the root to a leaf, the same field parsers (name, id,
    type and data) in the same order, with the same literal text between
    them; the paths stay in their order. *)
Theorem ln_pdagOptimize_paths (ctx : ln_ctx) :
  map pdag_paths (ctx_components (snd (ln_pdagOptimize ctx)))
  = map pdag_paths (ctx_components ctx).
Proof.
  unfold ctx_components, ln_pdagOptimize. cbn [snd pdag type_pdags map].
  rewrite ln_pdagComponentOptimize_paths. f_equal.
  rewrite !map_map. apply map_ext. intros t. cbn [tp_pdag].
  apply ln_pdagComponentOptimize_paths.
Qed.

(** ** The normalizer: what a caller can rely on *)

Section NormalizerGuarantees.

Context (P : ln_plugins) (ctx : ln_ctx).

(** The status of a round is the one the loop had, or the one the call on
    the child returned, or zero: the status of the field parser only decides
    whether the child is tried. *)
Lemma edge_loop_status (rec : normalizeRec_t) (str : string) (strLen offs : size_t)
    (b : bool) (l : list (ln_parser_t ln_pdag)) :
  (forall dag s len o b' p j e out,
      rec dag s len o b' p j e = Some out -> no_r out = 0 \/ no_r out = LN_WRONGPARSER) ->
  forall st0 st : loop_state,
    edge_loop P ctx rec str strLen offs b l st0 = Some st ->
    ls_r st0 = 0 \/ ls_r st0 = LN_WRONGPARSER ->
    ls_r st = 0 \/ ls_r st = LN_WRONGPARSER.
Proof.
  intros Hrec. induction l as [|prs l IH]; intros st0 st Hl H0; cbn [edge_loop] in Hl.
  - injection Hl as <-. exact H0.
  - destruct (ls_r st0 =? 0).
    + injection Hl as <-. exact H0.
    + destruct (edge_round P ctx rec str strLen offs b prs st0) as [st'|] eqn:Hround;
        cbn [mbind option_bind] in Hl; [|discriminate].
      apply (IH st' st Hl).
      destruct (edge_round_cases P ctx _ _ _ _ _ _ _ _ Hround)
        as (t & Ht & [[Hrt ->]|(Hrt & out & Hout & [[Ho ->]|[Ho ->]])]);
        watermark_fields; cbn [ls_r].
      * exact H0.
      * eapply Hrec. exact Hout.
      * left. reflexivity.
Qed.

Lemma ln_normalizeRec_status (fuel : nat) :
  forall dag str strLen offs b p js e out,
    ln_normalizeRec P ctx fuel dag str strLen offs b p js e = Some out ->
    no_r out = 0 \/ no_r out = LN_WRONGPARSER.
Proof.
  induction fuel as [|fuel IH]; intros dag str strLen offs b p js e out Hrun; [discriminate|].
  rewrite ln_normalizeRec_unfold in Hrun.
  destruct (edge_loop _ _ _ _ _ _ _ _ _) as [st|] eqn:Hloop;
    cbn [mbind option_bind] in Hrun; [|discriminate].
  injection Hrun as <-.
  destruct (terminal_here dag strLen offs b); cbn [no_r]; [left; reflexivity|].
  apply (edge_loop_status _ _ _ _ _ _ IH _ _ Hloop). right. reflexivity.
Qed.

(** A call on a node without edges of user-defined types whose parser ids
    are in the table returns, with a budget of the size of the node. *)
Lemma ln_normalizeRec_total_builtin (fuel : nat) :
  forall dag : ln_pdag,
    edges_ok P 0 dag = true -> (pdag_size dag <= fuel)%nat ->
    forall str strLen offs b p js e,
    exists out, ln_normalizeRec P ctx fuel dag str strLen offs b p js e = Some out.
Proof.
  induction fuel as [|fuel IH]; intros dag Hok Hfuel str strLen offs b p js e.
  - pose proof (pdag_size_pos dag). lia.
  - rewrite ln_normalizeRec_unfold.
    destruct (edge_loop_total P ctx (ln_normalizeRec P ctx fuel) str strLen offs b (parsers dag))
      with (st := mk_loop_state LN_WRONGPARSER p 0 p js e) as [st ->];
      [|cbn [mbind option_bind]; eauto].
    intros prs Hin st.
    destruct (edges_ok_0_edge P dag prs Hok Hin) as [Hid Hchild].
    pose proof (pdag_size_child _ _ Hin) as Hsz.
    rewrite edges_ok_unfold in Hok. rewrite forallb_forall in Hok.
    specialize (Hok prs Hin). apply andb_true_iff in Hok as [Hlt _]. rewrite Hid in Hlt.
    apply Nat.ltb_lt in Hlt.
    unfold edge_round, tryParser_with. rewrite Hid.
    destruct (parser_lookup_table P !! prsid prs) as [info|] eqn:Hinfo.
    2:{ apply lookup_ge_None in Hinfo. unfold NPARSERS in Hlt. lia. }
    cbn [mbind option_bind to_r to_offs to_parsed to_value].
    destruct (po_r _ =? 0); [|cbn [mbind option_bind]; eauto].
    match goal with
    | |- context [ln_normalizeRec P ctx fuel (node prs) ?s ?len ?o ?b' ?p' ?j ?e'] =>
        destruct (IH (node prs) Hchild ltac:(lia) s len o b' p' j e') as [out ->]
    end.
    cbn [mbind option_bind].
    destruct (no_r out =? 0); [|cbn [mbind option_bind]; eauto].
    destruct (fixJSON _ (no_json out) prs). cbn [mbind option_bind]. eauto.
Qed.

(** X11.  A user-defined type whose first edge refers to the type itself:
    the normalizer enters the type again at the same offset before it has
    consumed anything, so no recursion budget is enough for a call on the
    type (the C code recurses until the stack is used up).  It is the same
    for [ln_normalize] when the first edge of the main pdag refers to such
    a type. *)
Theorem ln_normalizeRec_left_recursion (i : nat) (T : ln_type_pdag)
    (prs : ln_parser_t ln_pdag) (rest : list (ln_parser_t ln_pdag)) :
  type_pdags ctx !! i = Some T ->
  parsers (tp_pdag T) = prs :: rest ->
  prsid prs = PRS_CUSTOM_TYPE -> custType prs = Some i ->
  (forall fuel str strLen offs b p js e,
      ln_normalizeRec P ctx fuel (tp_pdag T) str strLen offs b p js e = None)
  /\ (forall (prs0 : ln_parser_t ln_pdag) (rest0 : list (ln_parser_t ln_pdag)),
        parsers (pdag ctx) = prs0 :: rest0 ->
        prsid prs0 = PRS_CUSTOM_TYPE -> custType prs0 = Some i ->
        forall fuel str strLen json_p, ln_normalize P ctx fuel str strLen json_p = None).
Proof.
  intros HT Hprs Hid Hct.
  assert (Hrec : forall fuel str strLen offs b p js e,
             ln_normalizeRec P ctx fuel (tp_pdag T) str strLen offs b p js e = None).
  { induction fuel as [|fuel IH]; intros str strLen offs b p js e; [reflexivity|].
    rewrite ln_normalizeRec_unfold, Hprs. cbn [edge_loop ls_r].
    change (LN_WRONGPARSER =? 0) with false. cbv iota.
    unfold edge_round, tryParser_with. rewrite Hid, Nat.eqb_refl, Hct.
    cbn [mbind option_bind]. rewrite HT. cbn [mbind option_bind].
    rewrite IH. reflexivity. }
  split; [exact Hrec|].
  intros prs0 rest0 Hprs0 Hid0 Hct0 fuel str strLen json_p. unfold ln_normalize.
  destruct fuel as [|fuel]; [reflexivity|].
  rewrite ln_normalizeRec_unfold, Hprs0. cbn [edge_loop ls_r].
  change (LN_WRONGPARSER =? 0) with false. cbv iota.
  unfold edge_round, tryParser_with. rewrite Hid0, Nat.eqb_refl, Hct0.
  cbn [mbind option_bind]. rewrite HT. cbn [mbind option_bind].
  rewrite Hrec. reflexivity.
Qed.


(** X14.  Given that the annotator reports success, a failed normalization
    hands back the object of the caller with the two fields originalmsg and
    unparsed-data added (or replaced) and nothing else: no field of a
    branch that was tried and given up reaches the result. *)
Theorem ln_normalize_failure_object (fuel : nat) (str : string) (strLen : size_t)
    (json_p : json) (o : gmap string json) (r : Z) (js : json) :
  annotator_succeeds P ->
  (if json_is_null json_p then json_object_new_object else json_p) = JObject o ->
  ln_normalize P ctx fuel str strLen json_p = Some (r, js) ->
  r <> 0 ->
  exists original unparsed : string,
    js = JObject (<[UNPARSED_DATA_KEY := JString unparsed]>
                    (<[ORIGINAL_MSG_KEY := JString original]> o))
    /\ forall key : string,
         key <> ORIGINAL_MSG_KEY -> key <> UNPARSED_DATA_KEY ->
         json_object_object_get js key = o !! key.
Proof.
  intros Hann Ho. unfold ln_normalize. rewrite Ho.
  destruct (ln_normalizeRec P ctx fuel (pdag ctx) str strLen 0 false 0 (JObject o) None)
    as [out|] eqn:Hrec; cbn [mbind option_bind]; [|discriminate].
  destruct (Z.eq_dec (no_r out) 0) as [Hr|Hr].
  - destruct (ln_normalizeRec_endNode P ctx _ _ _ _ _ _ _ _ _ _ Hrec Hr) as (n & Hn & Hterm).
    rewrite Hr, Hn. cbn [Z.eqb mbind option_bind]. rewrite Hterm.
    intros [= Hfin] Hne. exfalso.
    pose proof (finalize_event_status P n (no_json out) Hann) as Haux.
    rewrite Hfin in Haux. contradiction.
  - pose proof (ln_normalizeRec_failure_json P ctx _ _ _ _ _ _ _ _ _ _ Hrec Hr) as Hj.
    apply Z.eqb_neq in Hr. rewrite Hr, Hj. unfold addUnparsedField.
    destruct ((0 <=? no_parsedTo out) && _); cbn [mbind option_bind]; [|discriminate].
    intros [= <- <-] _. cbn [json_object_object_add].
    eexists _, _. split; [reflexivity|].
    intros key H1 H2. cbn [json_object_object_get].
    rewrite !lookup_insert_ne by congruence. reflexivity.
Qed.

(** X15.  A rulebase without user-defined types: where the ids of the edges
    of the main pdag are ids of the parser table and the field parsers stay
    inside the buffer, [ln_normalize] returns for every input buffer without
    a NUL byte, with a recursion budget of the size of the pdag; and when it
    fails, originalmsg is the input and unparsed-data is a suffix of the
    input. *)
Theorem ln_normalize_builtin_only (fuel : nat) (str : string) (strLen : size_t)
    (json_p : json) :
  parsers_in_bounds P -> annotator_succeeds P ->
  edges_ok P 0 (pdag ctx) = true ->
  is_buffer str strLen -> has_nul str = false -> strLen < SIZE_MODULUS ->
  json_is_null json_p || json_is_object json_p = true ->
  (pdag_size (pdag ctx) <= fuel)%nat ->
  exists (r : Z) (js : json),
    ln_normalize P ctx fuel str strLen json_p = Some (r, js)
    /\ (r <> 0 ->
        exists k : nat,
          (k <= String.length str)%nat
          /\ json_object_object_get js ORIGINAL_MSG_KEY = Some (JString str)
          /\ json_object_object_get js UNPARSED_DATA_KEY = Some (JString (string_drop k str))).
Proof.
  intros Hpar Hann Hok Hbuf Hnul Hlen Hjs Hfuel.
  set (js0 := if json_is_null json_p then json_object_new_object else json_p).
  destruct (ln_normalizeRec_total_builtin fuel (pdag ctx) Hok Hfuel str strLen 0 false 0 js0 None)
    as [out Hout].
  assert (Hpos : 0 <= strLen) by (unfold is_buffer in Hbuf; lia).
  assert (H0 : 0 <= 0 <= strLen) by lia.
  destruct (ln_normalizeRec_watermark_bounds P ctx fuel Hpar _ _ _ _ _ _ _ _ _ Hok Hlen
              H0 H0 Hout) as [Hwm _].
  unfold ln_normalize. fold js0. rewrite Hout. cbn [mbind option_bind].
  destruct (Z.eq_dec (no_r out) 0) as [Hr|Hr].
  - destruct (ln_normalizeRec_endNode P ctx _ _ _ _ _ _ _ _ _ _ Hout Hr) as (n & Hn & Hterm).
    rewrite Hr, Hn. cbn [Z.eqb mbind option_bind]. rewrite Hterm.
    pose proof (finalize_event_status P n (no_json out) Hann) as Hs.
    destruct (finalize_event P n (no_json out)) as [r js]. cbn [fst] in Hs.
    exists r, js. split; [reflexivity|]. intros Hne. contradiction.
  - pose proof (ln_normalizeRec_failure_json P ctx _ _ _ _ _ _ _ _ _ _ Hout Hr) as Hj.
    assert (Hobj : exists o, no_json out = JObject o).
    { rewrite Hj. unfold js0. destruct json_p; try discriminate; eexists; reflexivity. }
    destruct Hobj as [o Ho].
    apply Z.eqb_neq in Hr as Hrb. rewrite Hrb, Ho.
    unfold addUnparsedField. rewrite (strndup_buffer _ _ Hbuf Hnul).
    unfold is_buffer in Hbuf.
    assert (Hin : (0 <=? no_parsedTo out) && (no_parsedTo out <=? Z.of_nat (String.length str))
                  = true).
    { apply andb_true_iff. split; apply Z.leb_le; lia. }
    rewrite Hin. cbn [mbind option_bind].
    eexists _, _. split; [reflexivity|]. intros _.
    exists (Z.to_nat (no_parsedTo out)). split; [lia|].
    cbn [json_object_object_add json_object_object_get]. split.
    + rewrite lookup_insert_ne by discriminate. apply lookup_insert_eq.
    + apply lookup_insert_eq.
Qed.

(** X12.  Where the user-defined types are stratified (a type only uses the
    types defined before it) and the ids of the edges are ids of the parser
    table, the recursive normalizer returns on the main pdag for every
    input, and the depth of its recursion stays below the number of nodes of
    the context: every budget from that number on gives the same result. *)
Theorem ln_normalizeRec_terminates (str : string) (strLen offs : size_t) (b : bool)
    (p : size_t) (js : json) (e : option ln_pdag) :
  types_stratified P ctx -> edges_ok P (nTypes ctx) (pdag ctx) = true ->
  exists out : norm_out,
    forall fuel : nat,
      (live_nodes ctx <= fuel)%nat ->
      ln_normalizeRec P ctx fuel (pdag ctx) str strLen offs b p js e = Some out.
Proof.
  intros Hstrat Hok.
  assert (Hlive : live_nodes ctx = (pdag_size (pdag ctx) + types_below ctx (nTypes ctx))%nat).
  { unfold live_nodes, types_below, nTypes. rewrite firstn_all. reflexivity. }
  destruct (ln_normalizeRec_total P ctx (live_nodes ctx) Hstrat (nTypes ctx) (pdag ctx)
              (Nat.le_refl _) Hok ltac:(lia) str strLen offs b p js e) as [out Hout].
  exists out. intros fuel Hfuel.
  apply (ln_normalizeRec_fuel_mono P ctx _ _ Hfuel). exact Hout.
Qed.

End NormalizerGuarantees.

(** ** The fields of a match *)

Lemma fixJSON_object (value : json) (o : gmap string json) (prs : ln_parser_t ln_pdag) :
  exists o' : gmap string json, snd (fixJSON value (JObject o) prs) = JObject o'.
Proof.
  unfold fixJSON. destruct (streq (name prs) "-"); [eauto|].
  destruct (streq (name prs) "."); [|cbn; eauto].
  destruct value; cbn [snd json_object_object_add]; eauto.
  rewrite fold_object_add. eauto.
Qed.

Section Fields.

Context (P : ln_plugins) (ctx : ln_ctx).

Lemma edge_loop_object (rec : normalizeRec_t) (str : string) (strLen offs : size_t)
    (b : bool) (l : list (ln_parser_t ln_pdag)) :
  (forall dag s len o b' p j e out,
      rec dag s len o b' p j e = Some out ->
      json_is_object j = true -> json_is_object (no_json out) = true) ->
  forall st0 st : loop_state,
    edge_loop P ctx rec str strLen offs b l st0 = Some st ->
    json_is_object (ls_json st0) = true -> json_is_object (ls_json st) = true.
Proof.
  intros Hrec. induction l as [|prs l IH]; intros st0 st Hl H0; cbn [edge_loop] in Hl.
  - injection Hl as <-. exact H0.
  - destruct (ls_r st0 =? 0).
    + injection Hl as <-. exact H0.
    + destruct (edge_round P ctx rec str strLen offs b prs st0) as [st'|] eqn:Hround;
        cbn [mbind option_bind] in Hl; [|discriminate].
      apply (IH st' st Hl).
      destruct (edge_round_cases P ctx _ _ _ _ _ _ _ _ Hround)
        as (t & Ht & [[Hrt ->]|(Hrt & out & Hout & [[Ho ->]|[Ho ->]])]);
        watermark_fields; cbn [ls_json].
      * exact H0.
      * eapply Hrec; eassumption.
      * pose proof (Hrec _ _ _ _ _ _ _ _ _ Hout H0) as Hobj.
        destruct (no_json out) as [| | | | |o']; try discriminate.
        destruct (fixJSON_object (to_value t) o' prs) as [o'' ->]. reflexivity.
Qed.

Lemma ln_normalizeRec_object (fuel : nat) :
  forall dag str strLen offs b p js e out,
    ln_normalizeRec P ctx fuel dag str strLen offs b p js e = Some out ->
    json_is_object js = true -> json_is_object (no_json out) = true.
Proof.
  induction fuel as [|fuel IH]; intros dag str strLen offs b p js e out Hrun Hobj;
    [discriminate|].
  rewrite ln_normalizeRec_unfold in Hrun.
  destruct (edge_loop _ _ _ _ _ _ _ _ _) as [st|] eqn:Hloop;
    cbn [mbind option_bind] in Hrun; [|discriminate].
  injection Hrun as <-.
  pose proof (edge_loop_object _ _ _ _ _ _ IH _ _ Hloop Hobj) as Hst.
  destruct (terminal_here dag strLen offs b); exact Hst.
Qed.

(** The edges that were tried without a match leave the result object and
    the end node as they were. *)
Lemma edges_tried_json (rec : normalizeRec_t) (str : string) (strLen offs : size_t)
    (b : bool) (tried : list (ln_parser_t ln_pdag)) (st0 st1 : loop_state) :
  (forall dag s len o b' p j e out,
      rec dag s len o b' p j e = Some out -> no_r out <> 0 -> no_json out = j) ->
  edges_tried P ctx rec str strLen offs b tried st0 st1 ->
  ls_json st1 = ls_json st0.
Proof.
  intros Hrec [Hl Hr]. apply (edge_loop_failure_json P ctx _ _ _ _ _ _ Hrec _ _ Hl Hr).
Qed.

(** X16.  A call that succeeds through an edge (the node is not an end of the
    match itself): the edge that matched is an edge of the node; its
    subtree was walked with the result object as the call found it, the
    edges tried before having left no trace; and the value of the edge was
    folded into the result after the fields of the subtree.  So a field with
    an ordinary name holds the value of the edge, also when the subtree has
    a field of the same name: on equal names the field nearest to the root
    wins. *)
Theorem ln_normalizeRec_field_order (fuel : nat) (dag : ln_pdag) (str : string)
    (strLen offs : size_t) (b : bool) (p : size_t) (o : gmap string json)
    (e : option ln_pdag) (out : norm_out) :
  ln_normalizeRec P ctx (S fuel) dag str strLen offs b p (JObject o) e = Some out ->
  terminal_here dag strLen offs b = false -> no_r out = 0 ->
  exists (prs : ln_parser_t ln_pdag) (parsed : size_t) (t : try_out) (e' : option ln_pdag)
         (out' : norm_out) (o' : gmap string json),
    In prs (parsers dag)
    /\ tryParser_with P ctx (ln_normalizeRec P ctx fuel) str strLen offs parsed JNull prs = Some t
    /\ to_r t = 0
    /\ ln_normalizeRec P ctx fuel (node prs) str strLen (size_t_wrap (to_offs t + to_parsed t)) b
         (size_t_wrap (to_offs t + to_parsed t)) (JObject o) e' = Some out'
    /\ no_r out' = 0 /\ no_json out' = JObject o'
    /\ no_json out = snd (fixJSON (to_value t) (JObject o') prs)
    /\ (name prs <> "-" -> name prs <> "." ->
        no_json out = JObject (<[name prs := to_value t]> o')
        /\ json_object_object_get (no_json out) (name prs) = Some (to_value t)).
Proof.
  intros Hrun Hterm Hr. rewrite ln_normalizeRec_unfold in Hrun.
  destruct (edge_loop _ _ _ _ _ _ _ _ _) as [st|] eqn:Hloop;
    cbn [mbind option_bind] in Hrun; [|discriminate].
  injection Hrun as <-. rewrite Hterm in Hr |- *. cbn [no_r no_json] in *.
  destruct (edge_loop_first_match P ctx _ _ _ _ _ _ _ _ Hloop LN_WRONGPARSER_nonzero)
    as [[Hne _]|(_ & tried & prs & rest & st1 & Heq & Htried & _ & Hround)];
    [contradiction|].
  pose proof (edges_tried_json _ _ _ _ _ _ _ _
                (ln_normalizeRec_failure_json P ctx fuel) Htried) as Hjs.
  cbn [ls_json] in Hjs.
  destruct (edge_round_cases P ctx _ _ _ _ _ _ _ _ Hround)
    as (t & Ht & [[Hrt Hst]|(Hrt & out' & Hout' & [[Ho Hst]|[Ho Hst]])]).
  - exfalso. destruct Htried as [_ Hr1]. subst st.
    rewrite (proj1 (watermark_update_fields _)) in Hr. cbn [ls_r] in Hr. contradiction.
  - exfalso. subst st.
    rewrite (proj1 (watermark_update_fields _)) in Hr. cbn [ls_r] in Hr. contradiction.
  - rewrite Hjs in Hout'.
    pose proof (ln_normalizeRec_object fuel _ _ _ _ _ _ _ _ _ Hout' eq_refl) as Hobj.
    destruct (no_json out') as [| | | | |o'] eqn:Ho'; try discriminate.
    exists prs, (ls_parsed st1), t, (ls_endNode st1), out', o'.
    assert (Hjson : ls_json st = snd (fixJSON (to_value t) (JObject o') prs)).
    { subst st. watermark_fields. reflexivity. }
    split; [rewrite Heq; apply in_or_app; right; left; reflexivity|].
    split; [exact Ht|]. split; [exact Hrt|]. split; [exact Hout'|].
    split; [exact Ho|]. split; [exact Ho'|]. split; [exact Hjson|].
    intros H1 H2. rewrite Hjson. unfold fixJSON, streq.
    apply String.eqb_neq in H1. apply String.eqb_neq in H2. rewrite H1, H2.
    cbn [snd json_object_object_add json_object_object_get]. split; [reflexivity|].
    apply lookup_insert_eq.
Qed.

End Fields.

(** ** Literal samples are matched *)

Lemma string_drop_cons (n : nat) (s : string) (c : ascii) (s' : string) :
  string_drop n s = String c s' -> string_drop (S n) s = s' /\ (n < String.length s)%nat.
Proof.
  revert s. induction n as [|n IH]; intros s Hs.
  - cbn [string_drop] in Hs. subst s. cbn. split; [reflexivity|lia].
  - destruct s as [|a s]; [discriminate|]. cbn [string_drop] in Hs.
    destruct (IH s Hs) as [H1 H2]. split; [exact H1|]. cbn [String.length]. lia.
Qed.

Lemma string_drop_nil (n : nat) (s : string) :
  string_drop n s = EmptyString -> (String.length s <= n)%nat.
Proof.
  revert s. induction n as [|n IH]; intros s Hs.
  - cbn [string_drop] in Hs. subst s. cbn. lia.
  - destruct s as [|a s]; [cbn; lia|]. cbn [string_drop] in Hs.
    specialize (IH s Hs). cbn [String.length]. lia.
Qed.

Section LiteralMatch.

Context (P : ln_plugins) (ctx : ln_ctx).

Lemma edge_loop_app_stop (rec : normalizeRec_t) (str : string) (strLen offs : size_t)
    (b : bool) (l1 l2 : list (ln_parser_t ln_pdag)) :
  forall st0 st1 : loop_state,
    edge_loop P ctx rec str strLen offs b l1 st0 = Some st1 ->
    ls_r st1 = 0 ->
    edge_loop P ctx rec str strLen offs b (l1 ++ l2) st0 = Some st1.
Proof.
  induction l1 as [|prs l1 IH]; intros st0 st1 Hl Hr; cbn [edge_loop app] in *.
  - injection Hl as ->. apply edge_loop_stop. exact Hr.
  - destruct (ls_r st0 =? 0); [exact Hl|].
    destruct (edge_round P ctx rec str strLen offs b prs st0) as [st'|];
      cbn [mbind option_bind] in *; [|discriminate].
    apply IH; assumption.
Qed.

Lemma edge_round_total_builtin (rec : normalizeRec_t) (str : string) (strLen offs : size_t)
    (b : bool) (prs : ln_parser_t ln_pdag) :
  Nat.eqb (prsid prs) PRS_CUSTOM_TYPE = false -> (prsid prs < NPARSERS P)%nat ->
  (forall s len o b' p j e, exists out, rec (node prs) s len o b' p j e = Some out) ->
  forall st, exists st', edge_round P ctx rec str strLen offs b prs st = Some st'.
Proof.
  intros Hid Hlt Hrec st. unfold edge_round, tryParser_with. rewrite Hid.
  destruct (parser_lookup_table P !! prsid prs) as [info|] eqn:Hinfo.
  2:{ apply lookup_ge_None in Hinfo. unfold NPARSERS in Hlt. lia. }
  cbn [mbind option_bind to_r to_offs to_parsed to_value].
  destruct (po_r _ =? 0); [|cbn [mbind option_bind]; eauto].
  match goal with
  | |- context [rec (node prs) ?s ?len ?o ?b' ?p' ?j ?e'] =>
      destruct (Hrec s len o b' p' j e') as [out ->]
  end.
  cbn [mbind option_bind].
  destruct (no_r out =? 0); [|cbn [mbind option_bind]; eauto].
  destruct (fixJSON _ (no_json out) prs). cbn [mbind option_bind]. eauto.
Qed.

Lemma edges_ok_0_id (dag : ln_pdag) (prs : ln_parser_t ln_pdag) :
  edges_ok P 0 dag = true -> In prs (parsers dag) -> (prsid prs < NPARSERS P)%nat.
Proof.
  intros Hok Hin. destruct (edges_ok_0_edge P dag prs Hok Hin) as [Hid _].
  rewrite edges_ok_unfold in Hok. rewrite forallb_forall in Hok.
  specialize (Hok prs Hin). apply andb_true_iff in Hok as [Hlt _]. rewrite Hid in Hlt.
  apply Nat.ltb_lt in Hlt. exact Hlt.
Qed.

Context (str : string) (strLen : size_t).
Hypothesis Hparse : literal_parser_ok P.
Hypothesis Hbuf : is_buffer str strLen.
Hypothesis Hlen : strLen < SIZE_MODULUS.

(** The round of a one-character literal edge at an offset where the
    character stands, with a child that matches the rest. *)
Lemma edge_round_literal (rec : normalizeRec_t) (offs : size_t) (prs : ln_parser_t ln_pdag)
    (c : ascii) (rest : string) (st : loop_state) :
  0 <= offs <= strLen ->
  string_drop (Z.to_nat offs) str = String c rest ->
  prsid prs = PRS_LITERAL -> parser_data prs = Some (String c EmptyString) ->
  (forall p j e, exists out,
      rec (node prs) str strLen (offs + 1) false p j e = Some out /\ no_r out = 0) ->
  exists st', edge_round P ctx rec str strLen offs false prs st = Some st' /\ ls_r st' = 0.
Proof.
  intros Hoffs Hdrop Hid Hdata Hrec.
  destruct (string_drop_cons _ _ _ _ Hdrop) as [_ Hlt].
  unfold is_buffer in Hbuf.
  apply edge_matches_round. unfold edge_matches, tryParser_with.
  rewrite Hid, Hdata.
  change (Nat.eqb PRS_LITERAL PRS_CUSTOM_TYPE) with false. cbv iota.
  change (parser_lookup_table P !! PRS_LITERAL) with (Some (PARSER_ENTRY P "literal" "Literal")).
  cbn [mbind option_bind PARSER_ENTRY parser].
  destruct (Hparse str strLen offs (String c EmptyString) (ls_parsed st)
              (negb (streq (name prs) "-")) Hbuf Hoffs) as (Hr & Ho & Hp).
  { rewrite Hdrop. cbn [string_prefix]. rewrite Ascii.eqb_refl. reflexivity. }
  cbn [String.length] in Hp.
  assert (Hwrap : size_t_wrap (offs + 1) = offs + 1).
  { unfold size_t_wrap. apply Z.mod_small. lia. }
  destruct (Hrec (offs + 1) (ls_json st) (ls_endNode st)) as (out & Hout & Hz).
  eexists _, out. split; [reflexivity|]. cbn [to_r to_offs to_parsed].
  rewrite Hr, Ho, Hp. change (Z.of_nat 1) with 1. rewrite Hwrap.
  split; [reflexivity|]. split; [exact Hout|exact Hz].
Qed.

Lemma lit_accepts_normalizeRec (fuel : nat) :
  forall (dag : ln_pdag) (offs p : size_t) (js : json) (e : option ln_pdag),
    edges_ok P 0 dag = true -> (pdag_size dag <= fuel)%nat ->
    0 <= offs <= strLen ->
    lit_accepts (string_drop (Z.to_nat offs) str) dag ->
    exists out,
      ln_normalizeRec P ctx fuel dag str strLen offs false p js e = Some out /\ no_r out = 0.
Proof.
  induction fuel as [|fuel IH]; intros dag offs p js e Hok Hfuel Hoffs Hacc.
  - pose proof (pdag_size_pos dag). lia.
  - rewrite ln_normalizeRec_unfold.
    assert (Hround : forall prs, In prs (parsers dag) -> forall st, exists st',
               edge_round P ctx (ln_normalizeRec P ctx fuel) str strLen offs false prs st
               = Some st').
    { intros prs Hin. destruct (edges_ok_0_edge P dag prs Hok Hin) as [Hid Hch].
      apply edge_round_total_builtin; [exact Hid|apply (edges_ok_0_id dag); assumption|].
      intros s len o b' p' j e'.
      apply (ln_normalizeRec_total_builtin P ctx fuel (node prs) Hch).
      pose proof (pdag_size_child _ _ Hin). lia. }
    destruct (string_drop (Z.to_nat offs) str) as [|c rest] eqn:Hdrop; cbn [lit_accepts] in Hacc.
    + (* the text is used up: the node is terminal *)
      destruct (edge_loop_total P ctx _ str strLen offs false (parsers dag) Hround
                  (mk_loop_state LN_WRONGPARSER p 0 p js e)) as [st ->].
      cbn [mbind option_bind].
      apply string_drop_nil in Hdrop. unfold is_buffer in Hbuf.
      assert (Hend : offs = strLen) by lia.
      unfold terminal_here. rewrite Hacc. apply Z.eqb_eq in Hend. rewrite Hend.
      cbn [andb orb]. eexists. split; reflexivity.
    + destruct Hacc as (prs & Hin & Hid & Hdata & Hrest).
      apply in_split in Hin as (l1 & l2 & Hsplit).
      assert (Hin1 : forall q, In q l1 -> In q (parsers dag))
        by (intros q Hq; rewrite Hsplit; apply in_or_app; left; exact Hq).
      assert (Hinp : In prs (parsers dag))
        by (rewrite Hsplit; apply in_or_app; right; left; reflexivity).
      destruct (edge_loop_total P ctx (ln_normalizeRec P ctx fuel) str strLen offs false l1
                  (fun q Hq => Hround q (Hin1 q Hq))
                  (mk_loop_state LN_WRONGPARSER p 0 p js e)) as [st1 Hst1].
      assert (Hst : exists st,
                 edge_loop P ctx (ln_normalizeRec P ctx fuel) str strLen offs false
                   (parsers dag) (mk_loop_state LN_WRONGPARSER p 0 p js e) = Some st
                 /\ ls_r st = 0).
      { rewrite Hsplit. destruct (Z.eq_dec (ls_r st1) 0) as [Hz|Hnz].
        - exists st1. split; [|exact Hz]. apply edge_loop_app_stop; assumption.
        - rewrite (edge_loop_app P ctx _ _ _ _ _ l1 (prs :: l2) _ _ Hst1 Hnz).
          cbn [edge_loop]. apply Z.eqb_neq in Hnz. rewrite Hnz.
          destruct (edge_round_literal (ln_normalizeRec P ctx fuel) offs prs c rest st1
                      Hoffs Hdrop Hid Hdata) as (st2 & Hst2 & Hz2).
          { intros p' j e'.
            destruct (string_drop_cons _ _ _ _ Hdrop) as [Hnext Hlt].
            destruct (edges_ok_0_edge P dag prs Hok Hinp) as [_ Hch].
            unfold is_buffer in Hbuf.
            apply IH; [exact Hch| |lia|].
            - pose proof (pdag_size_child _ _ Hinp). lia.
            - replace (Z.to_nat (offs + 1)) with (S (Z.to_nat offs)) by lia.
              rewrite Hnext. exact Hrest. }
          rewrite Hst2. cbn [mbind option_bind]. exists st2.
          split; [apply edge_loop_stop; exact Hz2|exact Hz2]. }
      destruct Hst as (st & -> & Hz). cbn [mbind option_bind].
      destruct (terminal_here dag strLen offs false); eexists; split; try reflexivity.
      exact Hz.
Qed.

End LiteralMatch.

(** *** The builder side *)

Lemma builder_run_app (P : ln_plugins) (l1 l2 : list builder_call) :
  forall st : ln_ctx * ln_cursor,
    builder_run P st (l1 ++ l2) = (st1 ← builder_run P st l1; builder_run P st1 l2).
Proof.
  induction l1 as [|call l1 IH]; intros st; cbn [app builder_run]; [reflexivity|].
  destruct (builder_step P st call) as [st'|]; cbn [mbind option_bind]; [apply IH|reflexivity].
Qed.

Lemma ln_newLiteralParser_edge (P : ln_plugins) (lit : ascii) :
  literal_construct_ok P ->
  ln_newLiteralParser P lit
  = Some (mk_parser tt 0 "-" PRS_LITERAL None (Some (until_nul (String lit EmptyString)))).
Proof.
  intros Hc. unfold ln_newLiteralParser, ln_newParser.
  change (Nat.eqb PRS_LITERAL PRS_CUSTOM_TYPE) with false. cbv iota.
  change (parser_lookup_table P !! PRS_LITERAL) with (Some (PARSER_ENTRY P "literal" "Literal")).
  cbn [mbind option_bind PARSER_ENTRY construct]. rewrite Hc. reflexivity.
Qed.

Lemma call_edge_loader (P : ln_plugins) (call : builder_call) (prs : ln_parser_t unit) :
  literal_construct_ok P -> loader_call call ->
  call_edge P call = Some prs -> loader_edge P prs.
Proof.
  intros Hc Hcall. destruct call as [lit|nm id ct extraData| |c]; cbn [call_edge];
    try discriminate.
  - rewrite (ln_newLiteralParser_edge P lit Hc). intros [= <-]. split; cbn [prsid parser_data].
    + rewrite NPARSERS_value. unfold PRS_LITERAL. lia.
    + intros _. eexists. split; [reflexivity|].
      cbn [until_nul]. destruct (Ascii.eqb lit NUL); cbn; lia.
  - cbn [loader_call] in Hcall. destruct Hcall as [Hl Hct]. unfold ln_newParser.
    apply Nat.eqb_neq in Hct. rewrite Hct.
    destruct (parser_lookup_table P !! id) as [info|] eqn:Hinfo; cbn [mbind option_bind];
      [|discriminate].
    intros [= <-]. split; cbn [prsid parser_data].
    + apply lookup_lt_Some in Hinfo. exact Hinfo.
    + intros Habs. contradiction.
Qed.

(** The edge behind which [ln_pdagAddParser] leaves the cursor, for a new
    one-character literal: an edge with that character, the one found or
    the one appended. *)
Lemma ln_pdagAddParser_literal (P : ln_plugins) (ctx : ln_ctx) (dag : ln_pdag) (c : ascii)
    (out : addParser_out) :
  (forall prs, In prs (parsers dag) -> loader_edge P (set_node prs tt)) ->
  c <> NUL ->
  ln_pdagAddParser ctx dag (mk_parser tt 0 "-" PRS_LITERAL None (Some (String c EmptyString)))
  = Some out ->
  exists prs' : ln_parser_t ln_pdag,
    parsers (ap_dag out) !! ap_next out = Some prs'
    /\ prsid prs' = PRS_LITERAL /\ parser_data prs' = Some (String c EmptyString).
Proof.
  intros Hedges Hc. unfold ln_pdagAddParser.
  set (parser := mk_parser tt 0 "-" PRS_LITERAL None (Some (String c EmptyString))).
  destruct (addParser_search_spec parser (parsers dag) 0)
    as [(k & p & Hs & Hk & He & _)|[Hs _]].
  - intros j p Hj Hl.
    destruct (Hedges p) as [_ Hlit];
      [apply list_elem_of_In; apply list_elem_of_lookup; eauto|].
    destruct (Hlit Hl) as (text & Ht & _). cbn [set_node parser_data] in Ht. congruence.
  - intros _. discriminate.
  - rewrite Hs. cbn [mbind option_bind Nat.add]. intros [= <-]. cbn [ap_dag ap_next].
    exists p. split; [exact Hk|]. destruct He as (E1 & _ & E3).
    cbn [parser prsid parser_data] in E1, E3. split; [exact E1|].
    specialize (E3 eq_refl). cbn [data_char0] in E3.
    destruct (Hedges p) as [_ Hlit];
      [apply list_elem_of_In; apply list_elem_of_lookup; eauto|].
    destruct (Hlit E1) as (text & Ht & Hlen). cbn [set_node parser_data] in Ht.
    rewrite Ht in E3 |- *. destruct text as [|a [|b text]]; cbn [data_char0] in E3.
    + injection E3 as E3. symmetry in E3. contradiction.
    + injection E3 as ->. reflexivity.
    + cbn [String.length] in Hlen. lia.
  - rewrite Hs. cbn [mbind option_bind ln_newPDAG]. intros [= <-]. cbn [ap_dag ap_next].
    eexists. split.
    + cbn [set_parsers parsers]. unfold nparsers.
      rewrite lookup_app_r by lia. rewrite Nat.sub_diag. reflexivity.
    + split; reflexivity.
Qed.

Lemma ln_pdagAddParser_accepts (ctx : ln_ctx) (dag : ln_pdag) (parser : ln_parser_t unit)
    (out : addParser_out) (text : string) :
  ln_pdagAddParser ctx dag parser = Some out ->
  lit_accepts text dag -> lit_accepts text (ap_dag out).
Proof.
  unfold ln_pdagAddParser.
  destruct (addParser_search (parsers dag) parser 0) as [[i|]|]; cbn [mbind option_bind];
    [| |discriminate].
  - intros [= <-]. auto.
  - cbn [ln_newPDAG]. intros [= <-]. cbn [ap_dag].
    destruct text as [|c text]; cbn [lit_accepts]; [auto|].
    intros (prs & Hin & Hrest). exists prs. split; [|exact Hrest].
    cbn [set_parsers parsers]. apply in_or_app. left. exact Hin.
Qed.

Lemma lit_accepts_modify (f : ln_pdag -> ln_pdag) (path : list nat) :
  forall root : ln_pdag,
    (forall d, pdag_lookup root path = Some d ->
               forall text, lit_accepts text d -> lit_accepts text (f d)) ->
    forall text, lit_accepts text root -> lit_accepts text (pdag_modify f path root).
Proof.
  induction path as [|i path IH]; intros root Hf text Hacc; cbn [pdag_modify].
  - apply (Hf root); [reflexivity|exact Hacc].
  - destruct text as [|c text]; cbn [lit_accepts] in *; [exact Hacc|].
    destruct Hacc as (prs & Hin & Hid & Hdata & Hrest).
    apply list_elem_of_In in Hin. apply list_elem_of_lookup in Hin as [j Hj].
    destruct (decide (i = j)) as [<-|Hne].
    + exists (set_node prs (pdag_modify f path (node prs))).
      split; [|split; [exact Hid|split; [exact Hdata|]]].
      * cbn [set_parsers parsers]. apply list_elem_of_In. apply list_elem_of_lookup.
        exists i. rewrite list_lookup_alter_eq, Hj. reflexivity.
      * cbn [set_node node]. apply IH; [|exact Hrest].
        intros d Hd. apply Hf. cbn [pdag_lookup]. rewrite Hj. exact Hd.
    + exists prs. split; [|auto].
      cbn [set_parsers parsers]. apply list_elem_of_In. apply list_elem_of_lookup.
      exists j. rewrite list_lookup_alter_ne by assumption. exact Hj.
Qed.

Lemma lit_path_terminal (path : list nat) :
  forall (text : string) (root : ln_pdag),
    lit_path path text root ->
    lit_accepts text (pdag_modify (fun dag => mk_pdag (parsers dag) true (tags dag)) path root).
Proof.
  induction path as [|i path IH]; intros text root Hp; destruct text as [|c text];
    cbn [lit_path] in Hp; try contradiction; cbn [pdag_modify lit_accepts].
  - reflexivity.
  - destruct Hp as (prs & Hi & Hid & Hdata & Hrest).
    exists (set_node prs (pdag_modify (fun dag => mk_pdag (parsers dag) true (tags dag))
                            path (node prs))).
    split; [|split; [exact Hid|split; [exact Hdata|apply (IH text (node prs) Hrest)]]].
    cbn [set_parsers parsers]. apply list_elem_of_In. apply list_elem_of_lookup.
    exists i. rewrite list_lookup_alter_eq, Hi. reflexivity.
Qed.

Lemma lit_path_extend (dag' : ln_pdag) (next : nat) (c : ascii) (prs' : ln_parser_t ln_pdag)
    (path : list nat) :
  parsers dag' !! next = Some prs' ->
  prsid prs' = PRS_LITERAL -> parser_data prs' = Some (String c EmptyString) ->
  forall (text : string) (root : ln_pdag),
    lit_path path text root -> is_Some (pdag_lookup root path) ->
    lit_path (path ++ [next]) (text +:+ String c EmptyString)
      (pdag_modify (fun _ => dag') path root)
    /\ is_Some (pdag_lookup (pdag_modify (fun _ => dag') path root) (path ++ [next])).
Proof.
  intros Hnext Hid Hdata.
  induction path as [|i path IH]; intros text root Hp Hl; destruct text as [|a text];
    cbn [lit_path] in Hp; try contradiction; cbn [pdag_modify app].
  - change (EmptyString +:+ String c EmptyString) with (String c EmptyString).
    cbn [lit_path pdag_lookup]. rewrite Hnext. cbn [mbind option_bind]. split; [|eauto].
    exists prs'. destruct (node prs'); auto.
  - destruct Hp as (prs & Hi & Hpid & Hpdata & Hrest).
    cbn [pdag_lookup] in Hl. rewrite Hi in Hl. cbn [mbind option_bind] in Hl.
    destruct (IH text (node prs) Hrest Hl) as [Hpath Hlook].
    change (String a text +:+ String c EmptyString)
      with (String a (text +:+ String c EmptyString)).
    cbn [lit_path pdag_lookup set_parsers parsers].
    rewrite list_lookup_alter_eq, Hi. cbn [fmap option_fmap option_map mbind option_bind].
    split; [|exact Hlook].
    eexists. split; [reflexivity|]. cbn [set_node prsid parser_data node]. auto.
Qed.

Lemma loader_edges_ok (P : ln_plugins) (dag : ln_pdag) :
  edges_all (loader_edge P) dag -> edges_ok P 0 dag = true.
Proof.
  induction dag as [dag IH _] using pdag_size_ind. intros Hall.
  rewrite edges_ok_unfold. apply forallb_forall. intros prs Hin.
  rewrite edges_all_unfold in Hall. destruct (Hall prs Hin) as [[Hlt _] Hch].
  cbn [set_node prsid] in Hlt. rewrite NPARSERS_value in Hlt.
  assert (Hc : Nat.eqb (prsid prs) PRS_CUSTOM_TYPE = false)
    by (apply Nat.eqb_neq; unfold PRS_CUSTOM_TYPE; lia).
  rewrite Hc. apply andb_true_iff. split; [apply Nat.ltb_lt; rewrite NPARSERS_value; lia|].
  apply IH; assumption.
Qed.

(** The calls that install the literal text of a sample leave the cursor at
    the end of a path that spells the text. *)
Lemma sample_literals_run (P : ln_plugins) (sample : string) :
  literal_construct_ok P ->
  forall (text : string) (ctx : ln_ctx) (path : list nat) (ctx' : ln_ctx) (cur' : ln_cursor),
    has_nul sample = false ->
    ctx_edges_all (loader_edge P) ctx ->
    lit_path path text (pdag ctx) -> is_Some (pdag_lookup (pdag ctx) path) ->
    builder_run P (ctx, mk_cursor None path) (sample_literals sample) = Some (ctx', cur') ->
    exists path' : list nat,
      cur' = mk_cursor None path'
      /\ lit_path path' (text +:+ sample) (pdag ctx')
      /\ is_Some (pdag_lookup (pdag ctx') path')
      /\ ctx_edges_all (loader_edge P) ctx'.
Proof.
  intros Hc. induction sample as [|c sample IH];
    intros text ctx path ctx' cur' Hnul Hall Hpath Hlook Hrun.
  - cbn [sample_literals builder_run] in Hrun. injection Hrun as <- <-.
    exists path. split; [reflexivity|].
    assert (Happ : text +:+ EmptyString = text).
    { clear. induction text as [|a text IHt]; [reflexivity|].
      change (String a text +:+ EmptyString) with (String a (text +:+ EmptyString)).
      rewrite IHt. reflexivity. }
    rewrite Happ. auto.
  - cbn [has_nul] in Hnul. apply orb_false_iff in Hnul as [Hcn Hnul].
    assert (Hne : c <> NUL) by (intros ->; rewrite Ascii.eqb_refl in Hcn; discriminate).
    cbn [sample_literals builder_run] in Hrun.
    destruct (builder_step P (ctx, mk_cursor None path) (AddLiteral c)) as [[ctx1 cur1]|] eqn:Hstep;
      cbn [mbind option_bind] in Hrun; [|discriminate].
    assert (Hall1 : ctx_edges_all (loader_edge P) ctx1).
    { apply (builder_step_edges_all P (loader_edge P) _ _ _) with (3 := Hall) in Hstep as H1;
        [exact H1|].
      intros prs. apply call_edge_loader; [exact Hc|exact I]. }
    cbn [builder_step] in Hstep. rewrite (ln_newLiteralParser_edge P c Hc) in Hstep.
    cbn [until_nul] in Hstep. rewrite Hcn in Hstep. cbn [mbind option_bind] in Hstep.
    unfold ln_pdagAddParser_at in Hstep. cbn [cur_type cur_path ctx_component] in Hstep.
    cbn [mbind option_bind] in Hstep.
    destruct Hlook as [dag Hdag]. rewrite Hdag in Hstep. cbn [mbind option_bind] in Hstep.
    destruct (ln_pdagAddParser ctx dag _) as [out|] eqn:Hout; cbn [mbind option_bind] in Hstep;
      [|discriminate].
    injection Hstep as <- <-.
    destruct (ln_pdagAddParser_literal P ctx dag c out) as (prs' & Hnext & Hid & Hdata);
      [|exact Hne|exact Hout|].
    { destruct Hall as [Hm _]. pose proof (edges_all_lookup _ _ _ _ Hm Hdag) as Hd.
      rewrite edges_all_unfold in Hd. intros prs Hin. apply (Hd prs Hin). }
    destruct (lit_path_extend (ap_dag out) (ap_next out) c prs' path Hnext Hid Hdata
                text (pdag ctx) Hpath (ex_intro _ dag Hdag)) as [Hpath1 Hlook1].
    destruct (IH (text +:+ String c EmptyString)
                 (ctx_set_component (ap_ctx out) None
                    (pdag_modify (fun _ => ap_dag out) path (pdag ctx)))
                 (path ++ [ap_next out])%list ctx' cur' Hnul Hall1 Hpath1 Hlook1 Hrun)
      as (path' & Hcur & Hp' & Hl' & Ha').
    exists path'. split; [exact Hcur|]. split; [|split; assumption].
    rewrite string_app_assoc in Hp'. exact Hp'.
Qed.

Lemma builder_step_accepts (P : ln_plugins) (st st' : ln_ctx * ln_cursor)
    (call : builder_call) (text : string) :
  builder_step P st call = Some st' ->
  lit_accepts text (pdag (fst st)) -> lit_accepts text (pdag (fst st')).
Proof.
  destruct st as [ctx cur].
  assert (Hadd : forall parser r ctx' cur',
             ln_pdagAddParser_at ctx cur parser = Some (r, ctx', cur') ->
             lit_accepts text (pdag ctx) -> lit_accepts text (pdag ctx')).
  { intros parser r ctx' cur'. unfold ln_pdagAddParser_at.
    destruct (ctx_component ctx (cur_type cur)) as [root|] eqn:Hroot; cbn [mbind option_bind];
      [|discriminate].
    destruct (pdag_lookup root (cur_path cur)) as [dag|] eqn:Hdag; cbn [mbind option_bind];
      [|discriminate].
    destruct (ln_pdagAddParser ctx dag parser) as [out|] eqn:Hout; cbn [mbind option_bind];
      [|discriminate].
    intros [= _ <- _] Hacc.
    destruct (ln_pdagAddParser_nNodes _ _ _ _ Hout) as (Hpd & _).
    destruct (cur_type cur) as [i|]; cbn [ctx_set_component pdag ctx_component] in *.
    - rewrite Hpd. exact Hacc.
    - injection Hroot as <-. apply lit_accepts_modify; [|exact Hacc].
      intros d Hd text' Hacc'. assert (d = dag) by congruence. subst d.
      apply (ln_pdagAddParser_accepts _ _ _ _ _ Hout Hacc'). }
  destruct call as [lit|nm id ct extraData| |c]; cbn [builder_step fst].
  - destruct (ln_newLiteralParser P lit) as [parser|]; cbn [mbind option_bind]; [|discriminate].
    destruct (ln_pdagAddParser_at ctx cur parser) as [[[r ctx'] cur']|] eqn:Ha;
      cbn [mbind option_bind]; [|discriminate].
    intros [= <-]. cbn [fst]. eapply Hadd. exact Ha.
  - destruct (ln_newParser P nm id ct extraData JNull) as [parser|]; cbn [mbind option_bind];
      [|discriminate].
    destruct (ln_pdagAddParser_at ctx cur parser) as [[[r ctx'] cur']|] eqn:Ha;
      cbn [mbind option_bind]; [|discriminate].
    intros [= <-]. cbn [fst]. eapply Hadd. exact Ha.
  - unfold set_isTerminal_at.
    destruct (ctx_component ctx (cur_type cur)) as [root|] eqn:Hroot; cbn [mbind option_bind];
      [|discriminate].
    intros [= <-] Hacc. cbn [fst].
    destruct (cur_type cur) as [i|]; cbn [ctx_set_component pdag ctx_component] in *.
    + exact Hacc.
    + injection Hroot as <-. apply lit_accepts_modify; [|exact Hacc].
      intros d _ text' Hacc'. destruct text' as [|a text']; cbn [lit_accepts] in *;
        [reflexivity|exact Hacc'].
  - intros [= <-]. auto.
Qed.

Lemma builder_run_accepts (P : ln_plugins) (calls : list builder_call) (text : string) :
  forall st st' : ln_ctx * ln_cursor,
    builder_run P st calls = Some st' ->
    lit_accepts text (pdag (fst st)) -> lit_accepts text (pdag (fst st')).
Proof.
  induction calls as [|call calls IH]; intros st st'; cbn [builder_run].
  - intros [= <-]. auto.
  - destruct (builder_step P st call) as [st1|] eqn:Hs; cbn [mbind option_bind]; [|discriminate].
    intros Hr Hacc. apply (IH st1 st' Hr). eapply builder_step_accepts; eassumption.
Qed.

(** X17.  A sample of literal text that has been installed is matched: after
    any loader calls, the calls that install the sample, and any further
    loader calls (and no optimization), [ln_normalize] returns 0 on the text
    of the sample. *)
Theorem literal_sample_matches (P : ln_plugins) (types : list string)
    (before after : list builder_call) (sample : string) (ctx : ln_ctx) (cur : ln_cursor)
    (fuel : nat) (json_p : json) :
  literal_construct_ok P -> literal_parser_ok P -> annotator_succeeds P ->
  Forall loader_call before -> Forall loader_call after ->
  has_nul sample = false -> Z.of_nat (String.length sample) < SIZE_MODULUS ->
  builder_run P (ctx_init types, main_root) (before ++ sample_calls sample ++ after)
  = Some (ctx, cur) ->
  (pdag_size (pdag ctx) <= fuel)%nat ->
  exists js : json,
    ln_normalize P ctx fuel sample (Z.of_nat (String.length sample)) json_p = Some (0, js).
Proof.
  intros Hc Hparse Hann Hbefore Hafter Hnul Hlen Hrun Hfuel.
  (* every edge of the context is an edge of the loader *)
  assert (Hall : ctx_edges_all (loader_edge P) ctx).
  { apply (builder_run_edges_all P (loader_edge P) _) with (2 := Hrun);
      [|apply ctx_init_edges_all].
    intros call prs Hin. apply call_edge_loader; [exact Hc|].
    apply in_app_or in Hin as [Hin|Hin].
    - rewrite Forall_forall in Hbefore. apply Hbefore. apply list_elem_of_In. exact Hin.
    - apply in_app_or in Hin as [Hin|Hin].
      + unfold sample_calls in Hin. destruct Hin as [<-|Hin]; [exact I|].
        apply in_app_or in Hin as [Hin|[<-|[]]]; [|exact I].
        clear -Hin. induction sample as [|a s IHs]; cbn [sample_literals] in Hin;
          [contradiction|]. destruct Hin as [<-|Hin]; [exact I|auto].
      + rewrite Forall_forall in Hafter. apply Hafter. apply list_elem_of_In. exact Hin. }
  (* the run, part by part *)
  rewrite builder_run_app in Hrun.
  destruct (builder_run P (ctx_init types, main_root) before) as [[ctx1 cur1]|] eqn:Hrun1;
    cbn [mbind option_bind] in Hrun; [|discriminate].
  assert (Hall1 : ctx_edges_all (loader_edge P) ctx1).
  { apply (builder_run_edges_all P (loader_edge P) _) with (2 := Hrun1);
      [|apply ctx_init_edges_all].
    intros call prs Hin. apply call_edge_loader; [exact Hc|].
    rewrite Forall_forall in Hbefore. apply Hbefore. apply list_elem_of_In. exact Hin. }
  rewrite builder_run_app in Hrun.
  destruct (builder_run P (ctx1, cur1) (sample_calls sample)) as [[ctx3 cur3]|] eqn:Hrun2;
    cbn [mbind option_bind] in Hrun; [|discriminate].
  unfold sample_calls in Hrun2. cbn [builder_run builder_step mbind option_bind] in Hrun2.
  rewrite builder_run_app in Hrun2.
  destruct (builder_run P (ctx1, mk_cursor None []) (sample_literals sample))
    as [[ctx2 cur2]|] eqn:Hlits; cbn [mbind option_bind] in Hrun2; [|discriminate].
  destruct (sample_literals_run P sample Hc EmptyString ctx1 [] ctx2 cur2 Hnul Hall1)
    as (path & -> & Hpath & Hlook & Hall2); [exact I|eexists; reflexivity|exact Hlits|].
  change (EmptyString +:+ sample) with sample in Hpath.
  cbn [builder_run builder_step] in Hrun2. unfold set_isTerminal_at in Hrun2.
  cbn [cur_type cur_path ctx_component mbind option_bind ctx_set_component] in Hrun2.
  injection Hrun2 as <- <-.
  pose proof (lit_path_terminal path sample (pdag ctx2) Hpath) as Hacc3.
  pose proof (builder_run_accepts P after sample _ _ Hrun Hacc3) as Hacc.
  cbn [fst] in Hacc.
  (* the normalizer *)
  set (js0 := if json_is_null json_p then json_object_new_object else json_p).
  destruct (lit_accepts_normalizeRec P ctx sample (Z.of_nat (String.length sample))
              Hparse eq_refl Hlen fuel (pdag ctx) 0 0 js0 None) as (out & Hout & Hr).
  - apply loader_edges_ok. destruct Hall as [Hm _]. exact Hm.
  - exact Hfuel.
  - lia.
  - exact Hacc.
  - destruct (ln_normalizeRec_endNode P ctx _ _ _ _ _ _ _ _ _ _ Hout Hr) as (n & Hn & Hterm).
    unfold ln_normalize. fold js0. rewrite Hout. cbn [mbind option_bind].
    rewrite Hr, Hn. cbn [Z.eqb mbind option_bind]. rewrite Hterm.
    pose proof (finalize_event_status P n (no_json out) Hann) as Hs.
    destruct (finalize_event P n (no_json out)) as [r js]. cbn [fst] in Hs. subst r.
    exists js. reflexivity.
Qed.

(** ** The further properties on examples *)

Lemma lit_plugins_literal_construct_ok : literal_construct_ok lit_plugins.
Proof. intros text js. reflexivity. Qed.

Lemma lit_plugins_literal_parser_ok : literal_parser_ok lit_plugins.
Proof.
  intros str strLen offs text parsed want Hbuf Hoffs Hpre.
  change (ln_parse lit_plugins "Literal") with ln_parseLiteral.
  unfold ln_parseLiteral. change (lit_payload (Some text)) with text.
  unfold is_buffer in Hbuf. subst strLen. rewrite Nat2Z.id, string_take_length, Hpre.
  destruct Hoffs as [H0 H1]. apply Z.leb_le in H0, H1. rewrite H0, H1.
  cbn [andb po_r po_offs po_parsed]. auto.
Qed.

Lemma lit_plugins_annotator_succeeds : annotator_succeeds lit_plugins.
Proof. intros js tgs. reflexivity. Qed.

Lemma ln_parserName2ID_parserName_witness :
  (ln_parserName2ID lit_plugins "word" < NPARSERS lit_plugins)%nat
  /\ parserName lit_plugins (ln_parserName2ID lit_plugins "word") = Some "word".
Proof. apply (ln_parserName2ID_parserName lit_plugins "word"). vm_compute. lia. Defined.

Lemma parserName_ln_parserName2ID_witness : ln_parserName2ID lit_plugins "word" = 10%nat.
Proof.
  apply (parserName_ln_parserName2ID lit_plugins 10%nat "word").
  - vm_compute. lia.
  - reflexivity.
Defined.


Lemma ln_pdagStats_report_witness :
  exists types per_node : string,
    ln_pdagStats lit_plugins (pdag ctx_a_ab)
    = Some ("nodes.............: " +:+ fmt_4d (Z.of_nat (pdag_size (pdag ctx_a_ab))) +:+ NL
            +:+ "terminal nodes....: "
            +:+ fmt_4d (Z.of_nat (count_nodes isTerminal (pdag ctx_a_ab))) +:+ NL
            +:+ "parsers entries...: "
            +:+ fmt_4d (Z.of_nat (pdag_size (pdag ctx_a_ab)) - 1) +:+ NL
            +:+ "longest path......: "
            +:+ fmt_4d (Z.of_nat (pdag_height (pdag ctx_a_ab))) +:+ NL
            +:+ "Parser Type Counts:" +:+ NL
            +:+ types
            +:+ "Parsers per Node:" +:+ NL
            +:+ TAB +:+ "max:" +:+ TAB
            +:+ fmt_4d (Z.of_nat (max_nparsers (pdag ctx_a_ab))) +:+ NL
            +:+ per_node).
Proof.
  apply (ln_pdagStats_report lit_plugins (pdag ctx_a_ab)).
  - vm_compute. reflexivity.
  - vm_compute. discriminate.
Defined.

Lemma ln_pdagStatsRec_histograms_witness :
  exists (r : Z) (s : pdag_stats),
    ln_pdagStatsRec (pdag ctx_a_ab) (stats_calloc lit_plugins) = Some (r, s)
    /\ (forall k : nat, (k < 100)%nat ->
          st_nparsers_cnt s !! k
          = Some (Z.of_nat (count_nodes (fun d => Nat.eqb (nparsers d) k) (pdag ctx_a_ab))))
    /\ st_nparsers_100plus s
       = Z.of_nat (count_nodes (fun d => Nat.leb 100 (nparsers d)) (pdag ctx_a_ab))
    /\ (forall id : nat, (id < NPARSERS lit_plugins)%nat ->
          st_prs_cnt s !! id
          = Some (Z.of_nat (count_edges (fun prs => Nat.eqb (prsid prs) id) (pdag ctx_a_ab)))).
Proof.
  apply (ln_pdagStatsRec_histograms lit_plugins (pdag ctx_a_ab)).
  - vm_compute. reflexivity.
  - vm_compute. discriminate.
Defined.

Lemma ln_fullPdagStats_custom_type_witness :
  ln_pdagStats lit_plugins (pdag ctx_partial_type) = None
  /\ (pdag ctx_partial_type = pdag ctx_partial_type
      \/ In (pdag ctx_partial_type) (map tp_pdag (type_pdags ctx_partial_type)) ->
      ln_fullPdagStats lit_plugins ctx_partial_type = None).
Proof.
  apply (ln_fullPdagStats_custom_type lit_plugins ctx_partial_type (pdag ctx_partial_type)).
  vm_compute. reflexivity.
Defined.

Lemma ln_normalizeRec_left_recursion_witness :
  (forall fuel str strLen offs b p js e,
      ln_normalizeRec lit_plugins ctx_left_recursive fuel
        (mk_pdag [left_recursive_edge "t"] false JNull) str strLen offs b p js e = None)
  /\ (forall (prs0 : ln_parser_t ln_pdag) (rest0 : list (ln_parser_t ln_pdag)),
        parsers (pdag ctx_left_recursive) = prs0 :: rest0 ->
        prsid prs0 = PRS_CUSTOM_TYPE -> custType prs0 = Some 0%nat ->
        forall fuel str strLen json_p,
          ln_normalize lit_plugins ctx_left_recursive fuel str strLen json_p = None).
Proof.
  apply (ln_normalizeRec_left_recursion lit_plugins ctx_left_recursive 0%nat
           (mk_type_pdag "T" (mk_pdag [left_recursive_edge "t"] false JNull))
           (left_recursive_edge "t") []).
  - vm_compute. reflexivity.
  - reflexivity.
  - reflexivity.
  - reflexivity.
Defined.

Lemma ln_normalizeRec_terminates_witness :
  exists out : norm_out,
    forall fuel : nat,
      (live_nodes ctx_two_types <= fuel)%nat ->
      ln_normalizeRec lit_plugins ctx_two_types fuel (pdag ctx_two_types) "pa" 2 0 false 0
        json_object_new_object None = Some out.
Proof.
  apply (ln_normalizeRec_terminates lit_plugins ctx_two_types "pa" 2 0 false 0
           json_object_new_object None).
  - intros [|[|i]] T HT; vm_compute in HT; try discriminate;
      injection HT as <-; vm_compute; reflexivity.
  - vm_compute. reflexivity.
Defined.


Lemma ln_normalize_failure_object_witness :
  exists original unparsed : string,
    JObject {[ "host" := JString "h"; ORIGINAL_MSG_KEY := JString "b";
               UNPARSED_DATA_KEY := JString "b" ]}
    = JObject (<[UNPARSED_DATA_KEY := JString unparsed]>
                 (<[ORIGINAL_MSG_KEY := JString original]> {[ "host" := JString "h" ]}))
    /\ forall key : string,
         key <> ORIGINAL_MSG_KEY -> key <> UNPARSED_DATA_KEY ->
         json_object_object_get
           (JObject {[ "host" := JString "h"; ORIGINAL_MSG_KEY := JString "b";
                       UNPARSED_DATA_KEY := JString "b" ]}) key
         = ({[ "host" := JString "h" ]} : gmap string json) !! key.
Proof.
  apply (ln_normalize_failure_object lit_plugins ctx_a_ab 3 "b" 1
           (JObject {[ "host" := JString "h" ]}) {[ "host" := JString "h" ]} LN_WRONGPARSER).
  - intros js tgs. reflexivity.
  - reflexivity.
  - vm_compute. reflexivity.
  - vm_compute. discriminate.
Defined.

Lemma ln_normalize_builtin_only_witness :
  exists (r : Z) (js : json),
    ln_normalize lit_plugins ctx_a_ab 3 "ax" 2 JNull = Some (r, js)
    /\ (r <> 0 ->
        exists k : nat,
          (k <= String.length "ax")%nat
          /\ json_object_object_get js ORIGINAL_MSG_KEY = Some (JString "ax")
          /\ json_object_object_get js UNPARSED_DATA_KEY
             = Some (JString (string_drop k "ax"))).
Proof.
  apply (ln_normalize_builtin_only lit_plugins ctx_a_ab 3 "ax" 2 JNull).
  - exact lit_plugins_in_bounds.
  - intros js tgs. reflexivity.
  - vm_compute. reflexivity.
  - reflexivity.
  - reflexivity.
  - reflexivity.
  - reflexivity.
  - vm_compute. lia.
Defined.

Lemma ln_normalizeRec_field_order_witness :
  exists (prs : ln_parser_t ln_pdag) (parsed : size_t) (t : try_out) (e' : option ln_pdag)
         (out' : norm_out) (o' : gmap string json),
    In prs (parsers (pdag ctx_named_literal))
    /\ tryParser_with lit_plugins ctx_named_literal
         (ln_normalizeRec lit_plugins ctx_named_literal 2) "ab" 2 0 parsed JNull prs = Some t
    /\ to_r t = 0
    /\ ln_normalizeRec lit_plugins ctx_named_literal 2 (node prs) "ab" 2
         (size_t_wrap (to_offs t + to_parsed t)) false
         (size_t_wrap (to_offs t + to_parsed t)) (JObject ∅) e' = Some out'
    /\ no_r out' = 0 /\ no_json out' = JObject o'
    /\ no_json named_literal_out = snd (fixJSON (to_value t) (JObject o') prs)
    /\ (name prs <> "-" -> name prs <> "." ->
        no_json named_literal_out = JObject (<[name prs := to_value t]> o')
        /\ json_object_object_get (no_json named_literal_out) (name prs) = Some (to_value t)).
Proof.
  apply (ln_normalizeRec_field_order lit_plugins ctx_named_literal 2 (pdag ctx_named_literal)
           "ab" 2 0 false 0 ∅ None named_literal_out).
  - vm_compute. reflexivity.
  - vm_compute. reflexivity.
  - reflexivity.
Defined.

Lemma literal_sample_matches_witness :
  exists js : json,
    ln_normalize lit_plugins ctx_ab_a_ac 4 "a" (Z.of_nat (String.length "a")) JNull
    = Some (0, js).
Proof.
  apply (literal_sample_matches lit_plugins [] (sample_calls "ab") (sample_calls "ac") "a"
           ctx_ab_a_ac (mk_cursor None [0; 1]%nat) 4 JNull).
  - exact lit_plugins_literal_construct_ok.
  - exact lit_plugins_literal_parser_ok.
  - exact lit_plugins_annotator_succeeds.
  - repeat constructor.
  - repeat constructor.
  - reflexivity.
  - vm_compute. reflexivity.
  - vm_compute. reflexivity.
  - vm_compute. lia.
Defined.

(** ** The DOT export *)

Lemma count_char_app (c : ascii) (a b : string) :
  count_char c (a +:+ b) = (count_char c a + count_char c b)%nat.
Proof.
  induction a as [|x a IH]; [reflexivity|].
  change (count_char c (String x (a +:+ b))
          = (count_char c (String x a) + count_char c b)%nat).
  cbn [count_char]. rewrite IH. lia.
Qed.

(** The loop over the literal writes neither a double quote nor a
    backslash. *)
Lemma dot_literal_plain (c : ascii) (data : string) :
  c = DQUOTE \/ c = BACKSLASH -> count_char c (dot_literal data) = 0%nat.
Proof.
  intros Hc. induction data as [|a data IH]; [reflexivity|].
  cbn [dot_literal]. destruct (Ascii.eqb a NUL); [reflexivity|].
  destruct (Ascii.eqb_spec a BACKSLASH) as [Hb|Hb]; cbn [negb andb]; [exact IH|].
  destruct (Ascii.eqb_spec a DQUOTE) as [Hq|Hq]; cbn [negb andb]; [exact IH|].
  cbn [count_char]. rewrite IH.
  destruct (Ascii.eqb_spec a c) as [Hac|Hac]; [|reflexivity].
  destruct Hc as [Hc|Hc]; congruence.
Qed.

(** The names of the parser table, and the name of the user-defined types,
    contain neither. *)
Lemma parserName_plain (P : ln_plugins) (id : prsid_t) (nm : string) (c : ascii) :
  c = DQUOTE \/ c = BACKSLASH -> parserName P id = Some nm -> count_char c nm = 0%nat.
Proof.
  intros Hc. unfold parserName, prsid_t in *.
  destruct (Nat.eqb id PRS_CUSTOM_TYPE).
  - intros [= <-]. destruct Hc as [-> | ->]; reflexivity.
  - destruct (parser_lookup_table P !! id) as [e|] eqn:Hl; [|discriminate].
    intros [= <-].
    assert (Hin : In (pi_name e) (map pi_name (parser_lookup_table P))).
    { apply in_map. apply list_elem_of_In. apply list_elem_of_lookup. exists id. exact Hl. }
    rewrite parser_lookup_table_names in Hin.
    assert (Hall : Forall (fun s => count_char DQUOTE s = 0%nat /\ count_char BACKSLASH s = 0%nat)
                     [ "literal"; "date-rfc3164"; "date-rfc5424"; "number"; "float"; "hexnumber";
                       "kernel-timestamp"; "whitespace"; "ipv4"; "ipv6"; "word"; "alpha"; "rest";
                       "op-quoted-string"; "quoted-string"; "date-iso"; "time-24hr"; "time-12hr";
                       "duration"; "cisco-interface-spec"; "name-value-list"; "json"; "cee-syslog";
                       "mac48"; "cef"; "checkpoint-lea"; "v2-iptables"; "string-to"; "char-to";
                       "char-sep" ]).
    { repeat constructor. }
    rewrite Forall_forall in Hall. apply list_elem_of_In in Hin.
    destruct (Hall _ Hin) as [Hq Hb]. destruct Hc as [-> | ->]; assumption.
Qed.

Lemma parserName_defined (P : ln_plugins) (id : prsid_t) :
  Nat.eqb id PRS_CUSTOM_TYPE || Nat.ltb id (NPARSERS P) = true ->
  exists nm : string, parserName P id = Some nm.
Proof.
  intros H. unfold parserName, prsid_t in *.
  destruct (Nat.eqb id PRS_CUSTOM_TYPE); [eexists; reflexivity|].
  cbn [orb] in H. apply Nat.ltb_lt in H.
  destruct (lookup_lt_is_Some_2 (parser_lookup_table P) id H) as [e He].
  rewrite He. eexists. reflexivity.
Qed.

(** [dotAddPtr] with a text that fits the buffer. *)
Lemma dotAddPtr_fits (ptr : list nat -> string) (str : string) (p : list nat) :
  ptr_text_ok ptr -> dotAddPtr ptr str p = Some (str +:+ "l" +:+ ptr p).
Proof.
  intros Hptr. destruct (Hptr p) as (Hlen & _ & _). unfold dotAddPtr.
  change (String.length ("l" +:+ ptr p)) with (S (String.length (ptr p))).
  destruct (Nat.ltb_spec (S (String.length (ptr p))) 64) as [_|Hge]; [reflexivity|lia].
Qed.

Lemma ptr_text_plain (ptr : list nat -> string) (p : list nat) (c : ascii) :
  ptr_text_ok ptr -> c = DQUOTE \/ c = BACKSLASH -> count_char c (ptr p) = 0%nat.
Proof.
  intros Hptr Hc. destruct (Hptr p) as (_ & Hq & Hb). destruct Hc as [-> | ->]; assumption.
Qed.

Lemma dot_ready_unfold (P : ln_plugins) (dag : ln_pdag) :
  dot_ready P dag
  = forallb (fun prs =>
               (Nat.eqb (prsid prs) PRS_CUSTOM_TYPE || Nat.ltb (prsid prs) (NPARSERS P))
               && (negb (Nat.eqb (prsid prs) PRS_LITERAL)
                   || match parser_data prs with Some _ => true | None => false end)
               && dot_ready P (node prs))
            (parsers dag).
Proof. destruct dag. reflexivity. Qed.

Lemma ln_genDotPDAGGraphRec_unfold (P : ln_plugins) (ptr : list nat -> string)
    (dag : ln_pdag) (path : list nat) (str : string) :
  ln_genDotPDAGGraphRec P ptr dag path str
  = (s1 ← dotAddPtr ptr str path;
     let s2 := s1 +:+ " [ label=" +:+ dq +:+ "n" +:+ dq in
     let s3 := if isLeaf dag =? 0 then s2 else s2 +:+ " style=" +:+ dq +:+ "bold" +:+ dq in
     dot_edges P ptr (ln_genDotPDAGGraphRec P ptr) path (parsers dag) 0 (s3 +:+ "]" +:+ NL)).
Proof. destruct dag. reflexivity. Qed.

Ltac count_consts :=
  unfold dq, NL;
  repeat match goal with
         | |- context [count_char ?c (String ?a ?s)] =>
             let v := eval vm_compute in (count_char c (String a s)) in
             lazymatch v with
             | O => change (count_char c (String a s)) with 0%nat
             | S O => change (count_char c (String a s)) with 1%nat
             end
         end.

(** The double quotes and the backslashes the walk adds to the string: the
    factor [count_char c dq] is 1 for the double quote and 0 for the
    backslash. *)
Lemma ln_genDotPDAGGraphRec_count (P : ln_plugins) (ptr : list nat -> string) (c : ascii) :
  ptr_text_ok ptr -> c = DQUOTE \/ c = BACKSLASH ->
  forall (dag : ln_pdag) (path : list nat) (str : string),
    dot_ready P dag = true ->
    exists out : string,
      ln_genDotPDAGGraphRec P ptr dag path str = Some out
      /\ (count_char c out + 4 * count_char c dq
          = count_char c str
            + count_char c dq
              * (6 * pdag_size dag + 2 * count_nodes (fun d => Nat.eqb (nparsers d) 0) dag))%nat.
Proof.
  intros Hptr Hc dag. induction dag as [dag IH _] using pdag_size_ind.
  intros path str Hready.
  rewrite ln_genDotPDAGGraphRec_unfold, (dotAddPtr_fits _ _ _ Hptr). cbn [mbind option_bind].
  rewrite (pdag_size_unfold dag), (count_nodes_unfold _ dag).
  rewrite dot_ready_unfold in Hready.
  assert (Hloop : forall (prss : list (ln_parser_t ln_pdag)) (i : nat) (s : string),
             (forall prs, In prs prss -> In prs (parsers dag)) ->
             forallb (fun prs =>
               (Nat.eqb (prsid prs) PRS_CUSTOM_TYPE || Nat.ltb (prsid prs) (NPARSERS P))
               && (negb (Nat.eqb (prsid prs) PRS_LITERAL)
                   || match parser_data prs with Some _ => true | None => false end)
               && dot_ready P (node prs)) prss = true ->
             exists out : string,
               dot_edges P ptr (ln_genDotPDAGGraphRec P ptr) path prss i s = Some out
               /\ (count_char c out
                   = count_char c s
                     + count_char c dq
                       * (6 * list_sum (map (fun prs => pdag_size (node prs)) prss)
                          + 2 * list_sum (map (fun prs =>
                                  count_nodes (fun d => Nat.eqb (nparsers d) 0) (node prs)) prss)))%nat).
  { induction prss as [|prs prss IHl]; intros i s Hsub Hall.
    - exists s. split; [reflexivity|]. cbn [map list_sum fold_right]. lia.
    - cbn [forallb] in Hall. apply andb_true_iff in Hall as [Hprs Hall].
      apply andb_true_iff in Hprs as [Hprs Hchild].
      apply andb_true_iff in Hprs as [Hid Hdata].
      cbn [dot_edges]. rewrite (dotAddPtr_fits _ _ _ Hptr). cbn [mbind option_bind].
      rewrite (dotAddPtr_fits _ _ _ Hptr). cbn [mbind option_bind].
      destruct (parserName_defined P _ Hid) as [nm Hnm]. rewrite Hnm. cbn [mbind option_bind].
      pose proof (parserName_plain P _ _ c Hc Hnm) as Hnm0.
      assert (Hlit : forall X : string,
                 exists s4 : string,
                   (if Nat.eqb (prsid prs) PRS_LITERAL
                    then data ← parser_data prs; Some (X +:+ dot_literal data)
                    else Some X) = Some s4
                   /\ count_char c s4 = count_char c X).
      { intros X. destruct (Nat.eqb (prsid prs) PRS_LITERAL).
        - destruct (parser_data prs) as [data|]; [|discriminate].
          eexists. split; [reflexivity|].
          rewrite count_char_app, (dot_literal_plain _ _ Hc). lia.
        - eexists. split; reflexivity. }
      match goal with
      | |- context [if Nat.eqb (prsid prs) PRS_LITERAL then _ else Some ?X] =>
          destruct (Hlit X) as (s4 & -> & Hs4)
      end.
      cbn [mbind option_bind].
      match goal with
      | |- context [ln_genDotPDAGGraphRec P ptr (node prs) ?pa ?st] =>
          destruct (IH prs (Hsub prs (or_introl eq_refl)) pa st Hchild) as (s5 & -> & Hs5)
      end.
      cbn [mbind option_bind].
      destruct (IHl (S i) s5 (fun p Hp => Hsub p (or_intror Hp)) Hall) as (out & -> & Hout).
      exists out. split; [reflexivity|].
      cbn [map]. change (list_sum (?x :: ?l')) with (x + list_sum l')%nat.
      revert Hs4 Hs5 Hout. rewrite !count_char_app, !(ptr_text_plain _ _ _ Hptr Hc), Hnm0.
      destruct Hc as [-> | ->]; count_consts; lia. }
  match goal with
  | |- context [dot_edges P ptr _ path (parsers dag) 0 ?st] =>
      destruct (Hloop (parsers dag) 0%nat st (fun p Hp => Hp) Hready) as (out & -> & Hcount)
  end.
  exists out. split; [reflexivity|]. revert Hcount. clear Hloop. unfold isLeaf.
  destruct (Nat.eqb (nparsers dag) 0); cbn [Z.eqb];
    rewrite !count_char_app, !(ptr_text_plain _ _ _ Hptr Hc);
    destruct Hc as [-> | ->]; count_consts; lia.
Qed.

(** Where an edge has a parser id outside the parser table, or a literal
    edge has no data, the walk reads outside an array or through the NULL
    pointer. *)
Lemma ln_genDotPDAGGraphRec_not_ready (P : ln_plugins) (ptr : list nat -> string) :
  forall (dag : ln_pdag) (path : list nat) (str : string),
    dot_ready P dag = false -> ln_genDotPDAGGraphRec P ptr dag path str = None.
Proof.
  intros dag. induction dag as [dag IH _] using pdag_size_ind.
  intros path str Hready.
  rewrite ln_genDotPDAGGraphRec_unfold. rewrite dot_ready_unfold in Hready.
  destruct (dotAddPtr ptr str path) as [s1|]; [|reflexivity]. cbn [mbind option_bind].
  match goal with |- dot_edges _ _ _ _ _ _ ?st = None => generalize st end.
  generalize 0%nat.
  assert (Hsub : forall prs, In prs (parsers dag) -> In prs (parsers dag)) by auto.
  revert Hsub Hready. generalize (parsers dag) at 1 3 4.
  induction l as [|prs prss IHl]; intros Hsub Hall i s; [discriminate|].
  cbn [forallb] in Hall. cbn [dot_edges].
  destruct (dotAddPtr ptr s path) as [t1|]; [|reflexivity]. cbn [mbind option_bind].
  destruct (dotAddPtr ptr (t1 +:+ " -> ") (path ++ [i])%list) as [t2|]; [|reflexivity].
  cbn [mbind option_bind].
  destruct (Nat.eqb (prsid prs) PRS_CUSTOM_TYPE || Nat.ltb (prsid prs) (NPARSERS P)) eqn:Hid.
  - destruct (parserName P (prsid prs)) as [nm|]; [|reflexivity]. cbn [mbind option_bind].
    cbn [andb] in Hall.
    destruct (Nat.eqb (prsid prs) PRS_LITERAL) eqn:Hlit; cbn [negb orb] in Hall.
    + destruct (parser_data prs) as [data|]; [|reflexivity]. cbn [mbind option_bind].
      destruct (dot_ready P (node prs)) eqn:Hchild.
      * match goal with
        | |- context [ln_genDotPDAGGraphRec P ptr (node prs) ?pa ?st] =>
            destruct (ln_genDotPDAGGraphRec P ptr (node prs) pa st) as [s5|]; [|reflexivity]
        end.
        cbn [mbind option_bind]. apply IHl; [intros p Hp; apply Hsub; right; exact Hp|exact Hall].
      * rewrite (IH prs (Hsub prs (or_introl eq_refl)) _ _ Hchild). reflexivity.
    + cbn [mbind option_bind]. destruct (dot_ready P (node prs)) eqn:Hchild.
      * match goal with
        | |- context [ln_genDotPDAGGraphRec P ptr (node prs) ?pa ?st] =>
            destruct (ln_genDotPDAGGraphRec P ptr (node prs) pa st) as [s5|]; [|reflexivity]
        end.
        cbn [mbind option_bind]. apply IHl; [intros p Hp; apply Hsub; right; exact Hp|exact Hall].
      * rewrite (IH prs (Hsub prs (or_introl eq_refl)) _ _ Hchild). reflexivity.
  - apply orb_false_iff in Hid as [Hc Hlt]. unfold parserName, prsid_t in *. rewrite Hc.
    apply Nat.ltb_ge in Hlt. rewrite (lookup_ge_None_2 _ _ Hlt). reflexivity.
Qed.

(** X18.  Where the text of an address fits the buffer of [dotAddPtr], the
    DOT export of a tree is defined exactly when every parser id below the
    node is an id of the parser table or [PRS_CUSTOM_TYPE] and every literal
    edge carries data: otherwise it reads outside the table of the names or
    through the NULL pointer. *)
Theorem ln_genDotPDAGGraph_defined (P : ln_plugins) (ptr : list nat -> string)
    (dag : ln_pdag) (str : string) :
  ptr_text_ok ptr ->
  (is_Some (ln_genDotPDAGGraph P ptr dag str) <-> dot_ready P dag = true).
Proof.
  intros Hptr. unfold ln_genDotPDAGGraph. split.
  - intros [out Hout]. destruct (dot_ready P dag) eqn:Hready; [reflexivity|].
    rewrite (ln_genDotPDAGGraphRec_not_ready P ptr dag _ _ Hready) in Hout. discriminate.
  - intros Hready.
    destruct (ln_genDotPDAGGraphRec_count P ptr DQUOTE Hptr (or_introl eq_refl) dag []
                (str +:+ "digraph pdag {" +:+ NL) Hready) as (out & -> & _).
    cbn [mbind option_bind]. eexists. reflexivity.
Qed.

Lemma ptr_example_ok : ptr_text_ok ptr_example.
Proof. intros p. cbn. repeat split. lia. Qed.

Lemma ln_genDotPDAGGraph_defined_witness :
  ptr_text_ok ptr_example
  /\ (is_Some (ln_genDotPDAGGraph lit_plugins ptr_example (pdag ctx_ab_a_ac) "")
      <-> dot_ready lit_plugins (pdag ctx_ab_a_ac) = true).
Proof.
  split; [exact ptr_example_ok|].
  apply (ln_genDotPDAGGraph_defined lit_plugins ptr_example (pdag ctx_ab_a_ac) "").
  exact ptr_example_ok.
Defined.

(** X19.  The DOT text quotes nothing it takes from the rule base: the
    export writes two double quotes for a node, two more for a leaf and four
    for an edge, and no backslash, whatever the literals contain.  A double
    quote or a backslash of a literal is missing from the label of its
    edge. *)
Theorem ln_genDotPDAGGraph_quotes (P : ln_plugins) (ptr : list nat -> string)
    (dag : ln_pdag) (str out : string) :
  ptr_text_ok ptr ->
  ln_genDotPDAGGraph P ptr dag str = Some out ->
  count_char DQUOTE out
  = (count_char DQUOTE str
     + 2 * pdag_size dag
     + 2 * count_nodes (fun d => Nat.eqb (nparsers d) 0) dag
     + 4 * (pdag_size dag - 1))%nat
  /\ count_char BACKSLASH out = count_char BACKSLASH str.
Proof.
  intros Hptr. unfold ln_genDotPDAGGraph. intros Hout.
  destruct (dot_ready P dag) eqn:Hready.
  - destruct (ln_genDotPDAGGraphRec_count P ptr DQUOTE Hptr (or_introl eq_refl) dag []
                (str +:+ "digraph pdag {" +:+ NL) Hready) as (o1 & Ho1 & Hq).
    destruct (ln_genDotPDAGGraphRec_count P ptr BACKSLASH Hptr (or_intror eq_refl) dag []
                (str +:+ "digraph pdag {" +:+ NL) Hready) as (o2 & Ho2 & Hb).
    rewrite Ho1 in Ho2. injection Ho2 as <-. rewrite Ho1 in Hout. cbn in Hout.
    injection Hout as <-. pose proof (pdag_size_pos dag) as Hpos.
    revert Hq Hb. rewrite !count_char_app. count_consts. lia.
  - rewrite (ln_genDotPDAGGraphRec_not_ready P ptr dag _ _ Hready) in Hout. discriminate.
Qed.

Lemma ln_genDotPDAGGraph_quotes_witness :
  exists out : string,
    ln_genDotPDAGGraph lit_plugins ptr_example (pdag ctx_quoted) "" = Some out
    /\ count_char DQUOTE out = 28%nat /\ count_char BACKSLASH out = 0%nat.
Proof.
  destruct (ln_genDotPDAGGraph lit_plugins ptr_example (pdag ctx_quoted) "") as [out|] eqn:Hout;
    [|vm_compute in Hout; discriminate].
  exists out. split; [reflexivity|].
  exact (ln_genDotPDAGGraph_quotes lit_plugins ptr_example (pdag ctx_quoted) "" out
           ptr_example_ok Hout).
Defined.

(** The literal path compaction and the optimizer keep a property of the
    edges that a literal edge does not lose with new data. *)
Lemma optLitPathCompact_edges_all (Q : ln_parser_t unit -> Prop) (n : nat) :
  (forall (prs : ln_parser_t unit) (d : string),
     prsid prs = PRS_LITERAL -> Q prs -> Q (set_parser_data prs (Some d))) ->
  forall prs : ln_parser_t ln_pdag,
    (pdag_size (node prs) <= n)%nat ->
    Q (set_node prs tt) -> edges_all Q (node prs) ->
    Q (set_node (snd (optLitPathCompact prs)) tt)
    /\ edges_all Q (node (snd (optLitPathCompact prs))).
Proof.
  intros HQ. induction n as [|n IH]; intros prs Hsz Hq Hch.
  - pose proof (pdag_size_pos (node prs)). lia.
  - rewrite optLitPathCompact_unfold. destruct (compactable prs) eqn:Hc; [|split; assumption].
    destruct (compact_step_size prs Hc) as [_ Hs].
    apply compactable_inv in Hc as [Hid [c [Hcs _]]].
    rewrite (compact_step_compactable _ _ Hcs) in Hs |- *. cbn [snd] in *.
    apply IH.
    + cbn [set_node node] in *. lia.
    + apply (HQ (set_node prs tt)); [exact Hid|exact Hq].
    + cbn [set_node node]. rewrite edges_all_unfold in Hch.
      apply (Hch c). rewrite Hcs. left. reflexivity.
Qed.

Lemma ln_pdagComponentOptimize_edges_all (Q : ln_parser_t unit -> Prop) (dag : ln_pdag) :
  (forall (prs : ln_parser_t unit) (d : string),
     prsid prs = PRS_LITERAL -> Q prs -> Q (set_parser_data prs (Some d))) ->
  edges_all Q dag -> edges_all Q (snd (ln_pdagComponentOptimize dag)).
Proof.
  intros HQ. induction dag as [dag _ IH] using pdag_size_ind. intros Hdag.
  rewrite ln_pdagComponentOptimize_unfold. apply edges_all_unfold.
  cbn [set_parsers parsers]. intros q Hq. apply in_map_iff in Hq as (prs & <- & Hin).
  rewrite edges_all_unfold in Hdag. destruct (Hdag prs Hin) as [Hq Hch].
  destruct (optLitPathCompact_edges_all Q _ HQ prs (Nat.le_refl _) Hq Hch) as [Hq' Hch'].
  unfold optimize_edge. cbn [set_node node prio name prsid custType parser_data] in *.
  split; [exact Hq'|]. apply IH; [|exact Hch'].
  pose proof (pdag_size_child _ _ Hin). pose proof (optLitPathCompact_size prs). lia.
Qed.

Lemma ln_newParser_dot_edge_ok (P : ln_plugins) (nm : string) (id : prsid_t) (ct : option nat)
    (extraData : option string) (js : json) (prs : ln_parser_t unit) :
  literal_constructs P ->
  ln_newParser P nm id ct extraData js = Some prs -> dot_edge_ok P prs.
Proof.
  intros HP Hnew. split; [|exact (ln_newParser_has_data P _ _ _ _ _ _ HP Hnew)].
  revert Hnew. unfold ln_newParser.
  destruct (Nat.eqb_spec id PRS_CUSTOM_TYPE) as [Hc|Hc].
  - intros [= <-]. left. exact Hc.
  - destruct (parser_lookup_table P !! id) as [info|] eqn:Hl; cbn [mbind option_bind];
      [|discriminate].
    intros [= <-]. right. cbn [prsid]. apply lookup_lt_Some in Hl. exact Hl.
Qed.

Lemma edges_all_dot_ready (P : ln_plugins) (dag : ln_pdag) :
  edges_all (dot_edge_ok P) dag -> dot_ready P dag = true.
Proof.
  induction dag as [dag IH _] using pdag_size_ind. intros Hdag.
  rewrite edges_all_unfold in Hdag. rewrite dot_ready_unfold.
  apply forallb_forall. intros prs Hin.
  destruct (Hdag prs Hin) as [[Hid Hdata] Hch]. cbn [set_node prsid] in Hid.
  unfold literal_has_data in Hdata. cbn [set_node prsid parser_data] in Hdata.
  rewrite (IH prs Hin Hch), andb_true_r. apply andb_true_iff. split.
  - apply orb_true_iff. destruct Hid as [Hid|Hid];
      [left; apply Nat.eqb_eq|right; apply Nat.ltb_lt]; exact Hid.
  - destruct (Nat.eqb_spec (prsid prs) PRS_LITERAL) as [Hl|Hl]; [|reflexivity].
    cbn [negb orb]. destruct (parser_data prs); [reflexivity|].
    exfalso. apply (Hdata Hl). reflexivity.
Qed.

(** X20.  Where the construct hook of the literal parser stores data, every
    component of a context that builder calls have built, optimized or not,
    can be exported: the export reads no name outside the parser table and
    no literal through the NULL pointer. *)
Theorem ln_genDotPDAGGraph_built_context (P : ln_plugins) (ptr : list nat -> string)
    (types : list string) (calls : list builder_call) (ctx : ln_ctx) (cur : ln_cursor)
    (dag : ln_pdag) (str : string) :
  literal_constructs P -> ptr_text_ok ptr ->
  builder_run P (ctx_init types, main_root) calls = Some (ctx, cur) ->
  In dag (ctx_components ctx) \/ In dag (ctx_components (snd (ln_pdagOptimize ctx))) ->
  is_Some (ln_genDotPDAGGraph P ptr dag str).
Proof.
  intros HP Hptr Hrun Hin.
  assert (Hctx : ctx_edges_all (dot_edge_ok P) ctx).
  { apply (builder_run_edges_all P (dot_edge_ok P) calls) with (2 := Hrun);
      [|apply ctx_init_edges_all].
    intros call prs _. destruct call; cbn [call_edge]; try discriminate;
      apply ln_newParser_dot_edge_ok; exact HP. }
  assert (HQ : forall (prs : ln_parser_t unit) (d : string),
             prsid prs = PRS_LITERAL -> dot_edge_ok P prs ->
             dot_edge_ok P (set_parser_data prs (Some d))).
  { intros prs d _ [Hid _]. split; [exact Hid|]. intros _. discriminate. }
  assert (Hready : dot_ready P dag = true).
  { apply edges_all_dot_ready. destruct Hctx as [Hm Ht]. rewrite Forall_forall in Ht.
    unfold ctx_components, ln_pdagOptimize in Hin. cbn [snd pdag type_pdags] in Hin.
    destruct Hin as [[<-|Hin]|[<-|Hin]].
    - exact Hm.
    - apply in_map_iff in Hin as (t & <- & Hin). apply Ht. apply list_elem_of_In. exact Hin.
    - apply ln_pdagComponentOptimize_edges_all; assumption.
    - apply in_map_iff in Hin as (t' & <- & Hin). apply in_map_iff in Hin as (t & <- & Hin).
      cbn [tp_pdag]. apply ln_pdagComponentOptimize_edges_all; [assumption|].
      apply Ht. apply list_elem_of_In. exact Hin. }
  unfold ln_genDotPDAGGraph.
  destruct (ln_genDotPDAGGraphRec_count P ptr DQUOTE Hptr (or_introl eq_refl) dag []
              (str +:+ "digraph pdag {" +:+ NL) Hready) as (out & -> & _).
  cbn [mbind option_bind]. eexists. reflexivity.
Qed.

Lemma ln_genDotPDAGGraph_built_context_witness :
  is_Some (ln_genDotPDAGGraph lit_plugins ptr_example
             (pdag (snd (ln_pdagOptimize ctx_quoted))) "").
Proof.
  apply (ln_genDotPDAGGraph_built_context lit_plugins ptr_example [] calls_quoted
           ctx_quoted (mk_cursor None [0; 0; 0; 0]%nat)).
  - exact lit_plugins_literal_constructs.
  - exact ptr_example_ok.
  - vm_compute. reflexivity.
  - right. left. reflexivity.
Defined.
